(** * Google Drive connector: permissions, listing and webhook handler

    A shallow embedding of two modules of the [connectors] service:

    - the Google Drive connector, with
      [retrieveGoogleDriveConnectorPermissions],
      [setGoogleDriveConnectorPermissions] and
      [retrieveGoogleDriveObjectsTitles];
    - the Google Drive webhook endpoint, [_webhookGoogleDriveAPIHandler].

    The Sequelize tables are lists of rows. The remote Drive API, the
    workflow engine and the JavaScript builtins the code calls are
    interfaces (type classes) the definitions are parameterised by. *)

From stdpp Require Import base decidable option list sorting strings pretty gmap.
From Stdlib Require Import ZArith Lia Ascii.

Local Open Scope string_scope.
Local Open Scope Z_scope.
Local Open Scope list_scope.

(** ** JavaScript values and control flow *)

Module JS.

(** [Error] objects: the class a handler tests with [instanceof] and the
    message. *)
Inductive ErrorClass := PlainError | RateLimitError.

Record Error := mkError { error_class : ErrorClass; message : string }.

Definition new_Error (msg : string) : Error := mkError PlainError msg.

(** [Result<T, Error>] of lib/result: [new Ok(v)] or [new Err(e)]. *)
Inductive Result (T : Type) :=
| Ok (value : T)
| Err (error : Error).
Arguments Ok {T} value.
Arguments Err {T} error.

Definition isErr {T} (r : Result T) : bool :=
  match r with Ok _ => false | Err _ => true end.

(** How the evaluation of an [async] function ends: the promise is
    fulfilled with a value, rejected with a thrown error, or a loop
    that waits for the remote side has not finished within the fuel it
    was given. *)
Inductive Completion (A : Type) :=
| Normal (a : A)
| Throw (e : Error)
| OutOfFuel.
Arguments Normal {A} a.
Arguments Throw {A} e.
Arguments OutOfFuel {A}.

Definition bind {A B} (m : Completion A) (k : A → Completion B)
  : Completion B :=
  match m with
  | Normal a => k a
  | Throw e => Throw e
  | OutOfFuel => OutOfFuel
  end.

(** [await Promise.all(xs.map(f))] and [concurrentExecutor(xs, f, _)]
    where [f] only reads: when every call is fulfilled the results come
    in the order of [xs], and one rejection rejects the whole. When
    several calls reject, [Promise.all] rejects with the rejection that
    happens first in time; [mapM] takes the first in the order of [xs],
    one of the orders the calls may settle in. *)
Fixpoint mapM {A B} (f : A → Completion B) (xs : list A)
  : Completion (list B) :=
  match xs with
  | [] => Normal []
  | x :: xs' =>
      bind (f x) (λ y, bind (mapM f xs') (λ ys, Normal (y :: ys)))
  end.

(** [s || d] on a string: the empty string is falsy. *)
Definition str_or (s d : string) : string :=
  if decide (s = "") then d else s.

(** [n || null] on an optional number: [undefined] and [0] are falsy. *)
Definition num_or_null (n : option Z) : option Z :=
  match n with
  | Some 0 => None
  | Some t => Some t
  | None => None
  end.

(** [Array.prototype.sort(comparefn)]: a stable sort; [x] is put before
    the first element it does not compare greater than. With a
    consistent [comparefn] every stable sort returns this list. *)
Section Sort.
Context {A : Type} (comparefn : A → A → Z).

Fixpoint sort_insert (x : A) (l : list A) : list A :=
  match l with
  | [] => [x]
  | y :: l' =>
      if decide (comparefn x y ≤ 0) then x :: y :: l'
      else y :: sort_insert x l'
  end.

Definition sort (l : list A) : list A := foldr sort_insert [] l.
End Sort.

(** [acc[k] = v] on an object created by [{}]: an own property is
    defined, except for the key [__proto__], which reaches the setter of
    [Object.prototype] and leaves the object as it is when [v] is a
    string. *)
Definition obj_set (k v : string) (o : gmap string string)
  : gmap string string :=
  if decide (k = "__proto__") then o else <[k := v]> o.

End JS.

Import JS.

#[global] Instance Completion_bind : MBind Completion :=
  λ A B k m, JS.bind m k.
#[global] Instance Completion_ret : MRet Completion := @JS.Normal.

(** ** Tables *)

Definition ModelId := Z.

(** [ConnectorModel] rows; [paused] is what [connector.isPaused()]
    answers. *)
Record ConnectorModel := {
  connector_id : ModelId;
  connector_type : string;
  connectionId : string;
  paused : bool;
}.

(** [GoogleDriveFolders]: the folders selected by the user. *)
Record GoogleDriveFolders := {
  gdf_connectorId : ModelId;
  folderId : string;
}.

(** [GoogleDriveFiles]: the files and folders mirrored by the sync. *)
Record GoogleDriveFiles := {
  file_connectorId : ModelId;
  driveFileId : string;
  name : string;
  parentId : option string;
  mimeType : string;
  lastUpsertedTs : option Z;
}.

(** [GoogleDriveWebhook]: the channel registered for a connector. *)
Record GoogleDriveWebhook := {
  webhookId : string;
  wh_connectorId : ModelId;
}.

Record Store := {
  connectors : list ConnectorModel;
  folders : list GoogleDriveFolders;
  files : list GoogleDriveFiles;
  webhooks : list GoogleDriveWebhook;
}.

#[global] Instance GoogleDriveFolders_eq_dec : EqDecision GoogleDriveFolders.
Proof. solve_decision. Defined.

(** [ConnectorResource.fetchById]. *)
Definition fetchById (st : Store) (id : ModelId) : option ConnectorModel :=
  list_find (λ c, connector_id c = id) (connectors st) ≫= (λ p, Some p.2).

(** Workflows handed to the workflow engine. *)
Inductive WorkflowCall :=
| FullSync (connectorId : ModelId) (fromTs : option Z)
| IncrementalSync (connectorId : ModelId)
| GarbageCollector (connectorId : ModelId).

(** A value of a field of a log line. *)
Inductive LogValue :=
| LogString (s : string)
| LogNumber (n : Z)
| LogNull
| LogUndefined.

(** A line written to the logger by [logger.info(fields, msg)] or
    [logger.error(fields, msg)]: the fields of the object and the
    message. *)
Record LogLine := {
  log_fields : list (string * LogValue);
  log_message : string;
}.

(** The state the mutating entry points run in: the tables, the launches
    requested from the workflow engine (oldest first) and the lines
    written to the logger (oldest first). *)
Record World := {
  db : Store;
  workflows : list WorkflowCall;
  logs : list LogLine;
}.

Definition set_db (f : Store → Store) (w : World) : World :=
  {| db := f (db w); workflows := workflows w; logs := logs w |}.

Definition launch (call : WorkflowCall) (w : World) : World :=
  {| db := db w; workflows := workflows w ++ [call]; logs := logs w |}.

Definition log (line : LogLine) (w : World) : World :=
  {| db := db w; workflows := workflows w; logs := logs w ++ [line] |}.

(** A string that may be [undefined], and one that may be [null], as
    the value of a field. *)
Definition string_or_undefined (x : option string) : LogValue :=
  match x with Some s => LogString s | None => LogUndefined end.

Definition string_or_null (x : option string) : LogValue :=
  match x with Some s => LogString s | None => LogNull end.

(** ** Collaborators *)

(** The workflow engine client (google_drive/temporal/client): what each
    launch answers. *)
Class WorkflowEngine := {
  launchGoogleDriveFullSyncWorkflow : ModelId → option Z → Result string;
  launchGoogleDriveIncrementalSyncWorkflow : ModelId → Result string;
}.

(** The JavaScript builtins whose result depends on the host:
    [String.prototype.localeCompare] and [parseInt] ([None] is [NaN]). *)
Class Host := {
  localeCompare : string → string → Z;
  parseInt : string → option Z;
}.

(** The type of a node of the permission tree. *)
Inductive ConnectorNodeType := folder | file.

#[global] Instance ConnectorNodeType_eq_dec : EqDecision ConnectorNodeType.
Proof. solve_decision. Defined.

Record ConnectorNode := {
  provider : string;
  internalId : string;
  parentInternalId : option string;
  type : ConnectorNodeType;
  title : string;
  sourceUrl : option string;
  dustDocumentId : option string;
  lastUpdatedAt : option Z;
  expandable : bool;
  permission : string;
}.

(** [GoogleDriveObjectType], the normalised remote object. *)
Record GoogleDriveObjectType := {
  obj_id : string;
  obj_name : string;
  obj_parent : option string;
  webViewLink : option string;
  updatedAtMs : option Z;
}.

(** The response of [drive.files.list] for the fields the code reads. *)
Record FileListResponse (File : Type) := {
  status : Z;
  statusText : string;
  data_files : option (list File);
  data_nextPageToken : option string;
}.
Arguments status {File} _.
Arguments statusText {File} _.
Arguments data_files {File} _.
Arguments data_nextPageToken {File} _.

(** The remote Drive API and the helpers of the connector that call it
    (lib/google_drive_api, temporal/activities, temporal/utils). Every
    call may reject. [getGoogleDriveObject] answers [None] for an object
    the remote side does not have. [files_list] takes the query [q] and
    the page token. *)
Class DriveAPI := {
  AuthCredentials : Type;
  Schema_File : Type;
  getAuthObject : string → Completion AuthCredentials;
  getGoogleDriveObject :
    AuthCredentials → string → Completion (option GoogleDriveObjectType);
  getDrivesIds : ModelId → Completion (list string);
  folderHasChildren : ModelId → string → Completion bool;
  files_list :
    AuthCredentials → string → option string →
    Completion (FileListResponse Schema_File);
  driveObjectToDustType :
    Schema_File → AuthCredentials → Completion GoogleDriveObjectType;
}.

(** The helpers of google_drive/lib/permissions. *)
Class PermissionsLib := {
  getPermissionViewType : GoogleDriveFiles → ConnectorNodeType;
  getGoogleDriveEntityDocumentId : GoogleDriveFiles → string;
}.

(** ** The Google Drive connector *)

Module GoogleDrive.

(** [GoogleDriveFolders.destroy({ where: { connectorId, folderId } })]. *)
Definition folders_destroy (c : ModelId) (id : string) (st : Store)
  : Store :=
  {| connectors := connectors st;
     folders := filter (λ f, ¬ (gdf_connectorId f = c ∧ folderId f = id))
                       (folders st);
     files := files st;
     webhooks := webhooks st |}.

(** Modelled from the spec: the declaration of the [GoogleDriveFolders]
    table and of its unique key is in lib/models/google_drive, which is
    not part of the sources at hand. The spec has the local mirror
    store keyed by (connectorId, remoteId) and the read grant create
    the row idempotently: [upsert] inserts the row when the key is free
    and otherwise updates the row that holds it, which changes none of
    the two columns. *)
Definition folders_upsert (c : ModelId) (id : string) (st : Store)
  : Store :=
  let row := {| gdf_connectorId := c; folderId := id |} in
  {| connectors := connectors st;
     folders := if decide (row ∈ folders st) then folders st
                else folders st ++ [row];
     files := files st;
     webhooks := webhooks st |}.

(** [removeNulls]. *)
Definition removeNulls {A} (l : list (option A)) : list A := omap id l.

(** [(await GoogleDriveFiles.findOne({ where: { connectorId, parentId }
    })) !== null]. *)
Definition has_mirrored_child (st : Store) (c : ModelId) (id : string)
  : bool :=
  bool_decide
    (Exists (λ f, file_connectorId f = c ∧ parentId f = Some id)
            (files st)).

(** [(await GoogleDriveFolders.findOne({ where: { connectorId, folderId }
    })) ? "read" : "none"]. *)
Definition folder_permission (st : Store) (c : ModelId) (id : string)
  : string :=
  if bool_decide
       (Exists (λ f, gdf_connectorId f = c ∧ folderId f = id)
               (folders st))
  then "read" else "none".

(** [x || null] on an optional string. *)
Definition str_or_null (x : option string) : option string :=
  match x with
  | Some s => if decide (s = "") then None else Some s
  | None => None
  end.

Section Retrieve.
Context `{Host} `{DriveAPI} `{PermissionsLib}.

(** The comparison functions handed to [nodes.sort]. *)
Definition by_title (a b : ConnectorNode) : Z :=
  localeCompare (title a) (title b).

Definition folders_first (a b : ConnectorNode) : Z :=
  if decide (type a ≠ type b) then
    if decide (type a = folder) then -1 else 1
  else localeCompare (title a) (title b).

(** The node of a selected folder, [None] when the remote side does
    not have it. *)
Definition selected_folder_node (st : Store) (c : ConnectorModel)
    (connectorId : ModelId) (f : GoogleDriveFolders)
    (fd : option GoogleDriveObjectType) : option ConnectorNode :=
  match fd with
  | None => None
  | Some fd =>
      Some {| provider := connector_type c;
              internalId := folderId f;
              parentInternalId := None;
              type := folder;
              title := str_or (obj_name fd) "";
              sourceUrl := None;
              dustDocumentId := None;
              lastUpdatedAt := num_or_null (updatedAtMs fd);
              expandable :=
                has_mirrored_child st connectorId (folderId f);
              permission := "read" |}
  end.

(** The node of a mirrored file or folder. *)
Definition mirrored_node (st : Store) (c : ConnectorModel)
    (connectorId : ModelId) (f : GoogleDriveFiles) : ConnectorNode :=
  {| provider := connector_type c;
     internalId := driveFileId f;
     parentInternalId := None;
     type := getPermissionViewType f;
     title := str_or (name f) "";
     dustDocumentId := Some (getGoogleDriveEntityDocumentId f);
     lastUpdatedAt := num_or_null (lastUpsertedTs f);
     sourceUrl := None;
     expandable := has_mirrored_child st connectorId (driveFileId f);
     permission := "read" |}.

(** The node of a remote drive or folder. *)
Definition remote_node (st : Store) (c : ConnectorModel)
    (connectorId : ModelId) (driveObject : GoogleDriveObjectType)
  : Completion ConnectorNode :=
  e ← folderHasChildren connectorId (obj_id driveObject);
  mret {| provider := connector_type c;
          internalId := obj_id driveObject;
          parentInternalId := obj_parent driveObject;
          type := folder;
          title := obj_name driveObject;
          sourceUrl := str_or_null (webViewLink driveObject);
          dustDocumentId := None;
          lastUpdatedAt := num_or_null (updatedAtMs driveObject);
          expandable := e;
          permission :=
            folder_permission st connectorId (obj_id driveObject) |}.

(** The [do ... while (nextPageToken)] loop over the pages of
    [drive.files.list]; [fuel] bounds the number of pages. *)
Fixpoint list_remote_folders (fuel : nat)
    (authCredentials : AuthCredentials) (parentInternalId : string)
    (nextPageToken : option string) (remoteFolders : list Schema_File)
  : Completion (list Schema_File) :=
  match fuel with
  | O => OutOfFuel
  | S fuel' =>
      res ← files_list authCredentials
              ("'" +:+ parentInternalId +:+
               "' in parents and mimeType='application/vnd.google-apps.folder'")
              nextPageToken;
      if decide (status res ≠ 200) then
        Throw (new_Error ("Error getting files. status_code: " +:+
                          pretty (status res) +:+ ". status_text: " +:+
                          statusText res))
      else
        match data_files res with
        | None => Throw (new_Error "Files list is undefined")
        | Some fs =>
            let remoteFolders := remoteFolders ++ fs in
            match str_or_null (data_nextPageToken res) with
            | Some token =>
                list_remote_folders fuel' authCredentials
                  parentInternalId (Some token) remoteFolders
            | None => mret remoteFolders
            end
        end
  end.

(** [retrieveGoogleDriveConnectorPermissions], the answer.
    [filterPermission] is the string received or [None] for [null]. The
    function only reads the tables; the line it writes to the logger is
    in [retrieveGoogleDriveConnectorPermissions_in] below. *)
Definition retrieveGoogleDriveConnectorPermissions (fuel : nat)
    (st : Store) (connectorId : ModelId)
    (parentInternalId : option string)
    (filterPermission : option string)
  : Completion (Result (list ConnectorNode)) :=
  match fetchById st connectorId with
  | None => mret (Err (new_Error "Connector not found"))
  | Some c =>
      authCredentials ← getAuthObject (connectionId c);
      match filterPermission with
      | Some p =>
          if decide (p = "read") then
            match parentInternalId with
            | None =>
                let folders :=
                  filter (λ f, gdf_connectorId f = connectorId)
                         (folders st) in
                folderAsConnectorNodes ←
                  mapM (λ f,
                    fd ← getGoogleDriveObject authCredentials
                           (folderId f);
                    mret (selected_folder_node st c connectorId f fd))
                    folders;
                let nodes := removeNulls folderAsConnectorNodes in
                mret (Ok (sort by_title nodes))
            | Some parentInternalId =>
                let folderOrFiles :=
                  filter (λ f, file_connectorId f = connectorId ∧
                               parentId f = Some parentInternalId)
                         (files st) in
                nodes ←
                  mapM (λ f, mret (mirrored_node st c connectorId f))
                    folderOrFiles;
                mret (Ok (sort folders_first nodes))
            end
          else
            mret (Err (new_Error ("Invalid permission: " +:+ p)))
      | None =>
          match parentInternalId with
          | None =>
              drives ← getDrivesIds (connector_id c);
              nodes ←
                mapM (λ d,
                  driveObject ← getGoogleDriveObject authCredentials d;
                  match driveObject with
                  | None =>
                      Throw (new_Error ("Drive " +:+ d +:+
                               " unexpectedly not found (got 404)."))
                  | Some driveObject =>
                      remote_node st c connectorId driveObject
                  end)
                  drives;
              mret (Ok (sort by_title nodes))
          | Some parentInternalId =>
              remoteFolders ←
                list_remote_folders fuel authCredentials
                  parentInternalId None [];
              nodes ←
                mapM (λ rf,
                  driveObject ←
                    driveObjectToDustType rf authCredentials;
                  remote_node st c connectorId driveObject)
                  remoteFolders;
              mret (Ok (sort by_title nodes))
          end
      end
  end.


(** [retrieveGoogleDriveObjectsTitles]: the rows of the connector whose
    [driveFileId] is one of [internalIds], folded into an object. *)
Definition retrieveGoogleDriveObjectsTitles (st : Store)
    (connectorId : ModelId) (internalIds : list string)
  : Result (gmap string string) :=
  let googleDriveFiles :=
    filter (λ f, file_connectorId f = connectorId ∧
                 driveFileId f ∈ internalIds)
           (files st) in
  let titles :=
    foldl (λ acc curr, obj_set (driveFileId curr) (name curr) acc)
          ∅ googleDriveFiles in
  Ok titles.
End Retrieve.

Section WithEngine.
Context `{WorkflowEngine}.

(** The [for (const [id, permission] of Object.entries(permissions))]
    loop, on the entries that are left; it answers the value of
    [shouldFullSync] when the loop runs to its end, and the error of
    the [return] inside it otherwise. *)
Fixpoint permissions_loop (connectorId : ModelId)
    (entries : list (string * string)) (shouldFullSync : bool)
    (w : World) : Result bool * World :=
  match entries with
  | [] => (Ok shouldFullSync, w)
  | (id, permission) :: rest =>
      if decide (permission = "none") then
        permissions_loop connectorId rest true
          (set_db (folders_destroy connectorId id) w)
      else if decide (permission = "read") then
        permissions_loop connectorId rest true
          (set_db (folders_upsert connectorId id) w)
      else
        (Err (new_Error ("Invalid permission " +:+ permission +:+
                         " for node " +:+ id)), w)
  end.

(** [setGoogleDriveConnectorPermissions]. [permissions] is the list
    [Object.entries] enumerates: the own properties of the record in
    property order. The value of a permission is the string received:
    the type [ConnectorPermission] is erased at run time. *)
Definition setGoogleDriveConnectorPermissions (connectorId : ModelId)
    (permissions : list (string * string)) (w : World)
  : Result () * World :=
  match fetchById (db w) connectorId with
  | None =>
      (Err (new_Error ("Connector not found with id " +:+
                       pretty connectorId)), w)
  | Some connector =>
      match permissions_loop connectorId permissions false w with
      | (Err e, w') => (Err e, w')
      | (Ok shouldFullSync, w') =>
          if shouldFullSync then
            let _ := launchGoogleDriveFullSyncWorkflow connectorId None in
            (Ok (), launch (FullSync connectorId None) w')
          else (Ok (), w')
      end
  end.
End WithEngine.

End GoogleDrive.

(** ** The Google Drive webhook endpoint *)

Module Webhook.

(** The request: the [x-goog-channel-id] header, the url and the
    [connector_id] parameter of the route, each absent or a string. *)
Record Request := {
  x_goog_channel_id : option string;
  originalUrl : string;
  params_connector_id : option string;
}.

Record APIError := { api_message : string; api_type : string }.

(** The response sent: the status and the error body, if any. *)
Record Response := {
  status_code : Z;
  api_error : option APIError;
}.

(** [apiError(req, res, { status_code, api_error })] answers with the
    status and the error as body. *)
Definition apiError (status : Z) (msg type : string) : Response :=
  {| status_code := status;
     api_error := Some {| api_message := msg; api_type := type |} |}.

(** [res.status(200).end()]. *)
Definition status_200_end : Response :=
  {| status_code := 200; api_error := None |}.

(** [GoogleDriveWebhook.findOne({ where: { webhookId: channelId } })]. *)
Definition findOne_webhook (st : Store) (channelId : string)
  : option GoogleDriveWebhook :=
  list_find (λ h, webhookId h = channelId) (webhooks st)
    ≫= (λ p, Some p.2).

Section Handler.
Context `{Host} `{WorkflowEngine}.

(** The [connectorId] the handler works with after its [if (webhook)
    ... else if (req.params.connector_id && ...)]: [None] stands for
    [null] and for [NaN], both falsy. *)
Definition resolve_connectorId (webhook : option GoogleDriveWebhook)
    (req : Request) : option ModelId :=
  match webhook with
  | Some webhook => Some (wh_connectorId webhook)
  | None =>
      match params_connector_id req with
      | Some p => if decide (p = "") then None else parseInt p
      | None => None
      end
  end.

(** The [webhookId] the handler works with: the one of the row found, or
    [None] for [null]. *)
Definition resolve_webhookId (webhook : option GoogleDriveWebhook)
  : option string :=
  match webhook with
  | Some webhook => Some (webhookId webhook)
  | None => None
  end.

Definition _webhookGoogleDriveAPIHandler (req : Request) (w : World)
  : Response * World :=
  let channelId := x_goog_channel_id req in
  let w :=
    log {| log_fields := [("channelId", string_or_undefined channelId);
                          ("url", LogString (originalUrl req))];
           log_message := "Processing Google Drive webhook." |} w in
  match channelId with
  | None =>
      (apiError 400 "Missing x-goog-channel-id header"
         "invalid_request_error", w)
  | Some channelId =>
      if decide (channelId = "") then
        (apiError 400 "Missing x-goog-channel-id header"
           "invalid_request_error", w)
      else
        let webhook := findOne_webhook (db w) channelId in
        let connectorId := resolve_connectorId webhook req in
        let webhookId := resolve_webhookId webhook in
        match connectorId with
        | None =>
            (apiError 400 "Could not determine connectorId from webhook"
               "invalid_request_error", w)
        | Some connectorId =>
            if decide (connectorId = 0) then
              (apiError 400
                 "Could not determine connectorId from webhook"
                 "invalid_request_error", w)
            else
              match fetchById (db w) connectorId with
              | None =>
                  (apiError 404 "Connector not found"
                     "invalid_request_error", w)
              | Some connector =>
                  if paused connector then
                    (status_200_end,
                     log {| log_fields :=
                              [("connectorId", LogNumber connectorId);
                               ("webhookId", string_or_null webhookId)];
                            log_message := "Did not signal a Gdrive webhook to the incremenal sync workflow because the connector is paused" |} w)
                  else
                    let workflowRes :=
                      launchGoogleDriveIncrementalSyncWorkflow
                        connectorId in
                    let w := launch (IncrementalSync connectorId) w in
                    match workflowRes with
                    | Err error =>
                        match error_class error with
                        | RateLimitError =>
                            (status_200_end,
                             log {| log_fields :=
                                      [("connectorId",
                                        LogNumber connectorId);
                                       ("webhookId",
                                        string_or_null webhookId)];
                                    log_message := "Did not signal a Gdrive webhook to the incremenal sync workflow because of rate limit" |} w)
                        | PlainError =>
                            (apiError 500
                               ("Failed starting the incremental sync workflow. Error: "
                                +:+ message error)
                               "internal_server_error", w)
                        end
                    | Ok _ => (status_200_end, w)
                    end
              end
        end
  end.
End Handler.

End Webhook.

(** ** Concrete collaborators

    Instances of the interfaces above, used to run the definitions on
    concrete inputs. *)

Module Fixtures.

Definition is_upper (c : ascii) : bool :=
  let n := N_of_ascii c in ((65 <=? n) && (n <=? 90))%N.

Definition to_lower (c : ascii) : ascii :=
  if is_upper c then ascii_of_N (N_of_ascii c + 32) else c.

Definition case_flag (c : ascii) : ascii :=
  if is_upper c then "1"%char else "0"%char.

Fixpoint string_map (f : ascii → ascii) (s : string) : string :=
  match s with
  | EmptyString => EmptyString
  | String c s' => String (f c) (string_map f s')
  end.

(** The sort key of a string of ASCII letters in the collation
    [localeCompare] uses by default: the letters without their case
    decide first, and the case only between strings that are otherwise
    equal, lower case first. *)
Definition collation_key (s : string) : string :=
  string_map to_lower s +:+ String "000" (string_map case_flag s).

Definition collate (a b : string) : Z :=
  if decide (collation_key a = collation_key b) then 0
  else if decide (String.le (collation_key a) (collation_key b)) then -1
  else 1.

Definition digit_value (c : ascii) : option Z :=
  let n := N_of_ascii c in
  if ((48 <=? n) && (n <=? 57))%N then Some (Z.of_N n - 48) else None.

Fixpoint leading_digits (s : string) (acc : option Z) : option Z :=
  match s with
  | EmptyString => acc
  | String c s' =>
      match digit_value c with
      | Some d => leading_digits s' (Some (10 * default 0 acc + d))
      | None => acc
      end
  end.

(** [parseInt] on a string that starts with decimal digits or with none:
    the number its leading digits spell, [NaN] when it has none. *)
Definition parse_decimal (s : string) : option Z := leading_digits s None.

Definition node_host : Host :=
  {| localeCompare := collate; parseInt := parse_decimal |}.

(** An engine that accepts every launch, and engines that reject the
    incremental sync with a plain error or with a [RateLimitError]. *)
Definition engine_ok : WorkflowEngine :=
  {| launchGoogleDriveFullSyncWorkflow := λ _ _, Ok "workflow";
     launchGoogleDriveIncrementalSyncWorkflow := λ _, Ok "workflow" |}.

Definition engine_down : WorkflowEngine :=
  {| launchGoogleDriveFullSyncWorkflow := λ _ _, Ok "workflow";
     launchGoogleDriveIncrementalSyncWorkflow :=
       λ _, Err (new_Error "temporal unreachable") |}.

Definition engine_rate_limited : WorkflowEngine :=
  {| launchGoogleDriveFullSyncWorkflow := λ _ _, Ok "workflow";
     launchGoogleDriveIncrementalSyncWorkflow :=
       λ _, Err (mkError RateLimitError "rate limited") |}.

Definition folder_mime : string := "application/vnd.google-apps.folder".

Definition permissions_lib : PermissionsLib :=
  {| getPermissionViewType :=
       λ f, if decide (mimeType f = folder_mime) then folder else file;
     getGoogleDriveEntityDocumentId := λ f, "gdrive-" +:+ driveFileId f |}.

(** Whether the object answers the query [q] of the children listing. *)
Definition child_folder_of (q : string) (o : GoogleDriveObjectType)
  : bool :=
  match obj_parent o with
  | Some p =>
      bool_decide
        (q = "'" +:+ p +:+
             "' in parents and mimeType='application/vnd.google-apps.folder'")
  | None => false
  end.

(** A remote side that holds the objects [objs], lists the children of
    a folder in one page and never fails. *)
Definition drive_with (objs : list GoogleDriveObjectType) : DriveAPI :=
  {| AuthCredentials := ();
     Schema_File := GoogleDriveObjectType;
     getAuthObject := λ _, Normal ();
     getGoogleDriveObject := λ _ id,
       Normal (list_find (λ o, obj_id o = id) objs ≫= (λ p, Some p.2));
     getDrivesIds := λ _,
       Normal (obj_id <$> filter (λ o, obj_parent o = None) objs);
     folderHasChildren := λ _ id,
       Normal (bool_decide (Exists (λ o, obj_parent o = Some id) objs));
     files_list := λ _ q _,
       Normal {| status := 200; statusText := "OK";
                 data_files :=
                   Some (filter (λ o, Is_true (child_folder_of q o)) objs);
                 data_nextPageToken := None |};
     driveObjectToDustType := λ rf _, Normal rf |}.

Definition connector1 : ConnectorModel :=
  {| connector_id := 1; connector_type := "google_drive";
     connectionId := "nango-1"; paused := false |}.

Definition connector2_paused : ConnectorModel :=
  {| connector_id := 2; connector_type := "google_drive";
     connectionId := "nango-2"; paused := true |}.

Definition mirrored (id title : string) (parent : string) (mime : string)
  : GoogleDriveFiles :=
  {| file_connectorId := 1; driveFileId := id; name := title;
     parentId := Some parent; mimeType := mime;
     lastUpsertedTs := Some 1700000000000 |}.

Definition remote_folder (id title : string) : GoogleDriveObjectType :=
  {| obj_id := id; obj_name := title; obj_parent := None;
     webViewLink := None; updatedAtMs := Some 1700000000000 |}.

(** Connector 1 with the folders F1 and F3 selected, the files [B] and
    [a] and the folder [z] mirrored under F1, and one webhook;
    connector 2 is paused. *)
Definition store1 : Store :=
  {| connectors := [connector1; connector2_paused];
     folders := [ {| gdf_connectorId := 1; folderId := "F1" |};
                  {| gdf_connectorId := 1; folderId := "F3" |} ];
     files := [ mirrored "d1" "B" "F1" "text/plain";
                mirrored "d2" "a" "F1" "text/plain";
                mirrored "d3" "z" "F1" folder_mime ];
     webhooks := [ {| webhookId := "chan-1"; wh_connectorId := 1 |};
                   {| webhookId := "chan-2"; wh_connectorId := 2 |} ] |}.

Definition world1 : World :=
  {| db := store1; workflows := []; logs := [] |}.

(** The remote side has F1 under the name Docs v2; F3 is gone. *)
Definition drive1 : DriveAPI := drive_with [remote_folder "F1" "Docs v2"].

(** The nodes the read listing of the children of F1 answers. *)
Definition children_of_F1 : list ConnectorNode :=
  Eval vm_compute in
    match @GoogleDrive.retrieveGoogleDriveConnectorPermissions node_host
            drive1 permissions_lib 1 store1 1 (Some "F1") (Some "read")
    with
    | Normal (Ok nodes) => nodes
    | _ => []
    end.

End Fixtures.

(** ** Notions used in the statements *)

Import GoogleDrive Webhook.

Definition valid_permission (e : string * string) : Prop :=
  e.2 = "read" ∨ e.2 = "none".

Definition invalid_permission (e : string * string) : Prop :=
  e.2 ≠ "read" ∧ e.2 ≠ "none".

#[global] Instance valid_permission_dec e : Decision (valid_permission e).
Proof. unfold valid_permission. apply _. Defined.

#[global] Instance invalid_permission_dec e : Decision (invalid_permission e).
Proof. unfold invalid_permission. apply _. Defined.

(** The request carries a channel id: the header is there and not
    empty. *)
Definition has_channel_id (req : Request) (channelId : string) : Prop :=
  x_goog_channel_id req = Some channelId ∧ channelId ≠ "".

(** The lines the endpoint writes: the one every request starts with,
    and the one of a notification that is acknowledged without a signal
    to the workflow, with the channel found ([None] when the connector
    id came from the route) and the message. *)
Definition processing_line (req : Request) : LogLine :=
  {| log_fields :=
       [("channelId",
         match x_goog_channel_id req with
         | Some channelId => LogString channelId
         | None => LogUndefined
         end);
        ("url", LogString (originalUrl req))];
     log_message := "Processing Google Drive webhook." |}.

Definition not_signalled_line (n : ModelId) (channel : option string)
    (msg : string) : LogLine :=
  {| log_fields :=
       [("connectorId", LogNumber n);
        ("webhookId",
         match channel with
         | Some channelId => LogString channelId
         | None => LogNull
         end)];
     log_message := msg |}.

(** The answer to a notification whose connector cannot be determined. *)
Definition unresolved_channel : Response :=
  apiError 400 "Could not determine connectorId from webhook"
    "invalid_request_error".

(** The world in which the channel [channelId] is registered for the
    connector [n]. *)
Definition with_channel (channelId : string) (n : ModelId) (w : World)
  : World :=
  set_db (λ st, {| connectors := connectors st; folders := folders st;
                   files := files st;
                   webhooks := {| webhookId := channelId;
                                  wh_connectorId := n |} :: webhooks st |})
         w.

(** A consistent comparison function in the sense of the language
    specification: the signs of [comparefn a b] and [comparefn b a] are
    opposite, and "not greater" is transitive. *)
Definition consistent_comparator {A} (comparefn : A → A → Z) : Prop :=
  (∀ a b, comparefn a b < 0 ↔ 0 < comparefn b a) ∧
  (∀ a b c, comparefn a b ≤ 0 → comparefn b c ≤ 0 → comparefn a c ≤ 0).

(** [a] is not sorted after [b]. *)
Definition not_greater {A} (comparefn : A → A → Z) (a b : A) : Prop :=
  comparefn a b ≤ 0.

(** The order C3 reads off the result: no file before a folder, and titles
    of nodes of one type in the order of [localeCompare]. *)
Definition node_order `{Host} (a b : ConnectorNode) : Prop :=
  (type a = file → type b = file) ∧
  (type a = type b → localeCompare (title a) (title b) ≤ 0).

(** The same with the titles compared code unit by code unit, the
    case-sensitive lexicographic order. *)
Definition codeunit_order (a b : ConnectorNode) : Prop :=
  (type a = file → type b = file) ∧
  (type a = type b → String.le (title a) (title b)).

(** The remote object of a selected folder, when the remote side has
    it. *)
Definition remote_object `{DriveAPI} (authCredentials : AuthCredentials)
    (id : string) : option GoogleDriveObjectType :=
  match getGoogleDriveObject authCredentials id with
  | Normal fd => fd
  | _ => None
  end.

(** The rows a listing of the selected folders, and of the children of
    a folder, starts from. *)
Definition selected_rows (st : Store) (connectorId : ModelId)
  : list GoogleDriveFolders :=
  filter (λ f, gdf_connectorId f = connectorId) (folders st).

Definition child_rows (st : Store) (connectorId : ModelId)
    (parentInternalId : string) : list GoogleDriveFiles :=
  filter (λ f, file_connectorId f = connectorId ∧
               parentId f = Some parentInternalId)
         (files st).

(** ** Configuration, teardown and update of the connector *)

Module GoogleDriveAdmin.

(** [GoogleDriveConfig] and [GoogleDriveSyncToken] rows. *)
Record GoogleDriveConfig := {
  cfg_connectorId : ModelId;
  pdfEnabled : bool;
}.

Record GoogleDriveSyncToken := {
  tok_connectorId : ModelId;
  driveId : string;
  syncToken : string;
}.

(** The tables of the listing and of the webhook, with the two tables
    above. *)
Record Database := {
  tables : Store;
  configs : list GoogleDriveConfig;
  syncTokens : list GoogleDriveSyncToken;
}.

(** The state the entry points below run in: the database, the launches
    requested from the workflow engine, the messages logged, the refresh
    tokens handed to [authClient.revokeToken] and the connections whose
    deletion was requested from Nango, each oldest first. *)
Record System := {
  data : Database;
  launched : list WorkflowCall;
  logged : list string;
  revocations : list string;
  nango_deletions : list (string * string);
}.

Definition set_data (f : Database → Database) (s : System) : System :=
  {| data := f (data s); launched := launched s; logged := logged s;
     revocations := revocations s; nango_deletions := nango_deletions s |}.

Definition sys_launch (call : WorkflowCall) (s : System) : System :=
  {| data := data s; launched := launched s ++ [call]; logged := logged s;
     revocations := revocations s; nango_deletions := nango_deletions s |}.

Definition sys_log (msg : string) (s : System) : System :=
  {| data := data s; launched := launched s; logged := logged s ++ [msg];
     revocations := revocations s; nango_deletions := nango_deletions s |}.

Definition sys_revoke (token : string) (s : System) : System :=
  {| data := data s; launched := launched s; logged := logged s;
     revocations := revocations s ++ [token];
     nango_deletions := nango_deletions s |}.

Definition sys_nango_delete (connection provider : string) (s : System)
  : System :=
  {| data := data s; launched := launched s; logged := logged s;
     revocations := revocations s;
     nango_deletions := nango_deletions s ++ [(connection, provider)] |}.


(** The OAuth side: the required settings of lib/config, which reject
    when they are not set, the credentials kept by Nango, the revocation
    at Google (its answer is the status), the deletion at Nango, and the
    e-mail address [about.get({ fields: "user" })] answers for the drive
    client of a connection ([None] when the answer has none). *)
Class OAuthAPI := {
  getRequiredGoogleDriveClientId : Completion string;
  getRequiredGoogleDriveClientSecret : Completion string;
  getRequiredNangoGoogleDriveConnectorId : Completion string;
  getGoogleCredentials_refresh_token : string → Completion string;
  revokeToken : string → Completion Z;
  nangoDeleteConnection : string → string → Completion (Result ());
  about_user_emailAddress : string → Completion (option string);
}.

(** [GoogleDriveConfig.findOne({ where: { connectorId } })]. *)
Definition findOne_config (d : Database) (connectorId : ModelId)
  : option GoogleDriveConfig :=
  list_find (λ cfg, cfg_connectorId cfg = connectorId) (configs d)
    ≫= (λ p, Some p.2).

(** [config.update({ pdfEnabled })] on the row [findOne] answered. *)
Definition update_config (connectorId : ModelId) (value : bool)
    (d : Database) : Database :=
  {| tables := tables d;
     configs :=
       match list_find (λ cfg, cfg_connectorId cfg = connectorId)
                       (configs d) with
       | Some (i, cfg) =>
           <[i := {| cfg_connectorId := cfg_connectorId cfg;
                     pdfEnabled := value |}]> (configs d)
       | None => configs d
       end;
     syncTokens := syncTokens d |}.

(** [getGoogleDriveConfig]. *)
Definition getGoogleDriveConfig (d : Database) (connectorId : ModelId)
    (configKey : string) : Result string :=
  match fetchById (tables d) connectorId with
  | None =>
      Err (new_Error ("Connector not found with id " +:+ pretty connectorId))
  | Some connector =>
      match findOne_config d connectorId with
      | None =>
          Err (new_Error ("Google Drive config not found with connectorId "
                          +:+ pretty connectorId))
      | Some config =>
          if decide (configKey = "pdfEnabled") then
            Ok (if pdfEnabled config then "true" else "false")
          else Err (new_Error ("Invalid config key " +:+ configKey))
      end
  end.

(** [setGoogleDriveConfig]. *)
Definition setGoogleDriveConfig `{WorkflowEngine} (connectorId : ModelId)
    (configKey configValue : string) (s : System) : Result () * System :=
  match fetchById (tables (data s)) connectorId with
  | None =>
      (Err (new_Error ("Connector not found with id " +:+
                       pretty connectorId)), s)
  | Some connector =>
      match findOne_config (data s) connectorId with
      | None =>
          (Err (new_Error ("Google Drive config not found with connectorId "
                           +:+ pretty connectorId)), s)
      | Some config =>
          if decide (configKey = "pdfEnabled") then
            if decide (configValue ∈ ["true"; "false"]) then
              let s := set_data (update_config connectorId
                                   (bool_decide (configValue = "true"))) s in
              let workflowRes :=
                launchGoogleDriveFullSyncWorkflow connectorId None in
              let s := sys_launch (FullSync connectorId None) s in
              match workflowRes with
              | Err e => (Err e, s)
              | Ok _ => (Ok (), s)
              end
            else
              (Err (new_Error ("Invalid config value " +:+ configValue +:+
                               ", must be true or false")), s)
          else (Err (new_Error ("Invalid config key " +:+ configKey)), s)
      end
  end.


(** How a [try] block ends: it runs to its end, it returns from the
    function, it throws, or a call in it never answers. *)
Inductive TryResult (A : Type) :=
| Passed
| Returned (r : A)
| Thrown (e : Error)
| Pending.
Arguments Passed {A}.
Arguments Returned {A} r.
Arguments Thrown {A} e.
Arguments Pending {A}.

(** The rows of the connector are destroyed in the four tables; then
    [connector.delete(transaction)].

    Modelled from the spec: [ConnectorResource.delete] is not part of the
    sources at hand; by the spec the connector is destroyed together with
    what it owns on teardown: its row is removed. *)
Definition destroy_connector (connectorId : ModelId) (d : Database)
  : Database :=
  {| tables :=
       {| connectors :=
            filter (λ c, connector_id c ≠ connectorId)
                   (connectors (tables d));
          folders :=
            filter (λ f, gdf_connectorId f ≠ connectorId)
                   (folders (tables d));
          files :=
            filter (λ f, file_connectorId f ≠ connectorId)
                   (files (tables d));
          webhooks :=
            filter (λ h, wh_connectorId h ≠ connectorId)
                   (webhooks (tables d)) |};
     configs := configs d;
     syncTokens :=
       filter (λ t, tok_connectorId t ≠ connectorId) (syncTokens d) |}.

Section Teardown.
Context `{OAuthAPI}.

(** The [try { ... } catch] of [cleanupGoogleDriveConnector], up to the
    [catch]. *)
Definition revoke_attempt (connector : ConnectorModel) (force : bool)
    (s : System) : TryResult (Result ()) * System :=
  match getGoogleCredentials_refresh_token (connectionId connector) with
  | Normal refresh_token =>
      let s := sys_revoke refresh_token s in
      match revokeToken refresh_token with
      | Normal revokeTokenRes_status =>
          if decide (revokeTokenRes_status ≠ 200) then
            let s := sys_log "Could not revoke token" s in
            if negb force then
              (Returned (Err (new_Error "Could not revoke token")), s)
            else (Passed, s)
          else (Passed, s)
      | Throw e => (Thrown e, s)
      | OutOfFuel => (Pending, s)
      end
  | Throw e => (Thrown e, s)
  | OutOfFuel => (Pending, s)
  end.

(** What follows the [try] in the transaction: the deletion at Nango and
    the destruction of the rows. *)
Definition delete_and_destroy (connectorId : ModelId)
    (connector : ConnectorModel) (force : bool) (s : System)
  : Completion (Result ()) * System :=
  match getRequiredNangoGoogleDriveConnectorId with
  | Normal provider =>
      let s := sys_nango_delete (connectionId connector) provider s in
      match nangoDeleteConnection (connectionId connector) provider with
      | Normal nangoRes =>
          let destroy s :=
            (Normal (Ok ()), set_data (destroy_connector connectorId) s) in
          match nangoRes with
          | Err e =>
              if negb force then (Normal (Err e), s)
              else destroy (sys_log "Error deleting connection from Nango" s)
          | Ok _ => destroy s
          end
      | Throw e => (Throw e, s)
      | OutOfFuel => (OutOfFuel, s)
      end
  | Throw e => (Throw e, s)
  | OutOfFuel => (OutOfFuel, s)
  end.

(** [cleanupGoogleDriveConnector]. No row is written before the last
    call that can reject, so a transaction that is rolled back has
    nothing to undo. *)
Definition cleanupGoogleDriveConnector (connectorId : ModelId)
    (force : bool) (s : System) : Completion (Result ()) * System :=
  match fetchById (tables (data s)) connectorId with
  | None =>
      (Normal (Err (new_Error ("Could not find connector with id " +:+
                               pretty connectorId))), s)
  | Some connector =>
      match getRequiredGoogleDriveClientId with
      | Normal clientId =>
          match getRequiredGoogleDriveClientSecret with
          | Normal clientSecret =>
              match revoke_attempt connector force s with
              | (Passed, s) =>
                  delete_and_destroy connectorId connector force s
              | (Returned r, s) => (Normal r, s)
              | (Thrown err, s) =>
                  if negb force then (Throw err, s)
                  else
                    delete_and_destroy connectorId connector force
                      (sys_log "Error revoking token" s)
              | (Pending, s) => (OutOfFuel, s)
              end
          | Throw e => (Throw e, s)
          | OutOfFuel => (OutOfFuel, s)
          end
      | Throw e => (Throw e, s)
      | OutOfFuel => (OutOfFuel, s)
      end
  end.
End Teardown.

(** [ConnectorsAPIError] and the [Result] that carries it. *)
Record ConnectorsAPIError := {
  error_message : string;
  error_type : string;
}.

Inductive APIResult (T : Type) :=
| APIOk (value : T)
| APIErr (error : ConnectorsAPIError).
Arguments APIOk {T} value.
Arguments APIErr {T} error.

(** [s.split("@")]. *)
Fixpoint split_at (s : string) : list string :=
  match s with
  | EmptyString => [EmptyString]
  | String c s' =>
      if decide (c = "@"%char) then EmptyString :: split_at s'
      else
        match split_at s' with
        | piece :: pieces => String c piece :: pieces
        | [] => [String c EmptyString]
        end
  end.

(** [(emailAddress || "").split("@")[1]]. *)
Definition user_domain (emailAddress : option string) : option string :=
  split_at (default "" emailAddress) !! 1%nat.

(** [connector.update({ connectionId })]. *)
Definition update_connectionId (connectorId : ModelId) (connection : string)
    (d : Database) : Database :=
  {| tables :=
       {| connectors :=
            (λ c, if decide (connector_id c = connectorId) then
                    {| connector_id := connector_id c;
                       connector_type := connector_type c;
                       connectionId := connection;
                       paused := paused c |}
                  else c) <$> connectors (tables d);
          folders := folders (tables d);
          files := files (tables d);
          webhooks := webhooks (tables d) |};
     configs := configs d;
     syncTokens := syncTokens d |}.

Section Update.
Context `{OAuthAPI}.

(** The [try { ... } catch] of [updateGoogleDriveConnector], up to the
    [catch]: the domains of the user of the old and of the new
    connection are compared. *)
Definition domain_check (connector : ConnectorModel) (connection : string)
  : TryResult (APIResult string) :=
  match about_user_emailAddress (connectionId connector) with
  | Normal currentUserEmail =>
      match about_user_emailAddress connection with
      | Normal newDriveUserEmail =>
          match user_domain currentUserEmail,
                user_domain newDriveUserEmail with
          | Some currentDriveUserDomain, Some newDriveUserDomain =>
              if decide (currentDriveUserDomain = "" ∨
                         newDriveUserDomain = "") then
                Returned (APIErr
                  {| error_type := "connector_update_error";
                     error_message :=
                       "Error retrieving google drive info to update connector" |})
              else if decide (currentDriveUserDomain ≠ newDriveUserDomain)
              then
                Returned (APIErr
                  {| error_type := "connector_oauth_target_mismatch";
                     error_message :=
                       "Cannot change domain of a Google Drive connector" |})
              else Passed
          | _, _ =>
              Returned (APIErr
                {| error_type := "connector_update_error";
                   error_message :=
                     "Error retrieving google drive info to update connector" |})
          end
      | Throw e => Thrown e
      | OutOfFuel => Pending
      end
  | Throw e => Thrown e
  | OutOfFuel => Pending
  end.

(** The update of the row and the deletion of the old connection at
    Nango, which is not awaited: when it rejects, the rejection is
    logged. *)
Definition switch_connection (connectorId : ModelId)
    (connector : ConnectorModel) (connection : string) (s : System)
  : Completion (APIResult string) * System :=
  let oldConnectionId := connectionId connector in
  let s := set_data (update_connectionId connectorId connection) s in
  match getRequiredNangoGoogleDriveConnectorId with
  | Normal provider =>
      let s := sys_nango_delete oldConnectionId provider s in
      let s :=
        match nangoDeleteConnection oldConnectionId provider with
        | Throw e => sys_log "Error deleting old Nango connection" s
        | _ => s
        end in
      (Normal (APIOk (pretty (connector_id connector))), s)
  | Throw e => (Throw e, s)
  | OutOfFuel => (OutOfFuel, s)
  end.

(** [updateGoogleDriveConnector]. [connection] is the [connectionId] of
    the second argument, [None] when it is absent or [null]. *)
Definition updateGoogleDriveConnector (connectorId : ModelId)
    (connection : option string) (s : System)
  : Completion (APIResult string) * System :=
  match fetchById (tables (data s)) connectorId with
  | None =>
      (Normal (APIErr {| error_message := "Connector not found";
                         error_type := "connector_not_found" |}),
       sys_log "Connector not found" s)
  | Some connector =>
      match connection with
      | Some connection =>
          if decide (connection = "") then
            (Normal (APIOk (pretty (connector_id connector))), s)
          else
            match domain_check connector connection with
            | Passed => switch_connection connectorId connector connection s
            | Returned r => (Normal r, s)
            | Thrown e =>
                switch_connection connectorId connector connection
                  (sys_log "Error checking Google domain of user who is updating the connector - lets update the connector regardless" s)
            | Pending => (OutOfFuel, s)
            end
      | None => (Normal (APIOk (pretty (connector_id connector))), s)
      end
  end.
End Update.

End GoogleDriveAdmin.

(** ** Substrings that do not cut a character (string_utils) *)

Module StringUtils.

(** A JavaScript string is the list of its UTF-16 code units. *)
Definition JSString := list Z.

(** [str.charCodeAt(i)] for an integer [i]; [None] is [NaN], the answer
    outside the string. *)
Definition charCodeAt (str : JSString) (i : Z) : option Z :=
  if decide (0 ≤ i) then str !! Z.to_nat i else None.

(** The comparisons of the two predicates are false on [NaN]. *)
Definition isLeadingLoneSurrogate (code : option Z) : bool :=
  match code with
  | Some code => bool_decide (0xd800 ≤ code) && bool_decide (code ≤ 0xdbff)
  | None => false
  end.

Definition isTrailingLoneSurrogate (code : option Z) : bool :=
  match code with
  | Some code => bool_decide (0xdc00 ≤ code) && bool_decide (code ≤ 0xdfff)
  | None => false
  end.

(** [str.substring(start, end)] for integers: both ends are clamped to
    the string and swapped when they come in the wrong order; without
    [end] the substring runs to the end of the string. *)
Definition substring (str : JSString) (start : Z) (end_ : option Z)
  : JSString :=
  let len := Z.of_nat (length str) in
  let clamp x := Z.max 0 (Z.min x len) in
  let a := clamp start in
  let b := match end_ with Some e => clamp e | None => len end in
  take (Z.to_nat (Z.max a b - Z.min a b)) (drop (Z.to_nat (Z.min a b)) str).

(** [while (isTrailingLoneSurrogate(str.charCodeAt(start))) start++], at
    most [fuel] times round the loop. *)
Fixpoint skip_trailing (fuel : nat) (str : JSString) (start : Z) : Z :=
  match fuel with
  | O => start
  | S fuel' =>
      if isTrailingLoneSurrogate (charCodeAt str start)
      then skip_trailing fuel' str (start + 1)
      else start
  end.

(** [while (isLeadingLoneSurrogate(str.charCodeAt(end - 1))) end--], at
    most [fuel] times round the loop. *)
Fixpoint drop_leading (fuel : nat) (str : JSString) (end_ : Z) : Z :=
  match fuel with
  | O => end_
  | S fuel' =>
      if isLeadingLoneSurrogate (charCodeAt str (end_ - 1))
      then drop_leading fuel' str (end_ - 1)
      else end_
  end.

(** [safeSubstring]. Each loop moves its index through the string and
    stops outside of it: the length of the string is fuel enough. *)
Definition safeSubstring (str : JSString) (start : Z) (end_ : option Z)
  : JSString :=
  let start := skip_trailing (length str) str start in
  match end_ with
  | None => substring str start None
  | Some end_ =>
      let end_ := drop_leading (length str) str end_ in
      substring str start (Some end_)
  end.

(** A string without lone surrogates: every leading surrogate is followed
    by a trailing one, and there is no other trailing surrogate. *)
Fixpoint well_formed (str : JSString) : bool :=
  match str with
  | [] => true
  | c :: rest =>
      if isLeadingLoneSurrogate (Some c) then
        match rest with
        | d :: rest' => isTrailingLoneSurrogate (Some d) && well_formed rest'
        | [] => false
        end
      else if isTrailingLoneSurrogate (Some c) then false
      else well_formed rest
  end.

End StringUtils.

(** ** Roles in a workspace *)

Module Workspace.

(** [ROLES]. *)
Inductive RoleType := admin | builder | user | none.

#[export] Instance RoleType_eq_dec : EqDecision RoleType.
Proof. solve_decision. Defined.

(** [WorkspaceType], with the fields the role checks can see. *)
Record WorkspaceType := {
  ws_id : Z;
  sId : string;
  name : string;
  role : RoleType
}.

(** [isAdmin]; [None] is the owner [null]. The [default] branch of the
    source's [switch] is not reached by a value of [RoleType]. *)
Definition isAdmin (owner : option WorkspaceType) : bool :=
  match owner with
  | None => false
  | Some owner =>
      match role owner with
      | admin => true
      | builder | user | none => false
      end
  end.

(** [isBuilder]. *)
Definition isBuilder (owner : option WorkspaceType) : bool :=
  match owner with
  | None => false
  | Some owner =>
      match role owner with
      | admin | builder => true
      | user | none => false
      end
  end.

(** [isUser]. *)
Definition isUser (owner : option WorkspaceType) : bool :=
  match owner with
  | None => false
  | Some owner =>
      match role owner with
      | admin | builder | user => true
      | none => false
      end
  end.

(** [isOnlyUser]. *)
Definition isOnlyUser (owner : option WorkspaceType) : bool :=
  match owner with
  | None => false
  | Some owner => bool_decide (role owner = user)
  end.

(** [isOnlyBuilder]. *)
Definition isOnlyBuilder (owner : option WorkspaceType) : bool :=
  match owner with
  | None => false
  | Some owner => bool_decide (role owner = builder)
  end.

(** [isOnlyAdmin]. *)
Definition isOnlyAdmin (owner : option WorkspaceType) : bool :=
  match owner with
  | None => false
  | Some owner => bool_decide (role owner = admin)
  end.

End Workspace.

(** ** Further notions *)

(** The connector with another connection id. *)
Definition with_connection (connection : string) (c : ConnectorModel)
  : ConnectorModel :=
  {| connector_id := connector_id c; connector_type := connector_type c;
     connectionId := connection; paused := paused c |}.

(** The row of the folder [id] selected for the connector [c]. *)
Definition folder_row (c : ModelId) (id : string) : GoogleDriveFolders :=
  {| gdf_connectorId := c; folderId := id |}.

(** The query of the children listing of [parentInternalId]. *)
Definition children_query (parentInternalId : string) : string :=
  "'" +:+ parentInternalId +:+
  "' in parents and mimeType='application/vnd.google-apps.folder'".

(** [reads_pages authCredentials q token pages last]: asked from the page
    [token] on, the remote side answers the pages [pages], each with
    status 200, a list of files and the token of the next page, and then
    the response [last]. *)
Inductive reads_pages `{DriveAPI} (authCredentials : AuthCredentials)
    (q : string)
  : option string → list (list Schema_File) →
    FileListResponse Schema_File → Prop :=
| reads_last token last :
    files_list authCredentials q token = Normal last →
    reads_pages authCredentials q token [] last
| reads_next token res fs next pages last :
    files_list authCredentials q token = Normal res →
    status res = 200 →
    data_files res = Some fs →
    str_or_null (data_nextPageToken res) = Some next →
    reads_pages authCredentials q (Some next) pages last →
    reads_pages authCredentials q token (fs :: pages) last.

Module MoreFixtures.

(** The world after connector 1 revoked F3 and granted F1, and the read
    listing at the root that follows. *)
Definition world_after_batch : World :=
  (@setGoogleDriveConnectorPermissions Fixtures.engine_ok 1
     [("F3", "none"); ("F1", "read")] Fixtures.world1).2.

Definition selected_after_batch : list ConnectorNode :=
  Eval vm_compute in
    match @retrieveGoogleDriveConnectorPermissions Fixtures.node_host
            Fixtures.drive1 Fixtures.permissions_lib 1 (db world_after_batch)
            1 None (Some "read")
    with
    | Normal (Ok nodes) => nodes
    | _ => []
    end.

(** The listing of the remote drives of connector 1. *)
Definition drives_of_1 : list ConnectorNode :=
  Eval vm_compute in
    match @retrieveGoogleDriveConnectorPermissions Fixtures.node_host
            Fixtures.drive1 Fixtures.permissions_lib 1 Fixtures.store1
            1 None None
    with
    | Normal (Ok nodes) => nodes
    | _ => []
    end.

(** A remote side whose drive D2 has been deleted: the list of drives
    still names it. *)
Definition drive_with_ghost : DriveAPI :=
  {| AuthCredentials := ();
     Schema_File := GoogleDriveObjectType;
     getAuthObject := λ _, Normal ();
     getGoogleDriveObject := λ _ id,
       Normal (if decide (id = "D1")
               then Some (Fixtures.remote_folder "D1" "Shared")
               else None);
     getDrivesIds := λ _, Normal ["D1"; "D2"];
     folderHasChildren := λ _ _, Normal false;
     files_list := λ _ _ _,
       Normal {| status := 200; statusText := "OK";
                 data_files := Some []; data_nextPageToken := None |};
     driveObjectToDustType := λ rf _, Normal rf |}.

(** A remote side that answers the children of any folder in two pages
    and fails on the third request. *)
Definition drive_two_pages : DriveAPI :=
  {| AuthCredentials := ();
     Schema_File := GoogleDriveObjectType;
     getAuthObject := λ _, Normal ();
     getGoogleDriveObject := λ _ _, Normal None;
     getDrivesIds := λ _, Normal [];
     folderHasChildren := λ _ _, Normal false;
     files_list := λ _ _ token,
       match token with
       | None =>
           Normal {| status := 200; statusText := "OK";
                     data_files := Some [Fixtures.remote_folder "A" "a"];
                     data_nextPageToken := Some "p2" |}
       | Some t =>
           if decide (t = "p2") then
             Normal {| status := 200; statusText := "OK";
                       data_files := Some [Fixtures.remote_folder "B" "b"];
                       data_nextPageToken := Some "" |}
           else
             Normal {| status := 500; statusText := "Internal";
                       data_files := None; data_nextPageToken := None |}
       end;
     driveObjectToDustType := λ rf _, Normal rf |}.

(** An OAuth side where every call succeeds; the user of the connection
    nango-other is in another domain than the users of the others. *)
Definition oauth_ok : GoogleDriveAdmin.OAuthAPI :=
  {| GoogleDriveAdmin.getRequiredGoogleDriveClientId := Normal "client-id";
     GoogleDriveAdmin.getRequiredGoogleDriveClientSecret := Normal "secret";
     GoogleDriveAdmin.getRequiredNangoGoogleDriveConnectorId :=
       Normal "google-drive";
     GoogleDriveAdmin.getGoogleCredentials_refresh_token :=
       λ connection, Normal ("refresh-" +:+ connection);
     GoogleDriveAdmin.revokeToken := λ _, Normal 200;
     GoogleDriveAdmin.nangoDeleteConnection := λ _ _, Normal (Ok ());
     GoogleDriveAdmin.about_user_emailAddress :=
       λ connection,
         Normal (Some (if decide (connection = "nango-other")
                       then "eve@other.org" else "ann@corp.com")) |}.

(** An OAuth side where Google refuses the revocation, Nango refuses the
    deletion and the drive client rejects. *)
Definition oauth_failing : GoogleDriveAdmin.OAuthAPI :=
  {| GoogleDriveAdmin.getRequiredGoogleDriveClientId := Normal "client-id";
     GoogleDriveAdmin.getRequiredGoogleDriveClientSecret := Normal "secret";
     GoogleDriveAdmin.getRequiredNangoGoogleDriveConnectorId :=
       Normal "google-drive";
     GoogleDriveAdmin.getGoogleCredentials_refresh_token :=
       λ connection, Normal ("refresh-" +:+ connection);
     GoogleDriveAdmin.revokeToken := λ _, Normal 400;
     GoogleDriveAdmin.nangoDeleteConnection :=
       λ _ _, Normal (Err (new_Error "nango: not found"));
     GoogleDriveAdmin.about_user_emailAddress :=
       λ _, Throw (new_Error "invalid_grant") |}.


(** The store of the fixtures with a configuration and a sync token for
    each of the two connectors. *)
Definition system1 : GoogleDriveAdmin.System :=
  {| GoogleDriveAdmin.data :=
       {| GoogleDriveAdmin.tables := Fixtures.store1;
          GoogleDriveAdmin.configs :=
            [ {| GoogleDriveAdmin.cfg_connectorId := 1;
                 GoogleDriveAdmin.pdfEnabled := false |};
              {| GoogleDriveAdmin.cfg_connectorId := 2;
                 GoogleDriveAdmin.pdfEnabled := true |} ];
          GoogleDriveAdmin.syncTokens :=
            [ {| GoogleDriveAdmin.tok_connectorId := 1;
                 GoogleDriveAdmin.driveId := "D1";
                 GoogleDriveAdmin.syncToken := "t1" |};
              {| GoogleDriveAdmin.tok_connectorId := 2;
                 GoogleDriveAdmin.driveId := "D9";
                 GoogleDriveAdmin.syncToken := "t9" |} ] |};
     GoogleDriveAdmin.launched := [];
     GoogleDriveAdmin.logged := [];
     GoogleDriveAdmin.revocations := [];
     GoogleDriveAdmin.nango_deletions := [] |}.

End MoreFixtures.

(** ** Permission changes *)

Lemma filter_none {A} (P : A → Prop) `{∀ x, Decision (P x)} (l : list A) :
  Forall (λ x, ¬ P x) l → filter P l = [].
Proof.
  induction 1 as [|x l Hx Hl IH]; [done|].
  by rewrite filter_cons_False.
Qed.

Lemma folders_destroy_absent c id st :
  Forall (λ f, ¬ (gdf_connectorId f = c ∧ folderId f = id)) (folders st) →
  folders (folders_destroy c id st) = folders st.
Proof.
  intros Hall. simpl. induction Hall as [|f l Hf Hl IH]; [done|].
  rewrite filter_cons_True by done. by rewrite IH.
Qed.

Lemma folders_upsert_twice c id st :
  folders_upsert c id (folders_upsert c id st) = folders_upsert c id st.
Proof.
  unfold folders_upsert. simpl.
  destruct (decide (_ ∈ folders st)) as [Hin|Hout]; simpl.
  - by rewrite decide_True.
  - rewrite decide_True; [done|]. set_solver.
Qed.

Section PermissionsLoop.
Context `{WorkflowEngine}.

(** The loop touches neither the launches nor the logs nor the
    connectors. *)
Lemma permissions_loop_frame c es b w :
  workflows (permissions_loop c es b w).2 = workflows w ∧
  logs (permissions_loop c es b w).2 = logs w ∧
  connectors (db (permissions_loop c es b w).2) = connectors (db w).
Proof.
  revert b w. induction es as [|[id p] es IH]; intros b w; simpl; [done|].
  repeat case_decide; simpl; [| |done];
    destruct (IH true (set_db (folders_destroy c id) w)) as (?&?&?);
    destruct (IH true (set_db (folders_upsert c id) w)) as (?&?&?);
    simpl in *; done.
Qed.

(** On valid entries the loop runs to its end. *)
Lemma permissions_loop_valid c es b w :
  Forall valid_permission es →
  (permissions_loop c es b w).1 =
    Ok (match es with [] => b | _ => true end).
Proof.
  intros Hall. revert b w.
  induction Hall as [|[id p] es [Hp|Hp] Hes IH]; intros b w;
    simpl in *; subst; [done| |].
  - rewrite decide_False by done. rewrite decide_True by done.
    rewrite IH. by destruct es.
  - rewrite decide_True by done. rewrite IH. by destruct es.
Qed.

(** A valid prefix is applied, then the loop goes on with the rest. *)
Lemma permissions_loop_app c pre rest b w :
  Forall valid_permission pre →
  permissions_loop c (pre ++ rest) b w =
    permissions_loop c rest (match pre with [] => b | _ => true end)
      (permissions_loop c pre b w).2.
Proof.
  intros Hall. revert b w.
  induction Hall as [|[id p] es [Hp|Hp] Hes IH]; intros b w;
    simpl in *; subst; [done| |].
  - rewrite decide_False by done. rewrite decide_True by done.
    rewrite IH. by destruct es.
  - rewrite decide_True by done. rewrite IH. by destruct es.
Qed.

Lemma permissions_loop_invalid c id p post b w :
  p ≠ "read" → p ≠ "none" →
  permissions_loop c ((id, p) :: post) b w =
    (Err (new_Error ("Invalid permission " +:+ p +:+ " for node " +:+ id)),
     w).
Proof. intros ??. simpl. by rewrite !decide_False. Qed.

(** The store a successful call leaves is the one the loop leaves. *)
Lemma set_permissions_db c es w :
  is_Some (fetchById (db w) c) →
  db (setGoogleDriveConnectorPermissions c es w).2 =
    db (permissions_loop c es false w).2.
Proof.
  intros [conn Hc]. unfold setGoogleDriveConnectorPermissions.
  rewrite Hc. destruct (permissions_loop c es false w) as [[[]|e] w'];
    done.
Qed.
End PermissionsLoop.

(** A batch with an invalid entry splits at its first invalid entry. *)
Lemma first_invalid (es : list (string * string)) :
  Exists invalid_permission es →
  ∃ pre e post, es = pre ++ e :: post ∧
    Forall valid_permission pre ∧ invalid_permission e.
Proof.
  induction es as [|e es IH]; intros Hex; [by apply Exists_nil in Hex|].
  destruct (decide (invalid_permission e)) as [Hinv|Hval].
  - exists [], e, es. split_and!; [done|constructor|done].
  - apply Exists_cons in Hex as [?|Hex]; [done|].
    destruct (IH Hex) as (pre & e' & post & -> & Hpre & He').
    exists (e :: pre), e', post. split_and!; [done| |done].
    constructor; [|done]. unfold invalid_permission, valid_permission in *.
    destruct (decide (e.2 = "read")), (decide (e.2 = "none")); tauto.
Qed.

(** C1, as stated, fails: a batch whose second entry is invalid is
    answered with the error after its first entry has been applied. The
    folder A is selected although the call failed. *)
Lemma set_permissions_invalid_not_atomic :
  ¬ (∀ (E : WorkflowEngine) (w : World) (c : ModelId)
       (permissions : list (string * string)),
       is_Some (fetchById (db w) c) →
       Exists invalid_permission permissions →
       ∃ e, (setGoogleDriveConnectorPermissions c permissions w).1 = Err e ∧
            folders (db (setGoogleDriveConnectorPermissions c permissions w).2)
              = folders (db w)).
Proof.
  intros Hclaim.
  destruct (Hclaim Fixtures.engine_ok Fixtures.world1 1
              [("A", "read"); ("B", "write")]) as (e & _ & Hfolders).
  - by eexists.
  - apply Exists_cons; right. apply Exists_cons; left. by split.
  - vm_compute in Hfolders. discriminate Hfolders.
Qed.

(** C1, amended: a batch with an invalid entry fails with the error that
    names its first invalid entry; the entries before that one have been
    applied as in a batch of their own, no later entry is applied and no
    full sync is launched. *)
Theorem set_permissions_stops_at_first_invalid `{WorkflowEngine}
    (w : World) (c : ModelId) (permissions : list (string * string)) :
  is_Some (fetchById (db w) c) →
  Exists invalid_permission permissions →
  ∃ pre id p post,
    permissions = pre ++ (id, p) :: post ∧
    Forall valid_permission pre ∧ invalid_permission (id, p) ∧
    let r := setGoogleDriveConnectorPermissions c permissions w in
    r.1 = Err (new_Error ("Invalid permission " +:+ p +:+
                          " for node " +:+ id)) ∧
    db r.2 = db (setGoogleDriveConnectorPermissions c pre w).2 ∧
    workflows r.2 = workflows w ∧
    logs r.2 = logs w.
Proof.
  intros Hc Hex.
  destruct (first_invalid permissions Hex)
    as (pre & [id p] & post & -> & Hpre & [Hr Hn]).
  exists pre, id, p, post. split_and!; [done..|]. simpl in Hr, Hn.
  rewrite (set_permissions_db c pre w Hc).
  destruct Hc as [conn Hc]. unfold setGoogleDriveConnectorPermissions.
  rewrite Hc, (permissions_loop_app c pre _ false w Hpre).
  rewrite permissions_loop_invalid by done. simpl.
  destruct (permissions_loop_frame c pre false w) as (? & ? & _). done.
Qed.

Lemma set_permissions_stops_at_first_invalid_witness :
  ∃ pre id p post,
    [("A", "read"); ("B", "write")] = pre ++ (id, p) :: post ∧
    Forall valid_permission pre ∧ invalid_permission (id, p) ∧
    let r := @setGoogleDriveConnectorPermissions Fixtures.engine_ok 1
               [("A", "read"); ("B", "write")] Fixtures.world1 in
    r.1 = Err (new_Error ("Invalid permission " +:+ p +:+
                          " for node " +:+ id)) ∧
    db r.2 = db (@setGoogleDriveConnectorPermissions Fixtures.engine_ok 1
                   pre Fixtures.world1).2 ∧
    workflows r.2 = workflows Fixtures.world1 ∧
    logs r.2 = logs Fixtures.world1.
Proof.
  apply (@set_permissions_stops_at_first_invalid Fixtures.engine_ok
           Fixtures.world1 1 [("A", "read"); ("B", "write")]).
  - eexists. vm_compute. reflexivity.
  - apply Exists_cons; right. apply Exists_cons; left.
    split; simpl; discriminate.
Defined.

(** C2, as stated, fails: revoking a folder that is not selected deletes
    no row and still launches the full sync. *)
Lemma revoke_absent_launches_full_sync :
  ¬ (∀ (E : WorkflowEngine) (w : World) (c : ModelId) (id : string),
       is_Some (fetchById (db w) c) →
       Forall (λ f, ¬ (gdf_connectorId f = c ∧ folderId f = id))
              (folders (db w)) →
       let r := setGoogleDriveConnectorPermissions c [(id, "none")] w in
       r.1 = Ok () ∧ folders (db r.2) = folders (db w) ∧
       workflows r.2 = workflows w).
Proof.
  intros Hclaim.
  destruct (Hclaim Fixtures.engine_ok Fixtures.world1 1 "F2")
    as (_ & _ & Hflows).
  - by eexists.
  - repeat constructor; simpl; intros [_ ?]; discriminate.
  - vm_compute in Hflows. discriminate Hflows.
Qed.

(** C2, amended: a batch of valid entries succeeds, and launches the full
    sync exactly when the batch has an entry, whether or not a row was
    created or deleted; revoking a folder that is not selected deletes no
    row, reports no error and launches the full sync. *)
Theorem set_permissions_full_sync_iff_nonempty `{WorkflowEngine}
    (w : World) (c : ModelId) (permissions : list (string * string))
    (id : string) :
  is_Some (fetchById (db w) c) →
  Forall valid_permission permissions →
  Forall (λ f, ¬ (gdf_connectorId f = c ∧ folderId f = id))
         (folders (db w)) →
  (let r := setGoogleDriveConnectorPermissions c permissions w in
   r.1 = Ok () ∧
   workflows r.2 =
     workflows w ++ match permissions with
                    | [] => []
                    | _ => [FullSync c None]
                    end) ∧
  (let r := setGoogleDriveConnectorPermissions c [(id, "none")] w in
   r.1 = Ok () ∧ folders (db r.2) = folders (db w) ∧
   workflows r.2 = workflows w ++ [FullSync c None]).
Proof.
  intros [conn Hc] Hvalid Habsent. split.
  - unfold setGoogleDriveConnectorPermissions. rewrite Hc.
    pose proof (permissions_loop_valid c permissions false w Hvalid) as H1.
    destruct (permissions_loop_frame c permissions false w) as (H2 & _ & _).
    destruct (permissions_loop c permissions false w) as [[b|e] w'];
      simpl in *; [|done].
    injection H1 as ->. destruct permissions; simpl.
    + by rewrite app_nil_r.
    + by rewrite H2.
  - unfold setGoogleDriveConnectorPermissions. rewrite Hc. simpl.
    split_and!; [done| |done].
    by apply (folders_destroy_absent c id (db w)).
Qed.

Lemma set_permissions_full_sync_iff_nonempty_witness :
  (let r := @setGoogleDriveConnectorPermissions Fixtures.engine_ok 1
              [("F1", "read")] Fixtures.world1 in
   r.1 = Ok () ∧
   workflows r.2 = workflows Fixtures.world1 ++ [FullSync 1 None]) ∧
  (let r := @setGoogleDriveConnectorPermissions Fixtures.engine_ok 1
              [("F2", "none")] Fixtures.world1 in
   r.1 = Ok () ∧ folders (db r.2) = folders (db Fixtures.world1) ∧
   workflows r.2 = workflows Fixtures.world1 ++ [FullSync 1 None]).
Proof.
  apply (@set_permissions_full_sync_iff_nonempty Fixtures.engine_ok
           Fixtures.world1 1 [("F1", "read")] "F2").
  - eexists. vm_compute. reflexivity.
  - repeat constructor.
  - repeat constructor; simpl; intros [_ ?]; discriminate.
Defined.

(** C5: granting read on a folder twice leaves the folders that granting
    it once leaves; the two calls add at most one row, and the row of the
    folder is there when the connector exists. *)
Theorem read_grant_idempotent `{WorkflowEngine} (w : World) (c : ModelId)
    (A : string) :
  let once := (setGoogleDriveConnectorPermissions c [(A, "read")] w).2 in
  let twice :=
    (setGoogleDriveConnectorPermissions c [(A, "read")] once).2 in
  folders (db twice) = folders (db once) ∧
  (length (folders (db twice)) ≤ S (length (folders (db w))))%nat ∧
  (is_Some (fetchById (db w) c) →
   {| gdf_connectorId := c; folderId := A |} ∈ folders (db twice) ∧
   length (filter (λ f, f = {| gdf_connectorId := c; folderId := A |})
                  (folders (db twice))) =
   Nat.max 1 (length (filter
                (λ f, f = {| gdf_connectorId := c; folderId := A |})
                (folders (db w))))).
Proof.
  unfold setGoogleDriveConnectorPermissions. simpl.
  destruct (fetchById (db w) c) as [conn|] eqn:Hc; simpl.
  - change (fetchById (folders_upsert c A (db w)) c)
      with (fetchById (db w) c).
    rewrite Hc. simpl.
    set (row := {| gdf_connectorId := c; folderId := A |}).
    destruct (decide (row ∈ folders (db w))) as [Hin|Hout]; simpl.
    + rewrite decide_True by done. split_and!; [done|lia|].
      intros _. split; [done|].
      apply list_elem_of_split in Hin as (l1 & l2 & ->).
      rewrite filter_app, filter_cons_True, !length_app by done.
      simpl. lia.
    + rewrite decide_True by set_solver.
      split_and!; [done|rewrite length_app; simpl; lia|].
      intros _. split; [set_solver|].
      rewrite filter_app, length_app, filter_cons_True by done. simpl.
      replace (filter (λ f, f = row) (folders (db w))) with
        (@nil GoogleDriveFolders); [done|].
      symmetry. apply filter_none, Forall_forall.
      intros f Hf ->. done.
  - rewrite Hc. split_and!; [done|simpl; lia|]. by intros [? ?].
Qed.

(** ** Webhook notifications *)

Section HandlerFacts.
Context `{Host} `{WorkflowEngine}.

(** What the handler does once the connector id is known. *)
Lemma handler_resolved req w channelId n :
  has_channel_id req channelId →
  resolve_connectorId (findOne_webhook (db w) channelId) req = Some n →
  n ≠ 0 →
  _webhookGoogleDriveAPIHandler req w =
    let channel := webhookId <$> findOne_webhook (db w) channelId in
    let w := log (processing_line req) w in
    match fetchById (db w) n with
    | None =>
        (apiError 404 "Connector not found" "invalid_request_error", w)
    | Some connector =>
        if paused connector then
          (status_200_end,
           log (not_signalled_line n channel
                  "Did not signal a Gdrive webhook to the incremenal sync workflow because the connector is paused") w)
        else
          let w := launch (IncrementalSync n) w in
          match launchGoogleDriveIncrementalSyncWorkflow n with
          | Err error =>
              match error_class error with
              | RateLimitError =>
                  (status_200_end,
                   log (not_signalled_line n channel
                          "Did not signal a Gdrive webhook to the incremenal sync workflow because of rate limit") w)
              | PlainError =>
                  (apiError 500
                     ("Failed starting the incremental sync workflow. Error: "
                      +:+ message error)
                     "internal_server_error", w)
              end
          | Ok _ => (status_200_end, w)
          end
    end.
Proof.
  intros [Hch Hne] Hres Hn.
  unfold _webhookGoogleDriveAPIHandler, processing_line.
  rewrite Hch. rewrite decide_False by done. simpl db.
  rewrite Hres. rewrite decide_False by done.
  by destruct (findOne_webhook (db w) channelId).
Qed.

Lemma handler_unresolved req w channelId :
  has_channel_id req channelId →
  resolve_connectorId (findOne_webhook (db w) channelId) req = None ∨
  resolve_connectorId (findOne_webhook (db w) channelId) req = Some 0 →
  _webhookGoogleDriveAPIHandler req w =
    (unresolved_channel, log (processing_line req) w).
Proof.
  intros [Hch Hne] Hres.
  unfold _webhookGoogleDriveAPIHandler, processing_line.
  rewrite Hch. rewrite decide_False by done. simpl db.
  destruct Hres as [-> | ->]; [done|]. by rewrite decide_True.
Qed.

Lemma handler_missing_channel req w :
  (∀ channelId, ¬ has_channel_id req channelId) →
  _webhookGoogleDriveAPIHandler req w =
    (apiError 400 "Missing x-goog-channel-id header"
       "invalid_request_error",
     log (processing_line req) w).
Proof.
  intros Hno. unfold _webhookGoogleDriveAPIHandler, processing_line.
  destruct (x_goog_channel_id req) as [ch|] eqn:Hch; [|done].
  destruct (decide (ch = "")) as [->|Hne]; [done|].
  destruct (Hno ch). by split.
Qed.

(** The connector id the route gives, read with [parseInt]. *)
Lemma resolve_route_parameter req p :
  params_connector_id req = Some p → p ≠ "" →
  resolve_connectorId None req = parseInt p.
Proof.
  intros Hp Hne. unfold resolve_connectorId. rewrite Hp.
  by rewrite decide_False.
Qed.
End HandlerFacts.

Lemma findOne_webhook_with_channel (channelId : string) (n : ModelId)
    (w : World) :
  findOne_webhook (db (with_channel channelId n w)) channelId
  = Some {| webhookId := channelId; wh_connectorId := n |}.
Proof.
  unfold findOne_webhook, with_channel. simpl. by rewrite decide_True.
Qed.

(** A launch rejected with a rate limit is acknowledged and logged. *)
Example webhook_rate_limited_acknowledged :
  let req := {| x_goog_channel_id := Some "chan-1";
                originalUrl := "/webhooks";
                params_connector_id := None |} in
  let r := @_webhookGoogleDriveAPIHandler Fixtures.node_host
             Fixtures.engine_rate_limited req Fixtures.world1 in
  r.1 = status_200_end ∧
  workflows r.2 = [IncrementalSync 1] ∧
  logs r.2 =
    [ {| log_fields := [("channelId", LogString "chan-1");
                        ("url", LogString "/webhooks")];
         log_message := "Processing Google Drive webhook." |};
      {| log_fields := [("connectorId", LogNumber 1);
                        ("webhookId", LogString "chan-1")];
         log_message := "Did not signal a Gdrive webhook to the incremenal sync workflow because of rate limit" |} ].
Proof. vm_compute. done. Qed.

(** A request without the header is refused before any lookup. *)
Example webhook_missing_header_is_400 :
  let r := @_webhookGoogleDriveAPIHandler Fixtures.node_host
             Fixtures.engine_ok
             {| x_goog_channel_id := None; originalUrl := "/webhooks";
                params_connector_id := Some "1" |} Fixtures.world1 in
  status_code r.1 = 400 ∧ workflows r.2 = [].
Proof. vm_compute. done. Qed.

(** A notification for the paused connector 2 that names it in the route
    only: the line written has no channel, where the same notification on
    a registered channel names the channel. *)
Example webhook_route_fallback_log :
  let req := {| x_goog_channel_id := Some "chan-9";
                originalUrl := "/webhooks/2";
                params_connector_id := Some "2" |} in
  let paused_line channel :=
    {| log_fields := [("connectorId", LogNumber 2); ("webhookId", channel)];
       log_message := "Did not signal a Gdrive webhook to the incremenal sync workflow because the connector is paused" |} in
  let r := @_webhookGoogleDriveAPIHandler Fixtures.node_host
             Fixtures.engine_ok req Fixtures.world1 in
  let r' := @_webhookGoogleDriveAPIHandler Fixtures.node_host
              Fixtures.engine_ok req
              (with_channel "chan-9" 2 Fixtures.world1) in
  r.1 = status_200_end ∧ r'.1 = status_200_end ∧
  logs r.2 = [processing_line req; paused_line LogNull] ∧
  logs r'.2 = [processing_line req; paused_line (LogString "chan-9")].
Proof. vm_compute. done. Qed.

(** C6, as stated, fails: with the channel id present and the connector
    found, a launch the engine rejects with an error that is not a rate
    limit is answered with 500. *)
Lemma webhook_launch_failure_is_500 :
  ¬ (∀ (H : Host) (E : WorkflowEngine) (req : Request) (w : World)
       (channelId : string),
       has_channel_id req channelId →
       status_code (_webhookGoogleDriveAPIHandler req w).1 = 200).
Proof.
  intros Hclaim.
  pose (req := {| x_goog_channel_id := Some "chan-1";
                  originalUrl := "/webhooks";
                  params_connector_id := None |}).
  assert (has_channel_id req "chan-1") as Hch by (by split).
  specialize (Hclaim Fixtures.node_host Fixtures.engine_down req
                Fixtures.world1 "chan-1" Hch).
  vm_compute in Hclaim. discriminate Hclaim.
Qed.

(** C6, amended: the endpoint answers 400 when the channel id is missing
    and when no connector id can be determined, 404 when the connector
    does not exist, 200 when the connector is paused, when the launch
    succeeds and when the launch is rejected with a rate limit, which is
    only logged, and 500 when the launch fails with any other error. *)
Theorem webhook_status_codes `{Host} `{WorkflowEngine} (req : Request)
    (w : World) :
  let r := _webhookGoogleDriveAPIHandler req w in
  let w0 := log (processing_line req) w in
  ((∀ channelId, ¬ has_channel_id req channelId) →
   status_code r.1 = 400 ∧ r.2 = w0) ∧
  (∀ channelId, has_channel_id req channelId →
   let connectorId :=
     resolve_connectorId (findOne_webhook (db w) channelId) req in
   (connectorId = None ∨ connectorId = Some 0 →
    status_code r.1 = 400 ∧ r.2 = w0) ∧
   (∀ n, connectorId = Some n → n ≠ 0 →
    (fetchById (db w) n = None → status_code r.1 = 404 ∧ r.2 = w0) ∧
    (∀ connector, fetchById (db w) n = Some connector →
     (paused connector = true →
      status_code r.1 = 200 ∧ workflows r.2 = workflows w) ∧
     (paused connector = false →
      workflows r.2 = workflows w ++ [IncrementalSync n] ∧
      match launchGoogleDriveIncrementalSyncWorkflow n with
      | Ok _ => status_code r.1 = 200 ∧ logs r.2 = logs w0
      | Err error =>
          match error_class error with
          | RateLimitError =>
              status_code r.1 = 200 ∧
              logs r.2 = logs w0 ++
                [not_signalled_line n
                   (webhookId <$> findOne_webhook (db w) channelId)
                   "Did not signal a Gdrive webhook to the incremenal sync workflow because of rate limit"]
          | PlainError => status_code r.1 = 500
          end
      end)))).
Proof.
  intros r w0. split.
  - intros Hno. subst r. by rewrite handler_missing_channel.
  - intros ch Hch connectorId. split.
    + intros Hres. subst r. by rewrite (handler_unresolved req w ch).
    + intros n Hn Hn0. subst r.
      rewrite (handler_resolved req w ch n Hch Hn Hn0). simpl fetchById.
      change (fetchById (db w0) n) with (fetchById (db w) n).
      split; [by intros ->|].
      intros connector ->. split; intros ->; simpl.
      { done. }
      destruct (launchGoogleDriveIncrementalSyncWorkflow n) as [?|[[] ?]];
        done.
Qed.

(** C7: a notification whose channel id is not registered and whose route
    parameter [p] is a string that [parseInt] reads as the id [n] is
    handled as if the channel were registered for [n]: same response and
    same launches, lines with the same messages written, and the
    incremental sync of [n] is launched when that connector exists and is
    not paused, the answer being 404 when it does not exist; the handler
    answers that the connector could not be determined exactly when the
    route has no parameter, an empty one, or one that [parseInt] reads as
    [NaN] or as 0. *)
Theorem webhook_route_parameter_fallback `{Host} `{WorkflowEngine}
    (req : Request) (w : World) (channelId : string) :
  has_channel_id req channelId →
  findOne_webhook (db w) channelId = None →
  let r := _webhookGoogleDriveAPIHandler req w in
  (∀ p n, params_connector_id req = Some p → p ≠ "" →
     parseInt p = Some n →
     let r' :=
       _webhookGoogleDriveAPIHandler req (with_channel channelId n w) in
     r.1 = r'.1 ∧ workflows r.2 = workflows r'.2 ∧
     log_message <$> logs r.2 = log_message <$> logs r'.2 ∧
     (n ≠ 0 → fetchById (db w) n = None →
        status_code r.1 = 404 ∧ workflows r.2 = workflows w) ∧
     (∀ connector, n ≠ 0 → fetchById (db w) n = Some connector →
        paused connector = false →
        workflows r.2 = workflows w ++ [IncrementalSync n])) ∧
  (r.1 = unresolved_channel ↔
     params_connector_id req = None ∨
     ∃ p, params_connector_id req = Some p ∧
          (p = "" ∨ parseInt p = None ∨ parseInt p = Some 0)).
Proof.
  intros Hch Hnone r.
  assert (resolve_connectorId (findOne_webhook (db w) channelId) req
          = resolve_connectorId None req) as Hres by (by rewrite Hnone).
  assert (∀ n, resolve_connectorId
            (findOne_webhook (db (with_channel channelId n w)) channelId)
            req = Some n) as Hres'.
  { intros n. by rewrite findOne_webhook_with_channel. }
  split.
  - intros p n Hp Hne Hn r'.
    rewrite (resolve_route_parameter req p Hp Hne), Hn in Hres.
    destruct (decide (n = 0)) as [->|Hn0]; subst r r'.
    + rewrite (handler_unresolved req w channelId) by auto.
      rewrite (handler_unresolved req (with_channel channelId 0 w)
                 channelId) by auto.
      done.
    + rewrite (handler_resolved req w channelId n) by done.
      rewrite (handler_resolved req (with_channel channelId n w)
                 channelId n) by done.
      rewrite Hnone, findOne_webhook_with_channel. simpl.
      change (fetchById _ n) with (fetchById (db w) n).
      destruct (fetchById (db w) n) as [connector|] eqn:Hc; [|done].
      destruct (paused connector) eqn:Hpaused.
      * split_and!; try done.
        -- simpl. by rewrite !fmap_app.
        -- intros ? _ [= <-]. congruence.
      * destruct (launchGoogleDriveIncrementalSyncWorkflow n)
          as [?|[[] ?]]; simpl; rewrite ?fmap_app; done.
  - assert (r.1 = unresolved_channel ↔
            resolve_connectorId None req = None ∨
            resolve_connectorId None req = Some 0) as ->.
    { destruct (resolve_connectorId None req) as [n|] eqn:Hroute.
      - destruct (decide (n = 0)) as [->|Hn0]; subst r.
        + rewrite (handler_unresolved req w channelId) by auto.
          simpl. split; auto.
        + rewrite (handler_resolved req w channelId n) by done. simpl.
          split; [|by intros [?|[= ?]]].
          destruct (fetchById (db w) n) as [connector|]; [|discriminate].
          destruct (paused connector); [discriminate|].
          destruct (launchGoogleDriveIncrementalSyncWorkflow n)
            as [?|[[] ?]]; discriminate.
      - subst r. rewrite (handler_unresolved req w channelId) by auto.
        simpl. split; auto. }
    unfold resolve_connectorId.
    destruct (params_connector_id req) as [p|]; [|split; auto].
    destruct (decide (p = "")) as [->|Hne].
    + split; [|auto]. intros _. right. exists "". auto.
    + split.
      * intros Hp. right. exists p. split; [done|]. right. done.
      * intros [[=]|(p' & [= <-] & [?|Hp])]; done.
Qed.

Lemma webhook_route_parameter_fallback_witness :
  let req := {| x_goog_channel_id := Some "chan-9";
                originalUrl := "/webhooks/1";
                params_connector_id := Some "1" |} in
  let r := @_webhookGoogleDriveAPIHandler Fixtures.node_host
             Fixtures.engine_ok req Fixtures.world1 in
  (∀ p n, params_connector_id req = Some p → p ≠ "" →
     @parseInt Fixtures.node_host p = Some n →
     let r' :=
       @_webhookGoogleDriveAPIHandler Fixtures.node_host Fixtures.engine_ok
         req (with_channel "chan-9" n Fixtures.world1) in
     r.1 = r'.1 ∧ workflows r.2 = workflows r'.2 ∧
     log_message <$> logs r.2 = log_message <$> logs r'.2 ∧
     (n ≠ 0 → fetchById (db Fixtures.world1) n = None →
        status_code r.1 = 404 ∧
        workflows r.2 = workflows Fixtures.world1) ∧
     (∀ connector, n ≠ 0 →
        fetchById (db Fixtures.world1) n = Some connector →
        paused connector = false →
        workflows r.2 =
          workflows Fixtures.world1 ++ [IncrementalSync n])) ∧
  (r.1 = unresolved_channel ↔
     params_connector_id req = None ∨
     ∃ p, params_connector_id req = Some p ∧
          (p = "" ∨ @parseInt Fixtures.node_host p = None ∨
           @parseInt Fixtures.node_host p = Some 0)).
Proof.
  apply (@webhook_route_parameter_fallback Fixtures.node_host
           Fixtures.engine_ok _ Fixtures.world1 "chan-9").
  - split; [reflexivity|discriminate].
  - vm_compute. reflexivity.
Defined.

(** C8: a notification that resolves to a paused connector is answered
    with 200 and no error body, and no workflow is handed to the engine;
    the tables are left as they are. *)
Theorem webhook_paused_connector_dropped `{Host} `{WorkflowEngine}
    (req : Request) (w : World) (channelId : string) (n : ModelId)
    (connector : ConnectorModel) :
  has_channel_id req channelId →
  resolve_connectorId (findOne_webhook (db w) channelId) req = Some n →
  n ≠ 0 →
  fetchById (db w) n = Some connector →
  paused connector = true →
  let r := _webhookGoogleDriveAPIHandler req w in
  r.1 = status_200_end ∧ status_code r.1 = 200 ∧ api_error r.1 = None ∧
  workflows r.2 = workflows w ∧ db r.2 = db w.
Proof.
  intros Hch Hres Hn0 Hc Hpaused r. subst r.
  rewrite (handler_resolved req w channelId n) by done. simpl.
  by rewrite Hc, Hpaused.
Qed.

Lemma webhook_paused_connector_dropped_witness :
  let r := @_webhookGoogleDriveAPIHandler Fixtures.node_host
             Fixtures.engine_ok
             {| x_goog_channel_id := Some "chan-2";
                originalUrl := "/webhooks";
                params_connector_id := None |} Fixtures.world1 in
  r.1 = status_200_end ∧ status_code r.1 = 200 ∧ api_error r.1 = None ∧
  workflows r.2 = workflows Fixtures.world1 ∧ db r.2 = db Fixtures.world1.
Proof.
  apply (@webhook_paused_connector_dropped Fixtures.node_host
           Fixtures.engine_ok _ Fixtures.world1 "chan-2" 2
           Fixtures.connector2_paused).
  - split; [reflexivity|discriminate].
  - vm_compute. reflexivity.
  - lia.
  - vm_compute. reflexivity.
  - reflexivity.
Defined.

(** ** Sorting *)

Section SortFacts.
Context {A : Type} (comparefn : A → A → Z).

Lemma sort_insert_Permutation x l : sort_insert comparefn x l ≡ₚ x :: l.
Proof.
  induction l as [|y l IH]; simpl; [done|].
  case_decide; [done|]. rewrite IH. apply Permutation_swap.
Qed.

Lemma sort_Permutation l : sort comparefn l ≡ₚ l.
Proof.
  induction l as [|x l IH]; simpl; [done|].
  by rewrite sort_insert_Permutation, IH.
Qed.

Hypothesis Hconsistent : consistent_comparator comparefn.

Lemma not_greater_total a b :
  not_greater comparefn a b ∨ not_greater comparefn b a.
Proof.
  destruct Hconsistent as [Hsign _]. unfold not_greater.
  destruct (decide (comparefn a b ≤ 0)); [by left|right].
  assert (comparefn b a < 0) by (apply Hsign; lia). lia.
Qed.

Lemma sort_insert_StronglySorted x l :
  StronglySorted (not_greater comparefn) l →
  StronglySorted (not_greater comparefn) (sort_insert comparefn x l).
Proof.
  destruct Hconsistent as [_ Htrans].
  induction 1 as [|y l Hl IH Hy]; simpl.
  - repeat constructor.
  - case_decide as Hxy.
    + constructor; [by constructor|]. constructor; [done|].
      eapply Forall_impl; [exact Hy|]. intros z Hz. by eapply Htrans.
    + constructor; [done|]. rewrite sort_insert_Permutation.
      constructor; [|done].
      by destruct (not_greater_total x y).
Qed.

Lemma sort_StronglySorted l :
  StronglySorted (not_greater comparefn) (sort comparefn l).
Proof.
  induction l as [|x l IH]; simpl; [constructor|].
  by apply sort_insert_StronglySorted.
Qed.
End SortFacts.

Lemma StronglySorted_impl {A} (R1 R2 : A → A → Prop) (P : A → Prop)
    (l : list A) :
  (∀ a b, P a → P b → R1 a b → R2 a b) →
  Forall P l → StronglySorted R1 l → StronglySorted R2 l.
Proof.
  intros Himpl HP Hsorted. induction Hsorted as [|a l Hl IH Ha].
  - constructor.
  - apply Forall_cons in HP as [HPa HPl]. constructor; [by apply IH|].
    rewrite Forall_forall in *. intros b Hb. apply Himpl; auto.
Qed.

(** ** Completions *)

Lemma bind_Normal_inv {A B} (m : Completion A) (k : A → Completion B)
    (v : B) :
  m ≫= k = Normal v → ∃ a, m = Normal a ∧ k a = Normal v.
Proof. destruct m as [a| |]; [|done..]. intros Hk. by exists a. Qed.

Lemma mapM_Normal_inv {A B} (f : A → Completion B) (xs : list A)
    (ys : list B) :
  mapM f xs = Normal ys → Forall2 (λ x y, f x = Normal y) xs ys.
Proof.
  revert ys. induction xs as [|x xs IH]; intros ys; simpl.
  - intros [= <-]. constructor.
  - destruct (f x) as [y| |] eqn:Hy; simpl; [|done..].
    destruct (mapM f xs) as [ys'| |]; simpl; [|done..].
    intros [= <-]. constructor; [done|]. by apply IH.
Qed.

Lemma mapM_Normal {A B} (f : A → Completion B) (g : A → B) (xs : list A) :
  Forall (λ x, f x = Normal (g x)) xs → mapM f xs = Normal (g <$> xs).
Proof.
  induction 1 as [|x xs Hx Hxs IH]; simpl; [done|].
  by rewrite Hx, IH.
Qed.

(** ** Listing the nodes *)

Section RetrieveFacts.
Context `{Host} `{DriveAPI} `{PermissionsLib}.

Lemma selected_nodes_inv st c connectorId authCredentials
    (rows : list GoogleDriveFolders) (opts : list (option ConnectorNode)) :
  mapM (λ f,
    fd ← getGoogleDriveObject authCredentials (folderId f);
    mret (selected_folder_node st c connectorId f fd)) rows
    = Normal opts →
  ∃ fds,
    Forall2 (λ f fd, getGoogleDriveObject authCredentials (folderId f)
                     = Normal fd) rows fds ∧
    opts = zip_with (selected_folder_node st c connectorId) rows fds.
Proof.
  intros Hmap%mapM_Normal_inv.
  induction Hmap as [|f o rows opts Hf Hrows (fds & Hfds & ->)].
  - exists []. by split; [constructor|].
  - apply bind_Normal_inv in Hf as (fd & Hfd & [= <-]).
    exists (fd :: fds). by split; [constructor|].
Qed.

Lemma remote_node_folder st c connectorId driveObject node :
  remote_node st c connectorId driveObject = Normal node →
  type node = folder.
Proof.
  unfold remote_node. by intros (e & _ & [= <-])%bind_Normal_inv.
Qed.

(** What a successful listing is made of, branch by branch. *)
Lemma retrieve_Ok_inv fuel st connectorId parent filterPermission nodes :
  retrieveGoogleDriveConnectorPermissions fuel st connectorId parent
    filterPermission = Normal (Ok nodes) →
  ∃ c authCredentials,
    fetchById st connectorId = Some c ∧
    getAuthObject (connectionId c) = Normal authCredentials ∧
    match filterPermission, parent with
    | Some p, None =>
        p = "read" ∧
        ∃ fds,
          Forall2 (λ f fd, getGoogleDriveObject authCredentials
                             (folderId f) = Normal fd)
                  (selected_rows st connectorId) fds ∧
          nodes = sort by_title
                    (removeNulls
                       (zip_with (selected_folder_node st c connectorId)
                          (selected_rows st connectorId) fds))
    | Some p, Some parentInternalId =>
        p = "read" ∧
        nodes = sort folders_first
                  (mirrored_node st c connectorId <$>
                     child_rows st connectorId parentInternalId)
    | None, _ =>
        ∃ l, Forall (λ n, type n = folder) l ∧ nodes = sort by_title l
    end.
Proof.
  unfold retrieveGoogleDriveConnectorPermissions.
  destruct (fetchById st connectorId) as [c|]; [|done].
  intros (auth & Hauth & Hrest)%bind_Normal_inv.
  exists c, auth. split_and!; [done..|].
  destruct filterPermission as [p|].
  - destruct (decide (p = "read")) as [->|]; [|done].
    destruct parent as [parentInternalId|].
    + split; [done|].
      rewrite (mapM_Normal _ (mirrored_node st c connectorId)) in Hrest
        by (by apply Forall_true).
      simpl in Hrest. by injection Hrest as <-.
    + split; [done|].
      apply bind_Normal_inv in Hrest as (opts & Hmap & [= <-]).
      apply selected_nodes_inv in Hmap as (fds & Hfds & ->).
      by exists fds.
  - destruct parent as [parentInternalId|].
    + apply bind_Normal_inv in Hrest as (rfs & _ & Hrest).
      apply bind_Normal_inv in Hrest as (l & Hmap & [= <-]).
      exists l. split; [|done].
      apply mapM_Normal_inv in Hmap.
      induction Hmap as [|rf n rfs' l Hn _ IH]; constructor; [|done].
      apply bind_Normal_inv in Hn as (o & _ & Hn).
      by eapply remote_node_folder.
    + apply bind_Normal_inv in Hrest as (drives & _ & Hrest).
      apply bind_Normal_inv in Hrest as (l & Hmap & [= <-]).
      exists l. split; [|done].
      apply mapM_Normal_inv in Hmap.
      induction Hmap as [|d n ds l Hn _ IH]; constructor; [|done].
      apply bind_Normal_inv in Hn as ([o|] & _ & Hn); [|done].
      by eapply remote_node_folder.
Qed.
End RetrieveFacts.

(** The page loop needs no more fuel than the pages it reads: a
    result reached with some fuel is reached with any larger fuel. *)
Lemma list_remote_folders_fuel_mono `{DriveAPI} (fuel fuel' : nat)
    (authCredentials : AuthCredentials) (parentInternalId : string)
    (nextPageToken : option string) (remoteFolders : list Schema_File)
    (r : Completion (list Schema_File)) :
  list_remote_folders fuel authCredentials parentInternalId nextPageToken
    remoteFolders = r →
  r ≠ OutOfFuel → (fuel ≤ fuel')%nat →
  list_remote_folders fuel' authCredentials parentInternalId nextPageToken
    remoteFolders = r.
Proof.
  revert fuel' nextPageToken remoteFolders.
  induction fuel as [|fuel IH]; intros fuel' token acc Hr Hne Hle.
  - simpl in Hr. congruence.
  - destruct fuel' as [|fuel']; [lia|]. simpl in *.
    destruct (files_list _ _ _) as [res| |]; simpl in *; [|done..].
    case_decide; [done|].
    destruct (data_files res) as [fs|]; [|done].
    destruct (str_or_null (data_nextPageToken res)); [|done].
    apply IH; [done..|lia].
Qed.

(** A listing the remote side answers in one page is read with one unit
    of fuel. *)
Lemma list_remote_folders_single_page `{DriveAPI}
    (authCredentials : AuthCredentials) (parentInternalId : string)
    (res : FileListResponse Schema_File) (fs : list Schema_File) :
  files_list authCredentials
    ("'" +:+ parentInternalId +:+
     "' in parents and mimeType='application/vnd.google-apps.folder'")
    None = Normal res →
  status res = 200 → data_files res = Some fs →
  str_or_null (data_nextPageToken res) = None →
  list_remote_folders 1 authCredentials parentInternalId None [] = Normal fs.
Proof.
  intros Hres Hstatus Hfiles Htoken. simpl. rewrite Hres. simpl.
  rewrite decide_False by (by rewrite Hstatus; intros []).
  by rewrite Hfiles, Htoken.
Qed.

Section Consistency.
Context `{Host}.
Hypothesis Hconsistent : consistent_comparator localeCompare.

Lemma by_title_consistent : consistent_comparator by_title.
Proof.
  destruct Hconsistent as [Hsign Htrans]. unfold by_title. split.
  - intros a b. apply Hsign.
  - intros a b c. apply Htrans.
Qed.

Lemma folders_first_consistent : consistent_comparator folders_first.
Proof.
  destruct Hconsistent as [Hsign Htrans]. unfold folders_first. split.
  - intros a b. destruct (type a), (type b); simpl; try apply Hsign; lia.
  - intros a b c.
    destruct (type a), (type b), (type c); simpl; try apply Htrans; lia.
Qed.

Lemma by_title_node_order a b :
  type a = folder → type b = folder → by_title a b ≤ 0 → node_order a b.
Proof. intros Ha Hb Hle. split; [congruence|done]. Qed.

Lemma folders_first_node_order a b :
  folders_first a b ≤ 0 → node_order a b.
Proof.
  unfold folders_first, node_order.
  destruct (type a), (type b); simpl; intros Hle; split; try done; lia.
Qed.
End Consistency.

Lemma collate_not_greater a b :
  Fixtures.collate a b ≤ 0 ↔
  String.le (Fixtures.collation_key a) (Fixtures.collation_key b).
Proof.
  unfold Fixtures.collate.
  generalize (Fixtures.collation_key a) (Fixtures.collation_key b).
  intros ka kb. destruct (decide (ka = kb)) as [->|Hne].
  - split; [done|lia].
  - destruct (decide (String.le ka kb)); split; try done; lia.
Qed.

Lemma collate_consistent : consistent_comparator Fixtures.collate.
Proof.
  split.
  - intros a b. unfold Fixtures.collate.
    generalize (Fixtures.collation_key a) (Fixtures.collation_key b).
    intros ka kb. destruct (decide (ka = kb)) as [->|Hne].
    + rewrite decide_True by done. lia.
    + rewrite (decide_False (P := kb = ka)) by done.
      destruct (decide (String.le ka kb)) as [Hab|Hab],
               (decide (String.le kb ka)) as [Hba|Hba]; try lia.
      * destruct Hne. by apply (anti_symm String.le).
      * destruct (total String.le ka kb); done.
  - intros a b c. rewrite !collate_not_greater. apply transitivity.
Qed.

(** C3, as stated, fails: the titles are ordered by [localeCompare], which
    puts the file [a] before the file [B], while [B] comes first code unit
    by code unit. *)
Lemma listing_not_in_codeunit_order :
  ¬ (∀ (fuel : nat) (st : Store) (connectorId : ModelId)
       (parent filterPermission : option string)
       (nodes : list ConnectorNode),
       @retrieveGoogleDriveConnectorPermissions Fixtures.node_host
         Fixtures.drive1 Fixtures.permissions_lib fuel st connectorId
         parent filterPermission = Normal (Ok nodes) →
       StronglySorted codeunit_order nodes).
Proof.
  intros Hclaim.
  specialize (Hclaim 1%nat Fixtures.store1 1 (Some "F1") (Some "read")
                Fixtures.children_of_F1 eq_refl).
  apply StronglySorted_inv in Hclaim as [Hclaim _].
  apply StronglySorted_inv in Hclaim as [_ Hfirst].
  apply Forall_cons in Hfirst as [[_ Hle] _].
  specialize (Hle eq_refl). vm_compute in Hle. exact Hle.
Qed.

(** C3, amended: with a consistent [localeCompare], the nodes of every
    successful listing come with no file before a folder and, among nodes
    of one type, with titles in the order of [localeCompare]. *)
Theorem listing_sorted `{Host} `{DriveAPI} `{PermissionsLib} (fuel : nat)
    (st : Store) (connectorId : ModelId)
    (parent filterPermission : option string) (nodes : list ConnectorNode) :
  consistent_comparator localeCompare →
  retrieveGoogleDriveConnectorPermissions fuel st connectorId parent
    filterPermission = Normal (Ok nodes) →
  StronglySorted node_order nodes.
Proof.
  intros Hcons (c & auth & _ & _ & Hbranch)%retrieve_Ok_inv.
  assert (∀ l, Forall (λ n, type n = folder) l →
               StronglySorted node_order (sort by_title l)) as Hfolders.
  { intros l Hl.
    eapply (StronglySorted_impl _ _ (λ n, type n = folder)).
    - intros a b. apply by_title_node_order.
    - by rewrite sort_Permutation.
    - apply sort_StronglySorted, by_title_consistent, Hcons. }
  destruct filterPermission as [p|]; [destruct parent as [parentId|]|].
  - destruct Hbranch as [_ ->].
    eapply (StronglySorted_impl _ _ (λ _, True)).
    + intros a b _ _. apply folders_first_node_order.
    + by apply Forall_true.
    + apply sort_StronglySorted, folders_first_consistent, Hcons.
  - destruct Hbranch as (_ & fds & _ & ->). apply Hfolders.
    apply Forall_forall. intros n Hn.
    apply list_elem_of_omap in Hn as ([n'|] & Hin & [= ->]).
    apply elem_of_lookup_zip_with in Hin as (i & f & [fd|] & Hsel & _ & _);
      [|done].
    by simplify_eq/=.
  - destruct Hbranch as (l & Hl & ->). by apply Hfolders.
Qed.

Lemma listing_sorted_witness :
  StronglySorted (@node_order Fixtures.node_host) Fixtures.children_of_F1.
Proof.
  apply (@listing_sorted Fixtures.node_host Fixtures.drive1
           Fixtures.permissions_lib 1%nat Fixtures.store1 1 (Some "F1")
           (Some "read") Fixtures.children_of_F1).
  - exact collate_consistent.
  - vm_compute. reflexivity.
Defined.

(** [s || ""] is [s], and [n || null] is [n] unless [n] is [undefined]
    or 0. *)
Lemma str_or_empty (s : string) : str_or s "" = s.
Proof. unfold str_or. by case_decide. Qed.

Lemma num_or_null_number (n : option Z) (t : Z) :
  n = Some t → t ≠ 0 → num_or_null n = Some t.
Proof. intros -> Ht. by destruct t. Qed.

Lemma num_or_null_falsy (n : option Z) :
  n = None ∨ n = Some 0 → num_or_null n = None.
Proof. by intros [-> | ->]. Qed.

Section SelectedFolders.
Context `{Host} `{DriveAPI} `{PermissionsLib}.

(** The node of a selected folder carries the id of its row, and the
    name and the update time of the remote object. *)
Lemma selected_folder_node_Some st c connectorId f fd node :
  selected_folder_node st c connectorId f fd = Some node →
  ∃ o, fd = Some o ∧ internalId node = folderId f ∧
       type node = folder ∧ permission node = "read" ∧
       parentInternalId node = None ∧
       title node = str_or (obj_name o) "" ∧
       lastUpdatedAt node = num_or_null (updatedAtMs o).
Proof.
  destruct fd as [o|]; [|done]. intros [= <-]. by exists o.
Qed.

Lemma zip_with_remote_object st c connectorId authCredentials
    (rows : list GoogleDriveFolders) fds :
  Forall2 (λ f fd, getGoogleDriveObject authCredentials (folderId f)
                   = Normal fd) rows fds →
  removeNulls (zip_with (selected_folder_node st c connectorId) rows fds)
  = omap (λ f, selected_folder_node st c connectorId f
                 (remote_object authCredentials (folderId f))) rows.
Proof.
  unfold removeNulls.
  induction 1 as [|f fd rows fds Hf _ IH]; [done|].
  simpl. unfold remote_object at 1. rewrite Hf.
  destruct (selected_folder_node st c connectorId f fd);
    [f_equal|]; exact IH.
Qed.

Lemma selected_node_ids st c connectorId authCredentials
    (rows : list GoogleDriveFolders) :
  internalId <$>
    omap (λ f, selected_folder_node st c connectorId f
                 (remote_object authCredentials (folderId f))) rows
  = folderId <$>
      filter (λ f, is_Some (remote_object authCredentials (folderId f)))
             rows.
Proof.
  induction rows as [|f rows IH]; [done|]. simpl.
  destruct (remote_object authCredentials (folderId f)) as [o|] eqn:Ho.
  - rewrite filter_cons_True by (by rewrite Ho). simpl. f_equal. exact IH.
  - rewrite filter_cons_False by (rewrite Ho; by intros [? ?]).
    exact IH.
Qed.
End SelectedFolders.

(** C4: the read listing at the root succeeds when no remote call
    rejects, and a successful result is, up to the order, the list of the
    selected folders of the connector that the remote side still has: one
    node per such row, with the id of the row, the remote name as title,
    the remote update time (none when the remote object has none, or 0)
    and the permission read; a selected folder that the remote side does
    not have gives no node and no error. *)
Theorem selected_folders_listing `{Host} `{DriveAPI} `{PermissionsLib}
    (fuel : nat) (st : Store) (connectorId : ModelId) (c : ConnectorModel)
    (authCredentials : AuthCredentials) :
  fetchById st connectorId = Some c →
  getAuthObject (connectionId c) = Normal authCredentials →
  let listing :=
    retrieveGoogleDriveConnectorPermissions fuel st connectorId None
      (Some "read") in
  (Forall (λ f, ∃ fd, getGoogleDriveObject authCredentials (folderId f)
                      = Normal fd)
          (selected_rows st connectorId) →
   ∃ nodes, listing = Normal (Ok nodes)) ∧
  (∀ nodes, listing = Normal (Ok nodes) →
     nodes ≡ₚ omap (λ f, selected_folder_node st c connectorId f
                          (remote_object authCredentials (folderId f)))
                   (selected_rows st connectorId) ∧
     internalId <$> nodes
       ≡ₚ folderId <$>
            filter (λ f, is_Some (remote_object authCredentials
                                    (folderId f)))
                   (selected_rows st connectorId) ∧
     (∀ id, id ∈ internalId <$> nodes ↔
            ∃ f, f ∈ folders st ∧ gdf_connectorId f = connectorId ∧
                 folderId f = id ∧
                 is_Some (remote_object authCredentials id)) ∧
     Forall (λ node, ∃ o,
               remote_object authCredentials (internalId node) = Some o ∧
               title node = obj_name o ∧
               (∀ t, updatedAtMs o = Some t → t ≠ 0 →
                     lastUpdatedAt node = Some t) ∧
               (updatedAtMs o = None ∨ updatedAtMs o = Some 0 →
                lastUpdatedAt node = None) ∧
               type node = folder ∧ permission node = "read")
            nodes).
Proof.
  intros Hc Hauth listing. split.
  - intros Hall. subst listing.
    unfold retrieveGoogleDriveConnectorPermissions.
    rewrite Hc, Hauth. simpl.
    fold (selected_rows st connectorId).
    rewrite (mapM_Normal _
      (λ f, selected_folder_node st c connectorId f
              (remote_object authCredentials (folderId f)))).
    + simpl. by eexists.
    + eapply Forall_impl; [exact Hall|]. intros f [fd Hfd]. simpl.
      unfold remote_object. by rewrite Hfd.
  - intros nodes (c' & auth' & Hc' & Hauth' & _ & fds & Hfds & ->)
      %retrieve_Ok_inv.
    rewrite Hc in Hc'. injection Hc' as <-.
    rewrite Hauth in Hauth'. injection Hauth' as <-.
    rewrite (zip_with_remote_object _ _ _ authCredentials) by done.
    set (mk := λ f, selected_folder_node st c connectorId f
                      (remote_object authCredentials (folderId f))).
    assert (sort by_title (omap mk (selected_rows st connectorId))
            ≡ₚ omap mk (selected_rows st connectorId)) as Hperm
      by apply sort_Permutation.
    split_and!; [done| | |].
    + rewrite Hperm. unfold mk. by rewrite selected_node_ids.
    + intros id. rewrite Hperm. rewrite list_elem_of_fmap. split.
      * intros (node & -> & (f & Hf & Hnode)%list_elem_of_omap).
        apply list_elem_of_filter in Hf as [Hcid Hf].
        apply selected_folder_node_Some in Hnode
          as (o & Ho & Hid & _).
        exists f. split_and!; [done..|]. rewrite Hid. by exists o.
      * intros (f & Hf & Hcid & <- & [o Ho]).
        destruct (mk f) as [node|] eqn:Hnode.
        -- exists node. split.
           ++ apply selected_folder_node_Some in Hnode
                as (? & _ & Hid & _). done.
           ++ apply list_elem_of_omap. exists f. split; [|done].
              by apply list_elem_of_filter.
        -- unfold mk in Hnode. by rewrite Ho in Hnode.
    + rewrite Hperm. apply Forall_forall. intros node
        (f & Hf & Hnode)%list_elem_of_omap.
      apply selected_folder_node_Some in Hnode
        as (o & Ho & Hid & Hty & Hperm' & _ & Htitle & Htime).
      exists o. rewrite Hid, Htitle, Htime, str_or_empty.
      split_and!; [done..| | |done|done].
      * apply num_or_null_number.
      * apply num_or_null_falsy.
Qed.

Lemma selected_folders_listing_witness :
  let listing :=
    @retrieveGoogleDriveConnectorPermissions Fixtures.node_host
      Fixtures.drive1 Fixtures.permissions_lib 1%nat Fixtures.store1 1 None
      (Some "read") in
  (Forall (λ f, ∃ fd, @getGoogleDriveObject Fixtures.drive1 ()
                        (folderId f) = Normal fd)
          (selected_rows Fixtures.store1 1) →
   ∃ nodes, listing = Normal (Ok nodes)) ∧
  (∀ nodes, listing = Normal (Ok nodes) →
     nodes ≡ₚ omap (λ f, @selected_folder_node Fixtures.store1
                          Fixtures.connector1 1 f
                          (@remote_object Fixtures.drive1 () (folderId f)))
                   (selected_rows Fixtures.store1 1) ∧
     internalId <$> nodes
       ≡ₚ folderId <$>
            filter (λ f, is_Some (@remote_object Fixtures.drive1 ()
                                    (folderId f)))
                   (selected_rows Fixtures.store1 1) ∧
     (∀ id, id ∈ internalId <$> nodes ↔
            ∃ f, f ∈ folders Fixtures.store1 ∧ gdf_connectorId f = 1 ∧
                 folderId f = id ∧
                 is_Some (@remote_object Fixtures.drive1 () id)) ∧
     Forall (λ node, ∃ o,
               @remote_object Fixtures.drive1 () (internalId node) = Some o ∧
               title node = obj_name o ∧
               (∀ t, updatedAtMs o = Some t → t ≠ 0 →
                     lastUpdatedAt node = Some t) ∧
               (updatedAtMs o = None ∨ updatedAtMs o = Some 0 →
                lastUpdatedAt node = None) ∧
               type node = folder ∧ permission node = "read")
            nodes).
Proof.
  apply (@selected_folders_listing Fixtures.node_host Fixtures.drive1
           Fixtures.permissions_lib 1%nat Fixtures.store1 1
           Fixtures.connector1 ()).
  - vm_compute. reflexivity.
  - reflexivity.
Defined.

(** The listing of the fixture: F1 under its remote name and with its
    remote update time; F3, which the remote side does not have, is not
    listed. *)
Example selected_folders_listing_values :
  @retrieveGoogleDriveConnectorPermissions Fixtures.node_host
    Fixtures.drive1 Fixtures.permissions_lib 1%nat Fixtures.store1 1 None
    (Some "read")
  = Normal (Ok [ {| provider := "google_drive"; internalId := "F1";
                    parentInternalId := None; type := folder;
                    title := "Docs v2"; sourceUrl := None;
                    dustDocumentId := None;
                    lastUpdatedAt := Some 1700000000000;
                    expandable := true; permission := "read" |} ]).
Proof. vm_compute. reflexivity. Qed.

(** C10: the read listing of the children of a folder succeeds once the
    connector and its credentials are found, and every node of a
    successful result has no parent id and the permission read, although
    it is the node of a row whose parent is the folder asked for. *)
Theorem children_listing_without_parent_link `{Host} `{DriveAPI}
    `{PermissionsLib} (fuel : nat) (st : Store) (connectorId : ModelId)
    (parentInternalId' : string) (c : ConnectorModel)
    (authCredentials : AuthCredentials) :
  fetchById st connectorId = Some c →
  getAuthObject (connectionId c) = Normal authCredentials →
  let listing :=
    retrieveGoogleDriveConnectorPermissions fuel st connectorId
      (Some parentInternalId') (Some "read") in
  (∃ nodes, listing = Normal (Ok nodes)) ∧
  (∀ nodes, listing = Normal (Ok nodes) →
     Forall (λ node,
               parentInternalId node = None ∧ permission node = "read" ∧
               ∃ f, f ∈ files st ∧ file_connectorId f = connectorId ∧
                    parentId f = Some parentInternalId' ∧
                    internalId node = driveFileId f)
            nodes).
Proof.
  intros Hc Hauth listing. split.
  - subst listing. unfold retrieveGoogleDriveConnectorPermissions.
    rewrite Hc, Hauth. simpl.
    rewrite (mapM_Normal _ (mirrored_node st c connectorId))
      by (by apply Forall_true).
    simpl. by eexists.
  - intros nodes (c' & auth' & Hc' & _ & _ & ->)%retrieve_Ok_inv.
    rewrite sort_Permutation. apply Forall_forall.
    intros node (f & -> & Hf)%list_elem_of_fmap.
    apply list_elem_of_filter in Hf as [[Hcid Hparent] Hf].
    split_and!; [done..|]. by exists f.
Qed.

Lemma children_listing_without_parent_link_witness :
  let listing :=
    @retrieveGoogleDriveConnectorPermissions Fixtures.node_host
      Fixtures.drive1 Fixtures.permissions_lib 1%nat Fixtures.store1 1
      (Some "F1") (Some "read") in
  (∃ nodes, listing = Normal (Ok nodes)) ∧
  (∀ nodes, listing = Normal (Ok nodes) →
     Forall (λ node,
               parentInternalId node = None ∧ permission node = "read" ∧
               ∃ f, f ∈ files Fixtures.store1 ∧ file_connectorId f = 1 ∧
                    parentId f = Some "F1" ∧
                    internalId node = driveFileId f)
            nodes).
Proof.
  apply (@children_listing_without_parent_link Fixtures.node_host
           Fixtures.drive1 Fixtures.permissions_lib 1%nat Fixtures.store1 1
           "F1" Fixtures.connector1 ()).
  - vm_compute. reflexivity.
  - reflexivity.
Defined.

(** ** Titles *)

Lemma titles_fold_lookup (rows : list GoogleDriveFiles)
    (acc : gmap string string) (id v : string) :
  foldl (λ acc curr, obj_set (driveFileId curr) (name curr) acc) acc rows
    !! id = Some v →
  acc !! id = Some v ∨
  ∃ f, f ∈ rows ∧ driveFileId f = id ∧ name f = v.
Proof.
  revert acc. induction rows as [|f rows IH]; intros acc; simpl; [auto|].
  intros [Hacc|(g & Hg & Hid & Hv)]%IH.
  - unfold obj_set in Hacc. case_decide; [auto|].
    destruct (decide (driveFileId f = id)) as [<-|Hne].
    + rewrite lookup_insert_eq in Hacc. injection Hacc as <-.
      right. exists f. split_and!; [left|done..].
    + rewrite lookup_insert_ne in Hacc by done. auto.
  - right. exists g. split_and!; [by right|done..].
Qed.

(** C9: the titles are read from the rows of [GoogleDriveFiles] alone and
    the call answers [Ok]: a key of the answer is one of the ids asked
    for and the [driveFileId] of a row of the connector, its value the
    name of such a row; with no id asked for, or none that a row of the
    connector has, the answer is the empty object. *)
Theorem titles_of_known_ids_only (st : Store) (connectorId : ModelId)
    (internalIds : list string) :
  ∃ titles,
    retrieveGoogleDriveObjectsTitles st connectorId internalIds = Ok titles ∧
    (∀ id v, titles !! id = Some v →
       id ∈ internalIds ∧
       ∃ f, f ∈ files st ∧ file_connectorId f = connectorId ∧
            driveFileId f = id ∧ name f = v) ∧
    (internalIds = [] → titles = ∅) ∧
    (Forall (λ id, ¬ ∃ f, f ∈ files st ∧ file_connectorId f = connectorId ∧
                          driveFileId f = id) internalIds →
     titles = ∅).
Proof.
  eexists. split; [reflexivity|].
  assert (∀ id v,
    foldl (λ acc curr, obj_set (driveFileId curr) (name curr) acc) ∅
      (filter (λ f, file_connectorId f = connectorId ∧
                    driveFileId f ∈ internalIds) (files st)) !! id = Some v →
    id ∈ internalIds ∧
    ∃ f, f ∈ files st ∧ file_connectorId f = connectorId ∧
         driveFileId f = id ∧ name f = v) as Hkeys.
  { intros id v [Hempty|(f & Hf & <- & <-)]%titles_fold_lookup.
    - by rewrite lookup_empty in Hempty.
    - apply list_elem_of_filter in Hf as [[Hcid Hin] Hf].
      split; [done|]. by exists f. }
  split_and!; [exact Hkeys| |].
  - intros ->. apply map_eq. intros id. rewrite lookup_empty.
    apply eq_None_not_Some. intros [v Hv].
    apply Hkeys in Hv as [Hin _]. by apply elem_of_nil in Hin.
  - intros Hunknown. apply map_eq. intros id. rewrite lookup_empty.
    apply eq_None_not_Some. intros [v Hv].
    apply Hkeys in Hv as [Hin (f & Hf & Hcid & Hid & _)].
    rewrite Forall_forall in Hunknown. apply (Hunknown id Hin).
    by exists f.
Qed.

(** ** The folders a batch leaves *)

Lemma elem_of_folders_upsert c id st row :
  row ∈ folders (folders_upsert c id st) ↔
  row = folder_row c id ∨ row ∈ folders st.
Proof.
  unfold folders_upsert, folder_row. simpl. case_decide as Hin.
  - split; [by right|]. by intros [->|?].
  - rewrite elem_of_app, list_elem_of_singleton. tauto.
Qed.

Lemma db_set_db f w : db (set_db f w) = f (db w).
Proof. reflexivity. Qed.

Lemma elem_of_folders_destroy c id st row :
  row ∈ folders (folders_destroy c id st) ↔
  row ≠ folder_row c id ∧ row ∈ folders st.
Proof.
  unfold folders_destroy, folder_row. simpl.
  rewrite list_elem_of_filter. destruct row as [c' id']; simpl.
  split; intros [Hne Hin]; (split; [|done]).
  - intros [= -> ->]. by apply Hne.
  - intros [-> ->]. by apply Hne.
Qed.

Section BatchFacts.
Context `{WorkflowEngine}.

(** Whatever the entries, the loop only ever touches the folders, and
    among them only the rows of the connector it works for. *)
Lemma permissions_loop_other_rows c es b w row :
  gdf_connectorId row ≠ c →
  row ∈ folders (db (permissions_loop c es b w).2) ↔ row ∈ folders (db w).
Proof.
  intros Hother. revert b w.
  induction es as [|[id p] es IH]; intros b w; simpl; [done|].
  repeat case_decide; [| |done]; rewrite IH, db_set_db.
  - rewrite elem_of_folders_destroy. split; [by intros [_ ?]|].
    intros Hin. split; [|done]. intros ->. by apply Hother.
  - rewrite elem_of_folders_upsert. split; [|by right].
    intros [->|Hin]; [|done]. by destruct Hother.
Qed.

Lemma permissions_loop_tables c es b w :
  files (db (permissions_loop c es b w).2) = files (db w) ∧
  webhooks (db (permissions_loop c es b w).2) = webhooks (db w) ∧
  connectors (db (permissions_loop c es b w).2) = connectors (db w).
Proof.
  revert b w. induction es as [|[id p] es IH]; intros b w; simpl; [done|].
  repeat case_decide; [| |done].
  - destruct (IH true (set_db (folders_destroy c id) w)) as (?&?&?). done.
  - destruct (IH true (set_db (folders_upsert c id) w)) as (?&?&?). done.
Qed.

(** The row of [id] after a valid batch with distinct ids: there when
    the batch grants [id], gone when it revokes it, as before when the
    batch does not name it. *)
Lemma permissions_loop_membership c es b w id :
  Forall valid_permission es → NoDup (fst <$> es) →
  folder_row c id ∈ folders (db (permissions_loop c es b w).2) ↔
  (id, "read") ∈ es ∨ ((id ∉ fst <$> es) ∧ folder_row c id ∈ folders (db w)).
Proof.
  intros Hvalid. revert b w.
  induction Hvalid as [|[id0 p0] es Hp Hes IH]; intros b w Hnodup.
  - simpl. rewrite elem_of_nil. pose proof (not_elem_of_nil id). tauto.
  - apply NoDup_cons in Hnodup as [Hfresh Hnodup]. simpl in Hfresh.
    assert ((id0, "read") ∉ es) as Hnot.
    { intros Hin. apply Hfresh. apply list_elem_of_fmap.
      by exists (id0, "read"). }
    assert (folder_row c id = folder_row c id0 ↔ id = id0) as Hrow.
    { unfold folder_row. split; [by intros [= ?]|by intros ->]. }
    rewrite fmap_cons, not_elem_of_cons, elem_of_cons. simpl.
    destruct Hp as [Hp|Hp]; simpl in Hp; subst p0.
    + rewrite decide_False by done. rewrite decide_True by done.
      rewrite IH, db_set_db by done. rewrite elem_of_folders_upsert, Hrow.
      assert ((id, "read") = (id0, "read") ↔ id = id0) as ->.
      { split; [by intros [= ?]|by intros ->]. }
      destruct (decide (id = id0)) as [->|Hne]; tauto.
    + rewrite decide_True by done.
      rewrite IH, db_set_db by done. rewrite elem_of_folders_destroy, Hrow.
      assert ((id, "read") = (id0, "none") ↔ False) as ->.
      { split; [by intros [= ?]|done]. }
      destruct (decide (id = id0)) as [->|Hne]; tauto.
Qed.

(** The loop keeps the key (connectorId, folderId) unique. *)
Lemma permissions_loop_NoDup c es b w :
  NoDup (folders (db w)) →
  NoDup (folders (db (permissions_loop c es b w).2)).
Proof.
  revert b w. induction es as [|[id p] es IH]; intros b w Hnodup; simpl;
    [done|].
  repeat case_decide; [| |done]; apply IH; simpl.
  - by apply NoDup_filter.
  - case_decide; [done|]. apply NoDup_app. split_and!; [done| |].
    + intros row Hrow ->%list_elem_of_singleton. done.
    + apply NoDup_singleton.
Qed.
Lemma set_permissions_tables c es w :
  let r := setGoogleDriveConnectorPermissions c es w in
  files (db r.2) = files (db w) ∧
  webhooks (db r.2) = webhooks (db w) ∧
  connectors (db r.2) = connectors (db w).
Proof.
  unfold setGoogleDriveConnectorPermissions.
  destruct (fetchById (db w) c) as [conn|]; [|done].
  pose proof (permissions_loop_tables c es false w) as Htables.
  destruct (permissions_loop c es false w) as [[[]|e] w']; simpl in *; done.
Qed.
End BatchFacts.

(** In a list with distinct keys a key has one value. *)
Lemma distinct_keys_one_value {A B} (l : list (A * B)) (x : A) (y1 y2 : B) :
  NoDup (fst <$> l) → (x, y1) ∈ l → (x, y2) ∈ l → y1 = y2.
Proof.
  induction l as [|[x0 y0] l IH]; intros Hnodup Hin1 Hin2.
  - by apply elem_of_nil in Hin1.
  - apply NoDup_cons in Hnodup as [Hfresh Hnodup]. simpl in Hfresh.
    assert (∀ y, (x0, y) ∉ l) as Hnot.
    { intros y Hin. apply Hfresh, list_elem_of_fmap. by exists (x0, y). }
    apply elem_of_cons in Hin1 as [Heq1|Hin1];
      apply elem_of_cons in Hin2 as [Heq2|Hin2]; simplify_eq.
    + done.
    + by destruct (Hnot y2).
    + by destruct (Hnot y1).
    + by apply IH.
Qed.

(** X1: a permission batch never touches another connector: the
    selected folders of every other connector, the mirrored files, the
    webhooks and the connectors are as before, whether the batch succeeds
    or fails. *)
Theorem set_permissions_other_connectors `{WorkflowEngine} (w : World)
    (c c' : ModelId) (permissions : list (string * string)) :
  c' ≠ c →
  let r := setGoogleDriveConnectorPermissions c permissions w in
  selected_rows (db r.2) c' = selected_rows (db w) c' ∧
  files (db r.2) = files (db w) ∧
  webhooks (db r.2) = webhooks (db w) ∧
  connectors (db r.2) = connectors (db w).
Proof.
  intros Hne r. subst r.
  destruct (set_permissions_tables c permissions w) as (Hf & Hw & Hc).
  split; [|done]. clear Hf Hw Hc.
  unfold setGoogleDriveConnectorPermissions.
  destruct (fetchById (db w) c) as [conn|]; [|done].
  assert (selected_rows (db (permissions_loop c permissions false w).2) c'
          = selected_rows (db w) c') as Hsel.
  { unfold selected_rows.
    generalize false. revert w.
    induction permissions as [|[id p] es IH]; intros w b; simpl; [done|].
    repeat case_decide; [| |done]; rewrite IH; simpl.
    - rewrite list_filter_filter. apply list_filter_iff.
      intros row. split; [by intros [? _]|]. intros Hrow.
      split; [done|]. intros [? _]. congruence.
    - case_decide; [done|]. rewrite filter_app.
      rewrite filter_cons_False by (simpl; congruence).
      by rewrite filter_nil, app_nil_r. }
  destruct (permissions_loop c permissions false w) as [[[]|e] w'];
    simpl in *; done.
Qed.

Lemma set_permissions_other_connectors_witness :
  let r := @setGoogleDriveConnectorPermissions Fixtures.engine_ok 1
             [("F1", "none"); ("F9", "bogus")] Fixtures.world1 in
  selected_rows (db r.2) 2 = selected_rows (db Fixtures.world1) 2 ∧
  files (db r.2) = files (db Fixtures.world1) ∧
  webhooks (db r.2) = webhooks (db Fixtures.world1) ∧
  connectors (db r.2) = connectors (db Fixtures.world1).
Proof.
  apply (@set_permissions_other_connectors Fixtures.engine_ok
           Fixtures.world1 1 2 [("F1", "none"); ("F9", "bogus")]).
  lia.
Defined.

(** X2: after a batch of valid entries with distinct ids, applied for an
    existing connector, the folder [id] is selected exactly when the
    batch grants it read, or does not name it and it was selected
    before. *)
Theorem set_permissions_selection `{WorkflowEngine} (w : World)
    (c : ModelId) (permissions : list (string * string)) (id : string) :
  is_Some (fetchById (db w) c) →
  Forall valid_permission permissions →
  NoDup (fst <$> permissions) →
  let r := setGoogleDriveConnectorPermissions c permissions w in
  folder_row c id ∈ folders (db r.2) ↔
  (id, "read") ∈ permissions ∨
  ((id ∉ fst <$> permissions) ∧ folder_row c id ∈ folders (db w)).
Proof.
  intros Hc Hvalid Hnodup r. subst r.
  rewrite (set_permissions_db c permissions w Hc).
  by apply permissions_loop_membership.
Qed.

Lemma set_permissions_selection_witness :
  let r := @setGoogleDriveConnectorPermissions Fixtures.engine_ok 1
             [("F1", "none"); ("F7", "read")] Fixtures.world1 in
  folder_row 1 "F3" ∈ folders (db r.2) ↔
  ("F3", "read") ∈ [("F1", "none"); ("F7", "read")] ∨
  (("F3" ∉ fst <$> [("F1", "none"); ("F7", "read")]) ∧
   folder_row 1 "F3" ∈ folders (db Fixtures.world1)).
Proof.
  apply (@set_permissions_selection Fixtures.engine_ok Fixtures.world1 1
           [("F1", "none"); ("F7", "read")] "F3").
  - eexists. vm_compute. reflexivity.
  - repeat (constructor; [unfold valid_permission; simpl; auto|]).
    constructor.
  - simpl. apply NoDup_cons. split.
    + intros Hin%list_elem_of_singleton. discriminate Hin.
    + apply NoDup_singleton.
Defined.

(** X3: a permission batch keeps the rows of the selected folders free
    of duplicates, whatever its entries. *)
Theorem set_permissions_keeps_rows_unique `{WorkflowEngine} (w : World)
    (c : ModelId) (permissions : list (string * string)) :
  NoDup (folders (db w)) →
  NoDup (folders (db (setGoogleDriveConnectorPermissions c permissions w).2)).
Proof.
  intros Hnodup. unfold setGoogleDriveConnectorPermissions.
  destruct (fetchById (db w) c) as [conn|]; [|done].
  pose proof (permissions_loop_NoDup c permissions false w Hnodup) as Hloop.
  destruct (permissions_loop c permissions false w) as [[[]|e] w'];
    simpl in *; done.
Qed.

Lemma set_permissions_keeps_rows_unique_witness :
  NoDup (folders (db (@setGoogleDriveConnectorPermissions Fixtures.engine_ok
                        1 [("F1", "read"); ("F7", "read")]
                        Fixtures.world1).2)).
Proof.
  apply (@set_permissions_keeps_rows_unique Fixtures.engine_ok
           Fixtures.world1 1 [("F1", "read"); ("F7", "read")]).
  simpl. apply NoDup_cons. split.
  - intros Hin%list_elem_of_singleton. discriminate Hin.
  - apply NoDup_singleton.
Defined.

Lemma filter_all {A} (P : A → Prop) `{∀ x, Decision (P x)} (l : list A) :
  Forall P l → filter P l = l.
Proof.
  induction 1 as [|x l Hx Hl IH]; [done|].
  rewrite filter_cons_True by done. by rewrite IH.
Qed.

(** X4: granting read on a folder and then revoking it leaves the
    selected folders without the row of that folder and otherwise as
    they were, so exactly as they were when the folder was not selected
    before; each of the two calls launches a full sync. *)
Theorem grant_then_revoke `{WorkflowEngine} (w : World) (c : ModelId)
    (A : string) :
  is_Some (fetchById (db w) c) →
  let granted := (setGoogleDriveConnectorPermissions c [(A, "read")] w).2 in
  let revoked :=
    (setGoogleDriveConnectorPermissions c [(A, "none")] granted).2 in
  folders (db revoked)
    = filter (λ f, f ≠ folder_row c A) (folders (db w)) ∧
  (folder_row c A ∉ folders (db w) →
   folders (db revoked) = folders (db w)) ∧
  workflows revoked = workflows w ++ [FullSync c None; FullSync c None].
Proof.
  intros [conn Hc] granted revoked. subst granted revoked.
  unfold setGoogleDriveConnectorPermissions. rewrite Hc. simpl.
  change (fetchById (folders_upsert c A (db w)) c)
    with (fetchById (db w) c).
  rewrite Hc. simpl.
  assert (∀ l : list GoogleDriveFolders,
    filter (λ f, ¬ (gdf_connectorId f = c ∧ folderId f = A)) l
    = filter (λ f, f ≠ folder_row c A) l) as Hfilter.
  { intros l. apply list_filter_iff. intros [c' id']. unfold folder_row.
    simpl. split.
    - intros Hne [= -> ->]. by apply Hne.
    - intros Hne [-> ->]. by apply Hne. }
  assert (filter (λ f, ¬ (gdf_connectorId f = c ∧ folderId f = A))
            (if decide (folder_row c A ∈ folders (db w))
             then folders (db w)
             else folders (db w) ++ [folder_row c A])
          = filter (λ f, f ≠ folder_row c A) (folders (db w))) as Hmain.
  { rewrite Hfilter. case_decide; [done|].
    rewrite filter_app, filter_cons_False by (by intros Hne).
    by rewrite filter_nil, app_nil_r. }
  split_and!.
  - exact Hmain.
  - intros Hout. etrans; [exact Hmain|].
    apply filter_all, Forall_forall. intros f Hf ->. done.
  - by rewrite <-app_assoc.
Qed.

Lemma grant_then_revoke_witness :
  let granted :=
    (@setGoogleDriveConnectorPermissions Fixtures.engine_ok 1
       [("F7", "read")] Fixtures.world1).2 in
  let revoked :=
    (@setGoogleDriveConnectorPermissions Fixtures.engine_ok 1
       [("F7", "none")] granted).2 in
  folders (db revoked)
    = filter (λ f, f ≠ folder_row 1 "F7") (folders (db Fixtures.world1)) ∧
  (folder_row 1 "F7" ∉ folders (db Fixtures.world1) →
   folders (db revoked) = folders (db Fixtures.world1)) ∧
  workflows revoked =
    workflows Fixtures.world1 ++ [FullSync 1 None; FullSync 1 None].
Proof.
  apply (@grant_then_revoke Fixtures.engine_ok Fixtures.world1 1 "F7").
  eexists. vm_compute. reflexivity.
Defined.

(** ** Listings and the selection *)

Lemma folder_permission_read st c id :
  folder_permission st c id = "read" ↔ folder_row c id ∈ folders st.
Proof.
  unfold folder_permission. rewrite list_elem_of_In.
  case_bool_decide as Hex; rewrite Exists_exists in Hex.
  - split; [|done]. intros _. destruct Hex as ([c' id'] & Hin & Hc & Hid).
    simpl in *. subst. by apply list_elem_of_In.
  - split; [done|]. intros Hin. destruct Hex.
    exists (folder_row c id). split; [by apply list_elem_of_In|done].
Qed.

Lemma folder_permission_none st c id :
  folder_permission st c id = "none" ↔ folder_row c id ∉ folders st.
Proof.
  rewrite <-folder_permission_read. unfold folder_permission.
  case_bool_decide; split; done.
Qed.

Section ListingFacts.
Context `{Host} `{DriveAPI} `{PermissionsLib}.

(** The ids of a successful read listing at the root. *)
Lemma read_root_ids fuel st connectorId c authCredentials nodes id :
  fetchById st connectorId = Some c →
  getAuthObject (connectionId c) = Normal authCredentials →
  retrieveGoogleDriveConnectorPermissions fuel st connectorId None
    (Some "read") = Normal (Ok nodes) →
  id ∈ internalId <$> nodes ↔
  folder_row connectorId id ∈ folders st ∧
  is_Some (remote_object authCredentials id).
Proof.
  intros Hc Hauth (c' & auth' & Hc' & Hauth' & _ & fds & Hfds & ->)
    %retrieve_Ok_inv.
  rewrite Hc in Hc'. injection Hc' as <-.
  rewrite Hauth in Hauth'. injection Hauth' as <-.
  rewrite (zip_with_remote_object _ _ _ authCredentials) by done.
  rewrite sort_Permutation, list_elem_of_fmap. split.
  - intros (node & -> & (f & Hf & Hnode)%list_elem_of_omap).
    apply list_elem_of_filter in Hf as [Hcid Hf].
    apply selected_folder_node_Some in Hnode as (o & Ho & Hid & _).
    rewrite Hid. split; [|by exists o].
    destruct f as [c' id']. simpl in *. by subst.
  - intros [Hrow [o Ho]].
    destruct (selected_folder_node st c connectorId
                (folder_row connectorId id)
                (remote_object authCredentials id)) as [node|] eqn:Hnode;
      [|by rewrite Ho in Hnode].
    exists node. split.
    + by apply selected_folder_node_Some in Hnode as (? & _ & Hid & _).
    + apply list_elem_of_omap. exists (folder_row connectorId id).
      split; [|done]. by apply list_elem_of_filter.
Qed.

Lemma remote_node_permission st c connectorId driveObject node :
  remote_node st c connectorId driveObject = Normal node →
  internalId node = obj_id driveObject ∧
  title node = obj_name driveObject ∧
  parentInternalId node = obj_parent driveObject ∧
  permission node = folder_permission st connectorId (internalId node) ∧
  folderHasChildren connectorId (obj_id driveObject)
    = Normal (expandable node).
Proof.
  unfold remote_node. by intros (e & He & [= <-])%bind_Normal_inv.
Qed.

(** What a successful listing without filter is made of. *)
Lemma retrieve_discover_inv fuel st connectorId parent nodes :
  retrieveGoogleDriveConnectorPermissions fuel st connectorId parent None
    = Normal (Ok nodes) →
  ∃ l, nodes = sort by_title l ∧
       Forall (λ node,
                 permission node
                   = folder_permission st connectorId (internalId node))
              l.
Proof.
  unfold retrieveGoogleDriveConnectorPermissions.
  destruct (fetchById st connectorId) as [c|]; [|done].
  intros (auth & Hauth & Hrest)%bind_Normal_inv.
  destruct parent as [parentInternalId|].
  - apply bind_Normal_inv in Hrest as (rfs & _ & Hrest).
    apply bind_Normal_inv in Hrest as (l & Hmap & [= <-]).
    exists l. split; [done|].
    apply mapM_Normal_inv in Hmap.
    induction Hmap as [|rf n rfs' l Hn _ IH]; constructor; [|done].
    apply bind_Normal_inv in Hn as (o & _ & Hn).
    by apply remote_node_permission in Hn as (_ & _ & _ & ? & _).
  - apply bind_Normal_inv in Hrest as (drives & _ & Hrest).
    apply bind_Normal_inv in Hrest as (l & Hmap & [= <-]).
    exists l. split; [done|].
    apply mapM_Normal_inv in Hmap.
    induction Hmap as [|d n ds l Hn _ IH]; constructor; [|done].
    apply bind_Normal_inv in Hn as ([o|] & _ & Hn); [|done].
    by apply remote_node_permission in Hn as (_ & _ & _ & ? & _).
Qed.
End ListingFacts.

(** X5: after a batch of valid entries with distinct ids, a successful
    read listing at the root shows the folder [id] exactly when the batch
    granted it read, or did not name it and it was selected before, and
    the remote side has it. A folder the batch revoked is not listed. *)
Theorem read_root_listing_after_batch `{Host} `{DriveAPI} `{PermissionsLib}
    `{WorkflowEngine} (fuel : nat) (w : World) (connectorId : ModelId)
    (c : ConnectorModel) (authCredentials : AuthCredentials)
    (permissions : list (string * string)) (nodes : list ConnectorNode)
    (id : string) :
  fetchById (db w) connectorId = Some c →
  getAuthObject (connectionId c) = Normal authCredentials →
  Forall valid_permission permissions →
  NoDup (fst <$> permissions) →
  let w' :=
    (setGoogleDriveConnectorPermissions connectorId permissions w).2 in
  retrieveGoogleDriveConnectorPermissions fuel (db w') connectorId None
    (Some "read") = Normal (Ok nodes) →
  (id ∈ internalId <$> nodes ↔
   ((id, "read") ∈ permissions ∨
    ((id ∉ fst <$> permissions) ∧
     folder_row connectorId id ∈ folders (db w))) ∧
   is_Some (remote_object authCredentials id)) ∧
  ((id, "none") ∈ permissions → id ∉ internalId <$> nodes).
Proof.
  intros Hc Hauth Hvalid Hnodup w' Hlisting.
  assert (fetchById (db w') connectorId = Some c) as Hc'.
  { subst w'. unfold fetchById.
    destruct (set_permissions_tables connectorId permissions w)
      as (_ & _ & ->). done. }
  assert (id ∈ internalId <$> nodes ↔
          ((id, "read") ∈ permissions ∨
           ((id ∉ fst <$> permissions) ∧
            folder_row connectorId id ∈ folders (db w))) ∧
          is_Some (remote_object authCredentials id)) as Hiff.
  { rewrite (read_root_ids fuel (db w') connectorId c authCredentials)
      by done.
    subst w'. rewrite (set_permissions_db connectorId permissions w)
      by (by rewrite Hc).
    by rewrite permissions_loop_membership. }
  split; [exact Hiff|].
  intros Hnone Hin. apply Hiff in Hin as [[Hread|[Hout _]] _].
  - assert (("read" : string) = "none") as Heq; [|discriminate Heq].
    by eapply (distinct_keys_one_value permissions id).
  - apply Hout. apply list_elem_of_fmap. by exists (id, "none").
Qed.

Lemma read_root_listing_after_batch_witness :
  ("F3" ∈ internalId <$> MoreFixtures.selected_after_batch ↔
   (("F3", "read") ∈ [("F3", "none"); ("F1", "read")] ∨
    (("F3" ∉ fst <$> [("F3", "none"); ("F1", "read")]) ∧
     folder_row 1 "F3" ∈ folders (db Fixtures.world1))) ∧
   is_Some (@remote_object Fixtures.drive1 () "F3")) ∧
  (("F3", "none") ∈ [("F3", "none"); ("F1", "read")] →
   "F3" ∉ internalId <$> MoreFixtures.selected_after_batch).
Proof.
  apply (@read_root_listing_after_batch Fixtures.node_host Fixtures.drive1
           Fixtures.permissions_lib Fixtures.engine_ok 1%nat
           Fixtures.world1 1 Fixtures.connector1 ()
           [("F3", "none"); ("F1", "read")]
           MoreFixtures.selected_after_batch "F3").
  - vm_compute. reflexivity.
  - reflexivity.
  - repeat (constructor; [unfold valid_permission; simpl; auto|]).
    constructor.
  - simpl. apply NoDup_cons. split.
    + intros Hin%list_elem_of_singleton. discriminate Hin.
    + apply NoDup_singleton.
  - vm_compute. reflexivity.
Defined.

(** X6: in a successful listing without filter, of the remote drives or
    of the remote folders under a parent, a node has the permission read
    exactly when its id is a selected folder of the connector, and the
    permission none otherwise. *)
Theorem discover_listing_permissions `{Host} `{DriveAPI} `{PermissionsLib}
    (fuel : nat) (st : Store) (connectorId : ModelId)
    (parent : option string) (nodes : list ConnectorNode) :
  retrieveGoogleDriveConnectorPermissions fuel st connectorId parent None
    = Normal (Ok nodes) →
  Forall (λ node,
            (permission node = "read" ↔
             folder_row connectorId (internalId node) ∈ folders st) ∧
            (permission node = "none" ↔
             folder_row connectorId (internalId node) ∉ folders st))
         nodes.
Proof.
  intros (l & -> & Hl)%retrieve_discover_inv.
  rewrite sort_Permutation.
  eapply Forall_impl; [exact Hl|]. intros node ->.
  split; [apply folder_permission_read|apply folder_permission_none].
Qed.

Lemma discover_listing_permissions_witness :
  Forall (λ node,
            (permission node = "read" ↔
             folder_row 1 (internalId node) ∈ folders Fixtures.store1) ∧
            (permission node = "none" ↔
             folder_row 1 (internalId node) ∉ folders Fixtures.store1))
         MoreFixtures.drives_of_1.
Proof.
  apply (@discover_listing_permissions Fixtures.node_host Fixtures.drive1
           Fixtures.permissions_lib 1%nat Fixtures.store1 1 None
           MoreFixtures.drives_of_1).
  vm_compute. reflexivity.
Defined.

(** X7: a successful read listing under a parent has one node per
    mirrored row of the connector with that parent, no more and no less,
    and a node is expandable exactly when a mirrored row of the connector
    has it as parent. *)
Theorem children_listing_rows `{Host} `{DriveAPI} `{PermissionsLib}
    (fuel : nat) (st : Store) (connectorId : ModelId) (c : ConnectorModel)
    (parentInternalId' : string) (nodes : list ConnectorNode) :
  fetchById st connectorId = Some c →
  retrieveGoogleDriveConnectorPermissions fuel st connectorId
    (Some parentInternalId') (Some "read") = Normal (Ok nodes) →
  nodes ≡ₚ mirrored_node st c connectorId <$>
             child_rows st connectorId parentInternalId' ∧
  internalId <$> nodes ≡ₚ
    driveFileId <$> child_rows st connectorId parentInternalId' ∧
  Forall (λ node,
            expandable node = true ↔
            ∃ f, f ∈ files st ∧ file_connectorId f = connectorId ∧
                 parentId f = Some (internalId node))
         nodes.
Proof.
  intros Hc (c' & auth & Hc' & _ & _ & ->)%retrieve_Ok_inv.
  rewrite Hc in Hc'. injection Hc' as <-.
  assert (sort folders_first
            (mirrored_node st c connectorId <$>
               child_rows st connectorId parentInternalId')
          ≡ₚ mirrored_node st c connectorId <$>
               child_rows st connectorId parentInternalId') as Hperm
    by apply sort_Permutation.
  split_and!; [done| |].
  - rewrite Hperm, <-list_fmap_compose. done.
  - rewrite Hperm. apply Forall_forall.
    intros node (f & -> & _)%list_elem_of_fmap. simpl.
    unfold has_mirrored_child. rewrite bool_decide_eq_true, Exists_exists.
    split; intros (g & Hg & ? & ?); by exists g.
Qed.

Lemma children_listing_rows_witness :
  Fixtures.children_of_F1 ≡ₚ
    @mirrored_node Fixtures.permissions_lib Fixtures.store1
      Fixtures.connector1 1 <$> child_rows Fixtures.store1 1 "F1" ∧
  internalId <$> Fixtures.children_of_F1 ≡ₚ
    driveFileId <$> child_rows Fixtures.store1 1 "F1" ∧
  Forall (λ node,
            expandable node = true ↔
            ∃ f, f ∈ files Fixtures.store1 ∧ file_connectorId f = 1 ∧
                 parentId f = Some (internalId node))
         Fixtures.children_of_F1.
Proof.
  apply (@children_listing_rows Fixtures.node_host Fixtures.drive1
           Fixtures.permissions_lib 1%nat Fixtures.store1 1
           Fixtures.connector1 "F1" Fixtures.children_of_F1).
  - vm_compute. reflexivity.
  - vm_compute. reflexivity.
Defined.

(** ** Remote failures *)

(** When every call is fulfilled or rejects with the error [err x] of an
    element [x] that satisfies [P], and some element satisfies [P], the
    whole rejects with the error of such an element. *)
Lemma mapM_Throw {A B} (f : A → Completion B) (P : A → Prop)
    (err : A → Error) (xs : list A) :
  Forall (λ x, (¬ P x ∧ ∃ v, f x = Normal v) ∨
               (P x ∧ f x = Throw (err x))) xs →
  Exists P xs →
  ∃ x, x ∈ xs ∧ P x ∧ mapM f xs = Throw (err x).
Proof.
  induction 1 as [|x xs [[Hx [v Hv]]|[Hx He]] _ IH]; intros Hex.
  - by apply Exists_nil in Hex.
  - apply Exists_cons in Hex as [?|Hex]; [done|].
    destruct (IH Hex) as (y & Hy & HP & Hthrow).
    exists y. split_and!; [by right|done|]. simpl. by rewrite Hv, Hthrow.
  - exists x. split_and!; [by left|done|]. simpl. by rewrite He.
Qed.

(** X8: the listing of the remote drives rejects when the remote side
    does not have one of the drives it named and every call returns: the
    error names a drive that the remote side does not have, the one that
    is missing when there is one only, and no node is returned, not even
    for the drives found. *)
Theorem discover_root_missing_drive_rejects `{Host} `{DriveAPI}
    `{PermissionsLib} (fuel : nat) (st : Store) (connectorId : ModelId)
    (c : ConnectorModel) (authCredentials : AuthCredentials)
    (drives : list string) :
  let missing d := getGoogleDriveObject authCredentials d = Normal None in
  let listing :=
    retrieveGoogleDriveConnectorPermissions fuel st connectorId None None in
  let not_found d :=
    new_Error ("Drive " +:+ d +:+ " unexpectedly not found (got 404).") in
  fetchById st connectorId = Some c →
  getAuthObject (connectionId c) = Normal authCredentials →
  getDrivesIds (connector_id c) = Normal drives →
  Forall (λ d, missing d ∨
               ∃ o e,
                 getGoogleDriveObject authCredentials d = Normal (Some o) ∧
                 folderHasChildren connectorId (obj_id o) = Normal e)
         drives →
  Exists missing drives →
  (∃ d, d ∈ drives ∧ missing d ∧ listing = Throw (not_found d)) ∧
  (∀ d, (∀ d', d' ∈ drives → missing d' → d' = d) →
        listing = Throw (not_found d)).
Proof.
  intros missing listing not_found Hc Hauth Hdrives Hall Hex.
  assert (∃ d, d ∈ drives ∧ missing d ∧ listing = Throw (not_found d))
    as (d & Hin & Hd & Hthrow).
  { subst listing. unfold retrieveGoogleDriveConnectorPermissions.
    rewrite Hc, Hauth. simpl. rewrite Hdrives. simpl.
    match goal with
    | |- context [mapM ?f drives] =>
        destruct (mapM_Throw f missing not_found drives)
          as (d & Hin & Hd & Hthrow); [|done|]
    end.
    - eapply Forall_impl; [exact Hall|].
      intros d [Hd|(o & e & Ho & He)]; simpl.
      + right. split; [done|]. unfold missing in Hd. by rewrite Hd.
      + left. split; [unfold missing; congruence|].
        rewrite Ho. simpl. unfold remote_node. rewrite He. simpl.
        by eexists.
    - exists d. split_and!; [done..|]. by rewrite Hthrow. }
  split; [by exists d|].
  intros d' Honly. by rewrite <-(Honly d Hin Hd).
Qed.

Lemma discover_root_missing_drive_rejects_witness :
  let missing d :=
    @getGoogleDriveObject MoreFixtures.drive_with_ghost () d
    = Normal None in
  let listing :=
    @retrieveGoogleDriveConnectorPermissions Fixtures.node_host
      MoreFixtures.drive_with_ghost Fixtures.permissions_lib 1%nat
      Fixtures.store1 1 None None in
  let not_found d :=
    new_Error ("Drive " +:+ d +:+ " unexpectedly not found (got 404).") in
  (∃ d, d ∈ ["D1"; "D2"] ∧ missing d ∧ listing = Throw (not_found d)) ∧
  (∀ d, (∀ d', d' ∈ ["D1"; "D2"] → missing d' → d' = d) →
        listing = Throw (not_found d)).
Proof.
  apply (@discover_root_missing_drive_rejects Fixtures.node_host
           MoreFixtures.drive_with_ghost Fixtures.permissions_lib 1%nat
           Fixtures.store1 1 Fixtures.connector1 () ["D1"; "D2"]).
  - vm_compute. reflexivity.
  - reflexivity.
  - reflexivity.
  - constructor; [|constructor; [|constructor]].
    + right. exists (Fixtures.remote_folder "D1" "Shared"), false.
      by split.
    + by left.
  - apply Exists_cons; right. apply Exists_cons; left. reflexivity.
Defined.

(** X9: the page loop of the children listing merges the files of the
    pages in the order it reads them, after the files it already holds,
    and stops at the first response without a token for a next page (an
    empty token counts as none); a response with another status than 200
    or without a list of files, on whatever page, makes the loop reject
    and drops the files read so far. *)
Theorem page_loop_merges_pages `{DriveAPI}
    (authCredentials : AuthCredentials) (parentInternalId : string)
    (token : option string) (pages : list (list Schema_File))
    (last : FileListResponse Schema_File) (fuel : nat)
    (remoteFolders : list Schema_File) :
  reads_pages authCredentials (children_query parentInternalId) token
    pages last →
  (length pages < fuel)%nat →
  let result :=
    list_remote_folders fuel authCredentials parentInternalId token
      remoteFolders in
  (status last ≠ 200 →
   result = Throw (new_Error ("Error getting files. status_code: " +:+
                              pretty (status last) +:+ ". status_text: " +:+
                              statusText last))) ∧
  (status last = 200 → data_files last = None →
   result = Throw (new_Error "Files list is undefined")) ∧
  (∀ fs, status last = 200 → data_files last = Some fs →
         str_or_null (data_nextPageToken last) = None →
         result = Normal (remoteFolders ++ concat pages ++ fs)).
Proof.
  intros Hreads. revert fuel remoteFolders.
  induction Hreads as [token last Hlast
                      |token res fs next pages last Hres Hst Hfs Hnext _ IH];
    intros fuel acc Hfuel result; subst result;
    (destruct fuel as [|fuel]; [simpl in Hfuel; lia|]); simpl;
    fold (children_query parentInternalId).
  - rewrite Hlast. simpl. split_and!.
    + intros Hst. by rewrite decide_True.
    + intros Hst ->. rewrite decide_False; [done|]. by intros [].
    + intros fs Hst -> ->. rewrite decide_False; [done|]. by intros [].
  - rewrite Hres. simpl. rewrite decide_False by (by intros []).
    rewrite Hfs, Hnext.
    assert (length pages < fuel)%nat as Hlt by (simpl in Hfuel; lia).
    pose proof (IH fuel (acc ++ fs) Hlt) as (H1 & H2 & H3).
    split_and!; [done..|].
    intros fs' ???. rewrite (H3 fs') by done. simpl. by rewrite <-!app_assoc.
Qed.

Lemma page_loop_merges_pages_witness :
  let last : FileListResponse GoogleDriveObjectType :=
    {| status := 200; statusText := "OK";
       data_files := Some [Fixtures.remote_folder "B" "b"];
       data_nextPageToken := Some "" |} in
  let result :=
    @list_remote_folders MoreFixtures.drive_two_pages 2 () "F1" None [] in
  (status last ≠ 200 →
   result = Throw (new_Error ("Error getting files. status_code: " +:+
                              pretty (status last) +:+ ". status_text: " +:+
                              statusText last))) ∧
  (status last = 200 → data_files last = None →
   result = Throw (new_Error "Files list is undefined")) ∧
  (∀ fs, status last = 200 → data_files last = Some fs →
         str_or_null (data_nextPageToken last) = None →
         result = Normal ([] ++ concat [[Fixtures.remote_folder "A" "a"]]
                             ++ fs)).
Proof.
  apply (@page_loop_merges_pages MoreFixtures.drive_two_pages () "F1" None
           [[Fixtures.remote_folder "A" "a"]]).
  - eapply (@reads_next MoreFixtures.drive_two_pages);
      [reflexivity..|].
    apply (@reads_last MoreFixtures.drive_two_pages). reflexivity.
  - simpl. lia.
Defined.

(** ** What the webhook endpoint leaves alone *)

Lemma handler_effects `{Host} `{WorkflowEngine} (req : Request)
    (w : World) :
  let r := _webhookGoogleDriveAPIHandler req w in
  db r.2 = db w ∧
  (workflows r.2 = workflows w ∨
   ∃ n c, n ≠ 0 ∧ fetchById (db w) n = Some c ∧ paused c = false ∧
          workflows r.2 = workflows w ++ [IncrementalSync n]) ∧
  (status_code r.1 = 200 →
   ∃ channelId n c,
     has_channel_id req channelId ∧
     resolve_connectorId (findOne_webhook (db w) channelId) req = Some n ∧
     fetchById (db w) n = Some c).
Proof.
  intros r.
  destruct (x_goog_channel_id req) as [ch|] eqn:Hch;
    [destruct (decide (ch = "")) as [->|Hne]|].
  - subst r. rewrite handler_missing_channel.
    + split_and!; [done|by left|discriminate].
    + intros ch [Hc Hn]. congruence.
  - assert (has_channel_id req ch) as Hhas by done.
    destruct (resolve_connectorId (findOne_webhook (db w) ch) req)
      as [n|] eqn:Hres;
      [destruct (decide (n = 0)) as [->|Hn0]|].
    + subst r. rewrite (handler_unresolved req w ch) by auto.
      split_and!; [done|by left|discriminate].
    + subst r. rewrite (handler_resolved req w ch n) by done. simpl.
      destruct (fetchById (db w) n) as [c|] eqn:Hc;
        [|split_and!; [done|by left|discriminate]].
      destruct (paused c) eqn:Hpaused.
      * split_and!; [done|by left|]. intros _. by exists ch, n, c.
      * assert (∃ n0 c0, n0 ≠ 0 ∧ fetchById (db w) n0 = Some c0 ∧
                  paused c0 = false ∧
                  workflows w ++ [IncrementalSync n]
                  = workflows w ++ [IncrementalSync n0]) as Hlaunch
          by (by exists n, c).
        destruct (launchGoogleDriveIncrementalSyncWorkflow n)
          as [?|[[] ?]]; simpl;
          (split_and!; [done|by right|]); intros _; by exists ch, n, c.
    + subst r. rewrite (handler_unresolved req w ch) by auto.
      split_and!; [done|by left|discriminate].
  - subst r. rewrite handler_missing_channel.
    + split_and!; [done|by left|discriminate].
    + intros ch [Hc Hn]. congruence.
Qed.

(** X10: whatever the request, the webhook endpoint leaves the tables as
    they are and hands at most one workflow to the engine: the
    incremental sync of a connector that exists and is not paused; it
    answers 200 only for a connector that exists. *)
Theorem webhook_handler_effects `{Host} `{WorkflowEngine} (req : Request)
    (w : World) :
  let r := _webhookGoogleDriveAPIHandler req w in
  db r.2 = db w ∧
  (workflows r.2 = workflows w ∨
   ∃ n c, n ≠ 0 ∧ fetchById (db w) n = Some c ∧ paused c = false ∧
          workflows r.2 = workflows w ++ [IncrementalSync n]) ∧
  (status_code r.1 = 200 →
   ∃ channelId n c,
     has_channel_id req channelId ∧
     resolve_connectorId (findOne_webhook (db w) channelId) req = Some n ∧
     fetchById (db w) n = Some c).
Proof. apply handler_effects. Qed.



(** ** Configuration *)

Import GoogleDriveAdmin.

Lemma findOne_config_update c v d cfg :
  findOne_config d c = Some cfg →
  findOne_config (update_config c v d) c
    = Some {| cfg_connectorId := cfg_connectorId cfg; pdfEnabled := v |}.
Proof.
  unfold findOne_config, update_config. simpl.
  destruct (list_find _ (configs d)) as [[i cfg']|] eqn:Hfind; [|done].
  simpl. intros [= ->].
  apply list_find_Some in Hfind as (Hi & Hc & Hbefore).
  assert (list_find (λ cfg0, cfg_connectorId cfg0 = c)
            (<[i:={| cfg_connectorId := cfg_connectorId cfg;
                     pdfEnabled := v |}]> (configs d))
          = Some (i, {| cfg_connectorId := cfg_connectorId cfg;
                        pdfEnabled := v |})) as ->; [|done].
  apply list_find_Some. split_and!.
  - apply list_lookup_insert_eq. by eapply lookup_lt_Some.
  - done.
  - intros j y Hj Hlt. rewrite list_lookup_insert_ne in Hj by lia.
    by eapply Hbefore.
Qed.

Lemma findOne_config_update_other c c' v d :
  c' ≠ c →
  findOne_config (update_config c v d) c' = findOne_config d c'.
Proof.
  intros Hne. unfold findOne_config, update_config. simpl.
  destruct (list_find (λ cfg, cfg_connectorId cfg = c) (configs d))
    as [[i cfg]|] eqn:Hfind; [|done].
  apply list_find_Some in Hfind as (Hi & Hc & _).
  destruct (list_find (λ cfg0, cfg_connectorId cfg0 = c') (configs d))
    as [[j cfg']|] eqn:Hfind'.
  - apply list_find_Some in Hfind' as (Hj & Hc' & Hbefore).
    assert (i ≠ j) as Hij by (intros ->; congruence).
    assert (list_find (λ cfg0, cfg_connectorId cfg0 = c')
              (<[i:={| cfg_connectorId := cfg_connectorId cfg;
                       pdfEnabled := v |}]> (configs d))
            = Some (j, cfg')) as ->; [|done].
    apply list_find_Some. split_and!; [|done|].
    + by rewrite list_lookup_insert_ne.
    + intros k y Hk Hlt.
      destruct (decide (k = i)) as [->|Hki].
      * rewrite list_lookup_insert_eq in Hk by (by eapply lookup_lt_Some).
        injection Hk as <-. simpl. congruence.
      * rewrite list_lookup_insert_ne in Hk by done. by eapply Hbefore.
  - assert (list_find (λ cfg0, cfg_connectorId cfg0 = c')
              (<[i:={| cfg_connectorId := cfg_connectorId cfg;
                       pdfEnabled := v |}]> (configs d)) = None) as ->;
      [|done].
    apply list_find_None, Forall_forall. intros y Hy.
    apply list_elem_of_lookup in Hy as [k Hk].
    rewrite list_find_None, Forall_forall in Hfind'.
    destruct (decide (k = i)) as [->|Hki].
    + rewrite list_lookup_insert_eq in Hk by (by eapply lookup_lt_Some).
      injection Hk as <-. simpl. congruence.
    + rewrite list_lookup_insert_ne in Hk by done.
      apply Hfind'. by eapply list_elem_of_lookup_2.
Qed.

(** X12: setting [pdfEnabled] to true or false for a connector that has
    a configuration is read back by [getGoogleDriveConfig], launches one
    full sync, and answers what the launch answers: the value is stored
    even when the launch fails. *)
Theorem config_set_then_get `{WorkflowEngine} (s : System)
    (connectorId : ModelId) (configValue : string) :
  is_Some (fetchById (tables (data s)) connectorId) →
  is_Some (findOne_config (data s) connectorId) →
  configValue = "true" ∨ configValue = "false" →
  let r := setGoogleDriveConfig connectorId "pdfEnabled" configValue s in
  getGoogleDriveConfig (data r.2) connectorId "pdfEnabled" = Ok configValue ∧
  launched r.2 = launched s ++ [FullSync connectorId None] ∧
  r.1 = match launchGoogleDriveFullSyncWorkflow connectorId None with
        | Ok _ => Ok ()
        | Err e => Err e
        end.
Proof.
  intros [conn Hc] [cfg Hcfg] Hv r. subst r.
  unfold setGoogleDriveConfig. rewrite Hc, Hcfg.
  rewrite decide_True by done.
  rewrite decide_True by (destruct Hv as [-> | ->]; set_solver).
  assert (getGoogleDriveConfig
            (update_config connectorId (bool_decide (configValue = "true"))
               (data s)) connectorId "pdfEnabled" = Ok configValue) as Hget.
  { unfold getGoogleDriveConfig.
    change (fetchById (tables (update_config _ _ (data s))) connectorId)
      with (fetchById (tables (data s)) connectorId).
    rewrite Hc, (findOne_config_update _ _ _ cfg Hcfg). simpl.
    by destruct Hv as [-> | ->]. }
  destruct (launchGoogleDriveFullSyncWorkflow connectorId None); done.
Qed.

Lemma config_set_then_get_witness :
  let r := @setGoogleDriveConfig Fixtures.engine_ok 1 "pdfEnabled" "true"
             MoreFixtures.system1 in
  getGoogleDriveConfig (data r.2) 1 "pdfEnabled" = Ok "true" ∧
  launched r.2 = launched MoreFixtures.system1 ++ [FullSync 1 None] ∧
  r.1 = match @launchGoogleDriveFullSyncWorkflow Fixtures.engine_ok 1 None
        with
        | Ok _ => Ok ()
        | Err e => Err e
        end.
Proof.
  apply (@config_set_then_get Fixtures.engine_ok MoreFixtures.system1 1
           "true").
  - eexists. vm_compute. reflexivity.
  - eexists. vm_compute. reflexivity.
  - by left.
Defined.

(** X13: [setGoogleDriveConfig] with another key than [pdfEnabled], or
    with a value that is neither true nor false, answers an error and
    changes nothing: no row is written and no sync is launched. *)
Theorem config_set_rejects_invalid `{WorkflowEngine} (s : System)
    (connectorId : ModelId) (configKey configValue : string) :
  configKey ≠ "pdfEnabled" ∨
  (configValue ≠ "true" ∧ configValue ≠ "false") →
  let r := setGoogleDriveConfig connectorId configKey configValue s in
  isErr r.1 = true ∧ r.2 = s ∧
  (is_Some (fetchById (tables (data s)) connectorId) →
   is_Some (findOne_config (data s) connectorId) →
   r.1 = Err (new_Error
     (if decide (configKey = "pdfEnabled")
      then "Invalid config value " +:+ configValue +:+
           ", must be true or false"
      else "Invalid config key " +:+ configKey))).
Proof.
  intros Hbad r. subst r. unfold setGoogleDriveConfig.
  destruct (fetchById (tables (data s)) connectorId) as [conn|];
    [|by split_and!; [..|intros []]].
  destruct (findOne_config (data s) connectorId) as [cfg|];
    [|by split_and!; [..|intros _ []]].
  destruct (decide (configKey = "pdfEnabled")) as [->|Hkey]; [|done].
  destruct Hbad as [?|[Ht Hf]]; [done|].
  rewrite decide_False; [done|].
  intros [->|[->|[]%elem_of_nil]%elem_of_cons]%elem_of_cons; done.
Qed.

Lemma config_set_rejects_invalid_witness :
  let r := @setGoogleDriveConfig Fixtures.engine_ok 1 "pdfEnabled" "True"
             MoreFixtures.system1 in
  isErr r.1 = true ∧ r.2 = MoreFixtures.system1 ∧
  (is_Some (fetchById (tables (data MoreFixtures.system1)) 1) →
   is_Some (findOne_config (data MoreFixtures.system1) 1) →
   r.1 = Err (new_Error
     (if decide ("pdfEnabled" = "pdfEnabled")
      then "Invalid config value " +:+ "True" +:+
           ", must be true or false"
      else "Invalid config key " +:+ "pdfEnabled"))).
Proof.
  apply (@config_set_rejects_invalid Fixtures.engine_ok MoreFixtures.system1
           1 "pdfEnabled" "True").
  right. split; discriminate.
Defined.

(** X14: setting the configuration of a connector changes what
    [getGoogleDriveConfig] answers for no other connector, and no other
    table. *)
Theorem config_set_other_connectors `{WorkflowEngine} (s : System)
    (connectorId other : ModelId) (configKey configValue key : string) :
  other ≠ connectorId →
  let r := setGoogleDriveConfig connectorId configKey configValue s in
  getGoogleDriveConfig (data r.2) other key
    = getGoogleDriveConfig (data s) other key ∧
  tables (data r.2) = tables (data s) ∧
  syncTokens (data r.2) = syncTokens (data s).
Proof.
  intros Hne r. subst r. unfold setGoogleDriveConfig.
  destruct (fetchById (tables (data s)) connectorId) as [conn|]; [|done].
  destruct (findOne_config (data s) connectorId) as [cfg|]; [|done].
  destruct (decide (configKey = "pdfEnabled")); [|done].
  destruct (decide (configValue ∈ ["true"; "false"])); [|done].
  assert (getGoogleDriveConfig
            (update_config connectorId (bool_decide (configValue = "true"))
               (data s)) other key
          = getGoogleDriveConfig (data s) other key) as Hget.
  { unfold getGoogleDriveConfig.
    change (fetchById (tables (update_config _ _ (data s))) other)
      with (fetchById (tables (data s)) other).
    by rewrite findOne_config_update_other. }
  destruct (launchGoogleDriveFullSyncWorkflow connectorId None);
    (split_and!; [exact Hget|done..]).
Qed.

Lemma config_set_other_connectors_witness :
  let r := @setGoogleDriveConfig Fixtures.engine_ok 1 "pdfEnabled" "true"
             MoreFixtures.system1 in
  getGoogleDriveConfig (data r.2) 2 "pdfEnabled"
    = getGoogleDriveConfig (data MoreFixtures.system1) 2 "pdfEnabled" ∧
  tables (data r.2) = tables (data MoreFixtures.system1) ∧
  syncTokens (data r.2) = syncTokens (data MoreFixtures.system1).
Proof.
  apply (@config_set_other_connectors Fixtures.engine_ok
           MoreFixtures.system1 1 2 "pdfEnabled" "true" "pdfEnabled").
  lia.
Defined.

(** ** Teardown *)

(** Looking a row up after rows that cannot match were filtered out. *)
Lemma list_find_filter {A} (P Q : A → Prop) `{∀ x, Decision (P x)}
    `{∀ x, Decision (Q x)} (l : list A) :
  (∀ x, P x → Q x) →
  list_find P (filter Q l) ≫= (λ p, Some p.2)
  = list_find P l ≫= (λ p, Some p.2).
Proof.
  intros HPQ. induction l as [|x l IH]; [done|].
  destruct (decide (Q x)) as [HQ|HQ].
  - rewrite filter_cons_True by done. simpl.
    destruct (decide (P x)); [done|].
    destruct (list_find P (filter Q l)) as [[i y]|],
             (list_find P l) as [[j z]|]; simpl in *; done.
  - rewrite filter_cons_False by done. simpl.
    rewrite decide_False by (intros HP; by apply HQ, HPQ).
    rewrite IH. by destruct (list_find P l) as [[j z]|].
Qed.

Lemma list_find_filter_none {A} (P Q : A → Prop) `{∀ x, Decision (P x)}
    `{∀ x, Decision (Q x)} (l : list A) :
  (∀ x, P x → ¬ Q x) → list_find P (filter Q l) = None.
Proof.
  intros HPQ. apply list_find_None, Forall_forall.
  intros x [HQ _]%list_elem_of_filter HP. by apply (HPQ x).
Qed.

Lemma filter_filter_other {A} (P Q : A → Prop) `{∀ x, Decision (P x)}
    `{∀ x, Decision (Q x)} (l : list A) :
  (∀ x, P x → Q x) → filter P (filter Q l) = filter P l.
Proof.
  intros HPQ. rewrite list_filter_filter. apply list_filter_iff.
  intros x. split; [by intros [? _]|]. intros HP. split; [done|by apply HPQ].
Qed.

Section TeardownFacts.
Context `{OAuthAPI}.

Lemma delete_and_destroy_data connectorId connector force s :
  let r := delete_and_destroy connectorId connector force s in
  (r.1 = Normal (Ok ()) ∧ data r.2 = destroy_connector connectorId (data s))
  ∨ (r.1 ≠ Normal (Ok ()) ∧ data r.2 = data s).
Proof.
  unfold delete_and_destroy.
  destruct getRequiredNangoGoogleDriveConnectorId as [provider| |];
    [|by right..].
  destruct (nangoDeleteConnection _ _) as [[?|e]| |]; simpl;
    [by left| |by right..].
  destruct force; simpl; [by left|by right].
Qed.

Lemma revoke_attempt_data connector force s :
  data (revoke_attempt connector force s).2 = data s ∧
  nango_deletions (revoke_attempt connector force s).2 = nango_deletions s ∧
  ∀ r, (revoke_attempt connector force s).1 = Returned r →
       r = Err (new_Error "Could not revoke token").
Proof.
  unfold revoke_attempt.
  destruct (getGoogleCredentials_refresh_token _) as [token| |]; [|done..].
  destruct (revokeToken token) as [st| |]; [|done..].
  case_decide; [|done]. destruct force; simpl; [done|].
  split_and!; [done..|]. by intros r [= <-].
Qed.

(** The teardown destroys the rows after the last call that can fail:
    either it succeeds and the database is the one without the connector,
    or it does not and the database is as before. *)
Lemma cleanup_data connectorId force s :
  let r := cleanupGoogleDriveConnector connectorId force s in
  (r.1 = Normal (Ok ()) ∧ data r.2 = destroy_connector connectorId (data s))
  ∨ (r.1 ≠ Normal (Ok ()) ∧ data r.2 = data s).
Proof.
  unfold cleanupGoogleDriveConnector.
  destruct (fetchById _ _) as [connector|]; [|by right].
  destruct getRequiredGoogleDriveClientId as [?| |]; [|by right..].
  destruct getRequiredGoogleDriveClientSecret as [?| |]; [|by right..].
  destruct (revoke_attempt_data connector force s) as (Hdata & _ & Hret).
  destruct (revoke_attempt connector force s) as [[|r|e|] s']; simpl in *.
  - rewrite <-Hdata. apply delete_and_destroy_data.
  - right. split; [|done]. by rewrite (Hret r eq_refl).
  - destruct force; simpl; [|by right].
    rewrite <-Hdata.
    apply (delete_and_destroy_data connectorId connector true
             (sys_log "Error revoking token" s')).
  - by right.
Qed.
End TeardownFacts.

(** X15: the teardown is all or nothing on the database. When it
    answers [Ok], the connector is gone and no selected folder, mirrored
    file, webhook or sync token of it is left; with any other outcome the
    database is as it was. *)
Theorem cleanup_all_or_nothing `{OAuthAPI} (s : System)
    (connectorId : ModelId) (force : bool) :
  let r := cleanupGoogleDriveConnector connectorId force s in
  (r.1 = Normal (Ok ()) →
   fetchById (tables (data r.2)) connectorId = None ∧
   Forall (λ f, gdf_connectorId f ≠ connectorId)
          (folders (tables (data r.2))) ∧
   Forall (λ f, file_connectorId f ≠ connectorId)
          (files (tables (data r.2))) ∧
   Forall (λ h, wh_connectorId h ≠ connectorId)
          (webhooks (tables (data r.2))) ∧
   Forall (λ t, tok_connectorId t ≠ connectorId) (syncTokens (data r.2))) ∧
  (r.1 ≠ Normal (Ok ()) → data r.2 = data s).
Proof.
  intros r. subst r.
  destruct (cleanup_data connectorId force s) as [[Hok ->]|[Hko Hdata]].
  - split; [|done]. intros _. simpl. split_and!.
    + unfold fetchById. simpl.
      rewrite list_find_filter_none; [done|]. intros x Hx Hne. by apply Hne.
    + apply Forall_forall. by intros f [? _]%list_elem_of_filter.
    + apply Forall_forall. by intros f [? _]%list_elem_of_filter.
    + apply Forall_forall. by intros f [? _]%list_elem_of_filter.
    + apply Forall_forall. by intros f [? _]%list_elem_of_filter.
  - split; [done|]. by intros _.
Qed.

(** X16: whatever its outcome, the teardown of a connector leaves every
    other connector with its row, its selected folders, its mirrored
    files, its webhooks, its sync tokens and its configuration. *)
Theorem cleanup_other_connectors `{OAuthAPI} (s : System)
    (connectorId other : ModelId) (force : bool) (key : string) :
  other ≠ connectorId →
  let r := cleanupGoogleDriveConnector connectorId force s in
  fetchById (tables (data r.2)) other = fetchById (tables (data s)) other ∧
  selected_rows (tables (data r.2)) other
    = selected_rows (tables (data s)) other ∧
  filter (λ f, file_connectorId f = other) (files (tables (data r.2)))
    = filter (λ f, file_connectorId f = other) (files (tables (data s))) ∧
  filter (λ h, wh_connectorId h = other) (webhooks (tables (data r.2)))
    = filter (λ h, wh_connectorId h = other) (webhooks (tables (data s))) ∧
  filter (λ t, tok_connectorId t = other) (syncTokens (data r.2))
    = filter (λ t, tok_connectorId t = other) (syncTokens (data s)) ∧
  getGoogleDriveConfig (data r.2) other key
    = getGoogleDriveConfig (data s) other key.
Proof.
  intros Hne r. subst r.
  destruct (cleanup_data connectorId force s) as [[_ ->]|[_ ->]]; [|done].
  assert (fetchById (tables (destroy_connector connectorId (data s))) other
          = fetchById (tables (data s)) other) as Hfetch.
  { unfold fetchById. simpl. apply list_find_filter. congruence. }
  split_and!.
  - exact Hfetch.
  - unfold selected_rows. simpl. apply filter_filter_other. congruence.
  - simpl. apply filter_filter_other. congruence.
  - simpl. apply filter_filter_other. congruence.
  - simpl. apply filter_filter_other. congruence.
  - unfold getGoogleDriveConfig. by rewrite Hfetch.
Qed.

Lemma cleanup_other_connectors_witness :
  let r := @cleanupGoogleDriveConnector MoreFixtures.oauth_ok 1 false
             MoreFixtures.system1 in
  fetchById (tables (data r.2)) 2
    = fetchById (tables (data MoreFixtures.system1)) 2 ∧
  selected_rows (tables (data r.2)) 2
    = selected_rows (tables (data MoreFixtures.system1)) 2 ∧
  filter (λ f, file_connectorId f = 2) (files (tables (data r.2)))
    = filter (λ f, file_connectorId f = 2)
        (files (tables (data MoreFixtures.system1))) ∧
  filter (λ h, wh_connectorId h = 2) (webhooks (tables (data r.2)))
    = filter (λ h, wh_connectorId h = 2)
        (webhooks (tables (data MoreFixtures.system1))) ∧
  filter (λ t, tok_connectorId t = 2) (syncTokens (data r.2))
    = filter (λ t, tok_connectorId t = 2)
        (syncTokens (data MoreFixtures.system1)) ∧
  getGoogleDriveConfig (data r.2) 2 "pdfEnabled"
    = getGoogleDriveConfig (data MoreFixtures.system1) 2 "pdfEnabled".
Proof.
  apply (@cleanup_other_connectors MoreFixtures.oauth_ok
           MoreFixtures.system1 1 2 false "pdfEnabled").
  lia.
Defined.

(** X17: with [force], a teardown of an existing connector answers [Ok]
    whatever the revocation does (it rejects, or Google answers another
    status than 200) and whatever Nango answers to the deletion, as long
    as the settings are there and the calls return. *)
Theorem cleanup_forced_succeeds `{OAuthAPI} (s : System)
    (connectorId : ModelId) (clientId clientSecret provider : string)
    (nangoRes : Result ()) :
  is_Some (fetchById (tables (data s)) connectorId) →
  getRequiredGoogleDriveClientId = Normal clientId →
  getRequiredGoogleDriveClientSecret = Normal clientSecret →
  getRequiredNangoGoogleDriveConnectorId = Normal provider →
  (∀ connection,
     getGoogleCredentials_refresh_token connection ≠ OutOfFuel) →
  (∀ token, revokeToken token ≠ OutOfFuel) →
  (∀ connection, nangoDeleteConnection connection provider
                 = Normal nangoRes) →
  (cleanupGoogleDriveConnector connectorId true s).1 = Normal (Ok ()).
Proof.
  intros [connector Hc] Hid Hsecret Hprovider Hcred Hrevoke Hnango.
  unfold cleanupGoogleDriveConnector. rewrite Hc, Hid, Hsecret.
  assert (∀ s', (delete_and_destroy connectorId connector true s').1
                = Normal (Ok ())) as Hrest.
  { intros s'. unfold delete_and_destroy. rewrite Hprovider, Hnango.
    by destruct nangoRes. }
  unfold revoke_attempt.
  destruct (getGoogleCredentials_refresh_token (connectionId connector))
    as [token| |] eqn:Htoken; [| |by destruct (Hcred _ Htoken)].
  - destruct (revokeToken token) as [st| |] eqn:Hst;
      [| |by destruct (Hrevoke _ Hst)].
    + case_decide; simpl; apply Hrest.
    + simpl. apply Hrest.
  - simpl. apply Hrest.
Qed.

Lemma cleanup_forced_succeeds_witness :
  (@cleanupGoogleDriveConnector MoreFixtures.oauth_failing 1 true
     MoreFixtures.system1).1 = Normal (Ok ()).
Proof.
  apply (@cleanup_forced_succeeds MoreFixtures.oauth_failing
           MoreFixtures.system1 1 "client-id" "secret" "google-drive"
           (Err (new_Error "nango: not found"))).
  - eexists. vm_compute. reflexivity.
  - reflexivity.
  - reflexivity.
  - reflexivity.
  - intros connection. discriminate.
  - intros token. discriminate.
  - intros connection. reflexivity.
Defined.

(** X18: without [force], a revocation that Google answers with another
    status than 200 ends the teardown with the error [Could not revoke
    token]: the token was handed to Google once, the deletion at Nango is
    not requested and the database is as it was. *)
Theorem cleanup_unforced_stops_at_revocation `{OAuthAPI} (s : System)
    (connectorId : ModelId) (connector : ConnectorModel)
    (clientId clientSecret token : string) (status : Z) :
  fetchById (tables (data s)) connectorId = Some connector →
  getRequiredGoogleDriveClientId = Normal clientId →
  getRequiredGoogleDriveClientSecret = Normal clientSecret →
  getGoogleCredentials_refresh_token (connectionId connector)
    = Normal token →
  revokeToken token = Normal status →
  status ≠ 200 →
  let r := cleanupGoogleDriveConnector connectorId false s in
  r.1 = Normal (Err (new_Error "Could not revoke token")) ∧
  data r.2 = data s ∧
  revocations r.2 = revocations s ++ [token] ∧
  nango_deletions r.2 = nango_deletions s.
Proof.
  intros Hc Hid Hsecret Htoken Hrevoke Hstatus r. subst r.
  unfold cleanupGoogleDriveConnector. rewrite Hc, Hid, Hsecret.
  unfold revoke_attempt. rewrite Htoken, Hrevoke.
  by rewrite decide_True.
Qed.

Lemma cleanup_unforced_stops_at_revocation_witness :
  let r := @cleanupGoogleDriveConnector MoreFixtures.oauth_failing 1 false
             MoreFixtures.system1 in
  r.1 = Normal (Err (new_Error "Could not revoke token")) ∧
  data r.2 = data MoreFixtures.system1 ∧
  revocations r.2 = revocations MoreFixtures.system1 ++ ["refresh-nango-1"] ∧
  nango_deletions r.2 = nango_deletions MoreFixtures.system1.
Proof.
  apply (@cleanup_unforced_stops_at_revocation MoreFixtures.oauth_failing
           MoreFixtures.system1 1 Fixtures.connector1 "client-id" "secret"
           "refresh-nango-1" 400).
  - vm_compute. reflexivity.
  - reflexivity.
  - reflexivity.
  - vm_compute. reflexivity.
  - reflexivity.
  - lia.
Defined.

(** X19: once the teardown of a connector has answered [Ok], no
    notification makes the webhook endpoint launch the incremental sync
    of that connector, whatever channel or route parameter the request
    carries. *)
Theorem webhook_after_cleanup `{Host} `{WorkflowEngine} `{OAuthAPI}
    (s : System) (connectorId : ModelId) (force : bool) (req : Request)
    (w : World) :
  (cleanupGoogleDriveConnector connectorId force s).1 = Normal (Ok ()) →
  db w = tables (data (cleanupGoogleDriveConnector connectorId force s).2) →
  let r := _webhookGoogleDriveAPIHandler req w in
  workflows r.2 ≠ workflows w ++ [IncrementalSync connectorId] ∧
  (IncrementalSync connectorId ∉ workflows w →
   IncrementalSync connectorId ∉ workflows r.2).
Proof.
  intros Hok Hdb r.
  assert (fetchById (db w) connectorId = None) as Hgone.
  { rewrite Hdb.
    destruct (cleanup_data connectorId force s) as [[_ ->]|[Hko _]];
      [|done].
    unfold fetchById. simpl.
    rewrite list_find_filter_none; [done|]. intros x Hx Hne. by apply Hne. }
  subst r.
  destruct (handler_effects req w) as (_ & [Hsame|Hlaunch] & _).
  - rewrite Hsame. split; [|done].
    intros Heq. apply (f_equal length) in Heq.
    rewrite length_app in Heq. simpl in Heq. lia.
  - destruct Hlaunch as (n & c & _ & Hc & _ & ->).
    assert (n ≠ connectorId) as Hn by (intros ->; congruence).
    split.
    + intros Heq%app_inv_head. congruence.
    + intros Hout [Hin|Hin%list_elem_of_singleton]%elem_of_app; [done|].
      congruence.
Qed.

Lemma webhook_after_cleanup_witness :
  let w := {| db := tables (data (@cleanupGoogleDriveConnector
                                    MoreFixtures.oauth_ok 1 false
                                    MoreFixtures.system1).2);
              workflows := []; logs := [] |} in
  let r := @_webhookGoogleDriveAPIHandler Fixtures.node_host
             Fixtures.engine_ok
             {| x_goog_channel_id := Some "chan-1";
                originalUrl := "/webhooks/1";
                params_connector_id := Some "1" |} w in
  workflows r.2 ≠ workflows w ++ [IncrementalSync 1] ∧
  (IncrementalSync 1 ∉ workflows w → IncrementalSync 1 ∉ workflows r.2).
Proof.
  apply (@webhook_after_cleanup Fixtures.node_host Fixtures.engine_ok
           MoreFixtures.oauth_ok MoreFixtures.system1 1 false).
  - vm_compute. reflexivity.
  - reflexivity.
Defined.

(** ** Update of the connection *)

(** [split("@")[1]] on some addresses. *)
Example user_domain_examples :
  user_domain (Some "ann@corp.com") = Some "corp.com" ∧
  user_domain (Some "ann@corp.com@x") = Some "corp.com" ∧
  user_domain (Some "ann@") = Some "" ∧
  user_domain (Some "ann") = None ∧
  user_domain None = None.
Proof. by vm_compute. Qed.

Lemma found_row_shift {A} (o : option (nat * A)) :
  (prod_map S id <$> o) ≫= (λ p, Some p.2) = o ≫= (λ p, Some p.2).
Proof. by destruct o as [[i x]|]. Qed.

Lemma fetchById_update_connectionId c connection d c' :
  fetchById (tables (update_connectionId c connection d)) c'
  = (if decide (c' = c) then with_connection connection
     else id) <$> fetchById (tables d) c'.
Proof.
  unfold fetchById. simpl.
  induction (connectors (tables d)) as [|x l IH]; [by case_decide|].
  rewrite fmap_cons. simpl.
  destruct (decide (connector_id x = c)) as [Hx|Hx]; simpl;
    destruct (decide (connector_id x = c')) as [Hx'|Hx']; simpl.
  - rewrite decide_True by congruence. done.
  - by rewrite !found_row_shift.
  - rewrite decide_False by congruence. done.
  - by rewrite !found_row_shift.
Qed.

Section UpdateFacts.
Context `{OAuthAPI}.

(** The switch answers the id of the connector, has the new connection
    written and the deletion of the old one requested at Nango. *)
Lemma switch_connection_spec connectorId connector connection provider s :
  connector_id connector = connectorId →
  getRequiredNangoGoogleDriveConnectorId = Normal provider →
  let r := switch_connection connectorId connector connection s in
  r.1 = Normal (APIOk (pretty connectorId)) ∧
  data r.2 = update_connectionId connectorId connection (data s) ∧
  nango_deletions r.2
    = nango_deletions s ++ [(connectionId connector, provider)] ∧
  launched r.2 = launched s.
Proof.
  intros <- Hprovider. unfold switch_connection. rewrite Hprovider. simpl.
  by destruct (nangoDeleteConnection _ _).
Qed.

Lemma switch_connection_frame connectorId connector connection s :
  let r := switch_connection connectorId connector connection s in
  data r.2 = update_connectionId connectorId connection (data s) ∧
  launched r.2 = launched s.
Proof.
  unfold switch_connection.
  destruct getRequiredNangoGoogleDriveConnectorId; [|done..]. simpl.
  by destruct (nangoDeleteConnection _ _).
Qed.
End UpdateFacts.

Lemma fetchById_connector_id st c connector :
  fetchById st c = Some connector → connector_id connector = c.
Proof.
  unfold fetchById.
  destruct (list_find _ _) as [[i x]|] eqn:Hfind; [|done].
  simpl. intros [= <-]. by apply list_find_Some in Hfind as (_ & ? & _).
Qed.

(** X20: an update to a connection whose user has no domain, or whose
    user is in another domain than the user of the current connection, is
    refused with [connector_update_error], respectively
    [connector_oauth_target_mismatch]: the connector keeps its connection
    and nothing is deleted at Nango. *)
Theorem update_refused_on_domains `{OAuthAPI} (s : System)
    (connectorId : ModelId) (connector : ConnectorModel)
    (connection : string) (currentUserEmail newDriveUserEmail : option string) :
  fetchById (tables (data s)) connectorId = Some connector →
  connection ≠ "" →
  about_user_emailAddress (connectionId connector)
    = Normal currentUserEmail →
  about_user_emailAddress connection = Normal newDriveUserEmail →
  let r := updateGoogleDriveConnector connectorId (Some connection) s in
  let missing (domain : option string) :=
    domain = None ∨ domain = Some "" in
  (missing (user_domain currentUserEmail) ∨
   missing (user_domain newDriveUserEmail) →
   r = (Normal (APIErr
          {| error_type := "connector_update_error";
             error_message :=
               "Error retrieving google drive info to update connector" |}),
        s)) ∧
  (¬ missing (user_domain currentUserEmail) →
   ¬ missing (user_domain newDriveUserEmail) →
   user_domain currentUserEmail ≠ user_domain newDriveUserEmail →
   r = (Normal (APIErr
          {| error_type := "connector_oauth_target_mismatch";
             error_message :=
               "Cannot change domain of a Google Drive connector" |}),
        s)).
Proof.
  intros Hc Hne Hcur Hnew r missing. subst r missing.
  unfold updateGoogleDriveConnector. rewrite Hc.
  rewrite decide_False by done.
  unfold domain_check. rewrite Hcur, Hnew.
  destruct (user_domain currentUserEmail) as [d1|],
           (user_domain newDriveUserEmail) as [d2|]; simpl.
  - split.
    + intros [[?|[= ->]]|[?|[= ->]]]; try done;
        by rewrite decide_True by auto.
    + intros H1 H2 Hdiff.
      rewrite decide_False by (intros [-> | ->]; auto).
      rewrite decide_True; [done|]. congruence.
  - split; [done|]. intros _ []. by left.
  - split; [done|]. intros []. by left.
  - split; [done|]. intros []. by left.
Qed.

Lemma update_refused_on_domains_witness :
  let r := @updateGoogleDriveConnector MoreFixtures.oauth_ok 1
             (Some "nango-other") MoreFixtures.system1 in
  let missing (domain : option string) :=
    domain = None ∨ domain = Some "" in
  (missing (user_domain (Some "ann@corp.com")) ∨
   missing (user_domain (Some "eve@other.org")) →
   r = (Normal (APIErr
          {| error_type := "connector_update_error";
             error_message :=
               "Error retrieving google drive info to update connector" |}),
        MoreFixtures.system1)) ∧
  (¬ missing (user_domain (Some "ann@corp.com")) →
   ¬ missing (user_domain (Some "eve@other.org")) →
   user_domain (Some "ann@corp.com") ≠ user_domain (Some "eve@other.org") →
   r = (Normal (APIErr
          {| error_type := "connector_oauth_target_mismatch";
             error_message :=
               "Cannot change domain of a Google Drive connector" |}),
        MoreFixtures.system1)).
Proof.
  apply (@update_refused_on_domains MoreFixtures.oauth_ok
           MoreFixtures.system1 1 Fixtures.connector1 "nango-other"
           (Some "ann@corp.com") (Some "eve@other.org")).
  - vm_compute. reflexivity.
  - discriminate.
  - reflexivity.
  - reflexivity.
Defined.

(** X21: when the check of the domains itself rejects, because the drive
    client of the old or of the new connection does, the update goes
    ahead: the rejection is logged, the new connection is written, the
    deletion of the old one is requested at Nango and the call answers
    [Ok] with the id of the connector. *)
Theorem update_proceeds_when_check_rejects `{OAuthAPI} (s : System)
    (connectorId : ModelId) (connector : ConnectorModel)
    (connection provider : string) :
  fetchById (tables (data s)) connectorId = Some connector →
  connection ≠ "" →
  (∃ e, about_user_emailAddress (connectionId connector) = Throw e) ∨
  (∃ email e,
     about_user_emailAddress (connectionId connector) = Normal email ∧
     about_user_emailAddress connection = Throw e) →
  getRequiredNangoGoogleDriveConnectorId = Normal provider →
  let r := updateGoogleDriveConnector connectorId (Some connection) s in
  r.1 = Normal (APIOk (pretty connectorId)) ∧
  fetchById (tables (data r.2)) connectorId
    = Some (with_connection connection connector) ∧
  nango_deletions r.2
    = nango_deletions s ++ [(connectionId connector, provider)] ∧
  "Error checking Google domain of user who is updating the connector - lets update the connector regardless"
    ∈ logged r.2.
Proof.
  intros Hc Hne Hthrows Hprovider r. subst r.
  pose proof (fetchById_connector_id _ _ _ Hc) as Hid.
  unfold updateGoogleDriveConnector. rewrite Hc.
  rewrite decide_False by done.
  assert (∃ e, domain_check connector connection = Thrown e) as [e ->].
  { unfold domain_check.
    destruct Hthrows as [[e ->]|(email & e & -> & ->)]; by exists e. }
  set (s' := sys_log _ s).
  destruct (switch_connection_spec connectorId connector connection
              provider s' Hid Hprovider) as (Hr & Hdata & Hnango & _).
  split_and!; [done| |done|].
  - rewrite Hdata, fetchById_update_connectionId.
    rewrite decide_True by done. subst s'. simpl. by rewrite Hc.
  - unfold switch_connection. rewrite Hprovider. simpl.
    destruct (nangoDeleteConnection _ _); simpl;
      rewrite ?elem_of_app, ?list_elem_of_singleton; auto.
Qed.

Lemma update_proceeds_when_check_rejects_witness :
  let r := @updateGoogleDriveConnector MoreFixtures.oauth_failing 1
             (Some "nango-new") MoreFixtures.system1 in
  r.1 = Normal (APIOk (pretty 1)) ∧
  fetchById (tables (data r.2)) 1
    = Some (with_connection "nango-new" Fixtures.connector1) ∧
  nango_deletions r.2
    = nango_deletions MoreFixtures.system1 ++
        [(connectionId Fixtures.connector1, "google-drive")] ∧
  "Error checking Google domain of user who is updating the connector - lets update the connector regardless"
    ∈ logged r.2.
Proof.
  apply (@update_proceeds_when_check_rejects MoreFixtures.oauth_failing
           MoreFixtures.system1 1 Fixtures.connector1 "nango-new"
           "google-drive").
  - vm_compute. reflexivity.
  - discriminate.
  - left. by eexists.
  - reflexivity.
Defined.

(** X22: whatever its outcome, an update touches nothing but the
    connection id of its connector: the selected folders, the mirrored
    files, the webhooks, the configurations and the sync tokens are as
    before, no workflow is launched, every other connector keeps its
    row, and the connector keeps its id, its type and its pause. *)
Theorem update_frame `{OAuthAPI} (s : System) (connectorId : ModelId)
    (connection : option string) :
  let r := updateGoogleDriveConnector connectorId connection s in
  folders (tables (data r.2)) = folders (tables (data s)) ∧
  files (tables (data r.2)) = files (tables (data s)) ∧
  webhooks (tables (data r.2)) = webhooks (tables (data s)) ∧
  configs (data r.2) = configs (data s) ∧
  syncTokens (data r.2) = syncTokens (data s) ∧
  launched r.2 = launched s ∧
  (∀ other, other ≠ connectorId →
     fetchById (tables (data r.2)) other
       = fetchById (tables (data s)) other) ∧
  (∀ connector, fetchById (tables (data s)) connectorId = Some connector →
     ∃ connection',
       fetchById (tables (data r.2)) connectorId
         = Some (with_connection connection' connector)).
Proof.
  intros r. subst r.
  assert (∀ connector : ConnectorModel,
    ∃ connection',
      Some connector = Some (with_connection connection' connector))
    as Hkeep.
  { intros connector. exists (connectionId connector). by destruct connector. }
  unfold updateGoogleDriveConnector.
  destruct (fetchById (tables (data s)) connectorId) as [connector|] eqn:Hc;
    [|split_and!; [done..|]; by intros c].
  assert (∀ conn s',
    data s' = data s →
    launched s' = launched s →
    let r := switch_connection connectorId connector conn s' in
    folders (tables (data r.2)) = folders (tables (data s)) ∧
    files (tables (data r.2)) = files (tables (data s)) ∧
    webhooks (tables (data r.2)) = webhooks (tables (data s)) ∧
    configs (data r.2) = configs (data s) ∧
    syncTokens (data r.2) = syncTokens (data s) ∧
    launched r.2 = launched s ∧
    (∀ other, other ≠ connectorId →
       fetchById (tables (data r.2)) other
         = fetchById (tables (data s)) other) ∧
    (∀ c, Some connector = Some c →
       ∃ connection',
         fetchById (tables (data r.2)) connectorId
           = Some (with_connection connection' c))) as Hswitch.
  { intros conn s' Hdata Hlaunched r.
    destruct (switch_connection_frame connectorId connector conn s')
      as [Hd Hl].
    fold r in Hd, Hl. rewrite Hd, Hl, Hdata, Hlaunched.
    split_and!; [done..| |].
    - intros other Hother. rewrite fetchById_update_connectionId.
      rewrite decide_False by done. by destruct (fetchById _ other).
    - intros c [= <-]. exists conn. rewrite fetchById_update_connectionId.
      rewrite decide_True by done. by rewrite Hc. }
  destruct connection as [connection|];
    [|split_and!; [done..|]; intros c [= <-]; simpl; rewrite ?Hc;
      apply Hkeep].
  case_decide;
    [split_and!; [done..|]; intros c [= <-]; simpl; rewrite ?Hc;
      apply Hkeep|].
  destruct (domain_check connector connection) as [|r|e|].
  - by apply Hswitch.
  - split_and!; [done..|]. intros c [= <-]. simpl. rewrite ?Hc.
    apply Hkeep.
  - by apply Hswitch.
  - split_and!; [done..|]. intros c [= <-]. simpl. rewrite ?Hc.
    apply Hkeep.
Qed.

(** X23: an update to a connection whose user is in the domain of the
    user of the current connection writes the new connection, requests
    the deletion of the old one at Nango and answers [Ok] with the id of
    the connector; an update without a connection id answers the same
    and changes nothing. *)
Theorem update_switches_within_domain `{OAuthAPI} (s : System)
    (connectorId : ModelId) (connector : ConnectorModel)
    (connection provider domain : string)
    (currentUserEmail newDriveUserEmail : option string) :
  fetchById (tables (data s)) connectorId = Some connector →
  connection ≠ "" →
  about_user_emailAddress (connectionId connector)
    = Normal currentUserEmail →
  about_user_emailAddress connection = Normal newDriveUserEmail →
  user_domain currentUserEmail = Some domain →
  user_domain newDriveUserEmail = Some domain →
  domain ≠ "" →
  getRequiredNangoGoogleDriveConnectorId = Normal provider →
  let r := updateGoogleDriveConnector connectorId (Some connection) s in
  r.1 = Normal (APIOk (pretty connectorId)) ∧
  fetchById (tables (data r.2)) connectorId
    = Some (with_connection connection connector) ∧
  nango_deletions r.2
    = nango_deletions s ++ [(connectionId connector, provider)] ∧
  updateGoogleDriveConnector connectorId None s
    = (Normal (APIOk (pretty connectorId)), s) ∧
  updateGoogleDriveConnector connectorId (Some "") s
    = (Normal (APIOk (pretty connectorId)), s).
Proof.
  intros Hc Hne Hcur Hnew Hd1 Hd2 Hdomain Hprovider r. subst r.
  pose proof (fetchById_connector_id _ _ _ Hc) as Hid.
  unfold updateGoogleDriveConnector. rewrite Hc.
  rewrite decide_False by done. rewrite decide_True by done.
  unfold domain_check. rewrite Hcur, Hnew, Hd1, Hd2.
  rewrite decide_False by (by intros [?|?]).
  rewrite decide_False by (by intros ?).
  destruct (switch_connection_spec connectorId connector connection
              provider s Hid Hprovider) as (Hr & Hdata & Hnango & _).
  split_and!; [done| |done|by rewrite Hid..].
  rewrite Hdata, fetchById_update_connectionId.
  rewrite decide_True by done. by rewrite Hc.
Qed.

Lemma update_switches_within_domain_witness :
  let r := @updateGoogleDriveConnector MoreFixtures.oauth_ok 1
             (Some "nango-new") MoreFixtures.system1 in
  r.1 = Normal (APIOk (pretty 1)) ∧
  fetchById (tables (data r.2)) 1
    = Some (with_connection "nango-new" Fixtures.connector1) ∧
  nango_deletions r.2
    = nango_deletions MoreFixtures.system1 ++
        [(connectionId Fixtures.connector1, "google-drive")] ∧
  @updateGoogleDriveConnector MoreFixtures.oauth_ok 1 None
    MoreFixtures.system1
    = (Normal (APIOk (pretty 1)), MoreFixtures.system1) ∧
  @updateGoogleDriveConnector MoreFixtures.oauth_ok 1 (Some "")
    MoreFixtures.system1
    = (Normal (APIOk (pretty 1)), MoreFixtures.system1).
Proof.
  apply (@update_switches_within_domain MoreFixtures.oauth_ok
           MoreFixtures.system1 1 Fixtures.connector1 "nango-new"
           "google-drive" "corp.com" (Some "ann@corp.com")
           (Some "ann@corp.com")).
  - vm_compute. reflexivity.
  - discriminate.
  - reflexivity.
  - reflexivity.
  - vm_compute. reflexivity.
  - vm_compute. reflexivity.
  - discriminate.
  - reflexivity.
Defined.

(** ** Unknown connectors *)



(** ** Safe substrings *)

Import StringUtils.

#[local] Arguments isLeadingLoneSurrogate : simpl never.
#[local] Arguments isTrailingLoneSurrogate : simpl never.

Lemma leading_not_trailing c :
  isLeadingLoneSurrogate (Some c) = true →
  isTrailingLoneSurrogate (Some c) = false.
Proof.
  unfold isLeadingLoneSurrogate, isTrailingLoneSurrogate.
  rewrite andb_true_iff, andb_false_iff, !bool_decide_eq_true,
    !bool_decide_eq_false. lia.
Qed.

Lemma charCodeAt_lookup (str : JSString) (i : nat) :
  charCodeAt str (Z.of_nat i) = str !! i.
Proof.
  unfold charCodeAt. rewrite decide_True by lia. by rewrite Nat2Z.id.
Qed.

Lemma charCodeAt_Some (str : JSString) (i c : Z) :
  charCodeAt str i = Some c →
  0 ≤ i < Z.of_nat (length str) ∧ str !! Z.to_nat i = Some c.
Proof.
  unfold charCodeAt. case_decide; [|done]. intros Hc. split; [|done].
  apply lookup_lt_Some in Hc. lia.
Qed.

Lemma trailing_in_range (str : JSString) (i : Z) :
  isTrailingLoneSurrogate (charCodeAt str i) = true →
  0 ≤ i < Z.of_nat (length str).
Proof.
  destruct (charCodeAt str i) as [c|] eqn:Hc; [|done].
  intros _. by apply charCodeAt_Some in Hc as [? _].
Qed.

Lemma leading_in_range (str : JSString) (i : Z) :
  isLeadingLoneSurrogate (charCodeAt str i) = true →
  0 ≤ i < Z.of_nat (length str).
Proof.
  destruct (charCodeAt str i) as [c|] eqn:Hc; [|done].
  intros _. by apply charCodeAt_Some in Hc as [? _].
Qed.

(** The first loop stops where the code unit is no trailing surrogate,
    having passed only trailing surrogates; the fuel is enough when it
    covers what is left of the string. *)
Lemma skip_trailing_spec (fuel : nat) (str : JSString) (start : Z) :
  let r := skip_trailing fuel str start in
  start ≤ r ∧
  (∀ i, start ≤ i < r → isTrailingLoneSurrogate (charCodeAt str i) = true) ∧
  (Z.of_nat (length str) ≤ Z.of_nat fuel + start ∨ start < 0 →
   isTrailingLoneSurrogate (charCodeAt str r) = false).
Proof.
  revert start. induction fuel as [|fuel IH]; intros start; simpl.
  - split_and!; [lia|lia|]. intros Hfuel.
    destruct (isTrailingLoneSurrogate (charCodeAt str start)) eqn:Ht;
      [|done].
    apply trailing_in_range in Ht. lia.
  - destruct (isTrailingLoneSurrogate (charCodeAt str start)) eqn:Ht.
    + destruct (IH (start + 1)) as (Hle & Hbetween & Hexit).
      pose proof (trailing_in_range _ _ Ht).
      split_and!; [lia| |].
      * intros i Hi. destruct (decide (i = start)) as [->|]; [done|].
        apply Hbetween. lia.
      * intros Hfuel. apply Hexit. lia.
    + split_and!; [lia|lia|done].
Qed.

Lemma drop_leading_spec (fuel : nat) (str : JSString) (end_ : Z) :
  let r := drop_leading fuel str end_ in
  r ≤ end_ ∧
  (∀ i, r < i ≤ end_ →
        isLeadingLoneSurrogate (charCodeAt str (i - 1)) = true) ∧
  (end_ ≤ Z.of_nat fuel ∨ Z.of_nat (length str) < end_ →
   isLeadingLoneSurrogate (charCodeAt str (r - 1)) = false).
Proof.
  revert end_. induction fuel as [|fuel IH]; intros end_; simpl.
  - split_and!; [lia|lia|]. intros Hfuel.
    destruct (isLeadingLoneSurrogate (charCodeAt str (end_ - 1))) eqn:Ht;
      [|done].
    apply leading_in_range in Ht. lia.
  - destruct (isLeadingLoneSurrogate (charCodeAt str (end_ - 1))) eqn:Ht.
    + destruct (IH (end_ - 1)) as (Hle & Hbetween & Hexit).
      pose proof (leading_in_range _ _ Ht).
      split_and!; [lia| |].
      * intros i Hi. destruct (decide (i = end_)) as [->|]; [done|].
        apply Hbetween. lia.
      * intros Hfuel. apply Hexit. lia.
    + split_and!; [lia|lia|done].
Qed.

(** In a well formed string a trailing surrogate comes right after a
    leading one, and a leading surrogate right before a trailing one. *)
Lemma well_formed_facts (n : nat) (str : JSString) :
  (length str ≤ n)%nat → well_formed str = true →
  isTrailingLoneSurrogate (str !! 0%nat) = false ∧
  (∀ p, isTrailingLoneSurrogate (str !! S p) = true →
        isLeadingLoneSurrogate (str !! p) = true) ∧
  (∀ p, isLeadingLoneSurrogate (str !! p) = true →
        isTrailingLoneSurrogate (str !! S p) = true).
Proof.
  revert str. induction n as [|n IH]; intros str Hlen Hwf.
  - destruct str; [|simpl in Hlen; lia]. by split_and!; [|intros p..].
  - destruct str as [|c rest]; [by split_and!; [|intros p..]|].
    simpl in Hwf, Hlen.
    destruct (isLeadingLoneSurrogate (Some c)) eqn:Hc.
    + destruct rest as [|d rest']; [done|].
      apply andb_true_iff in Hwf as [Hd Hwf]. simpl in Hlen.
      destruct (IH rest' ltac:(lia) Hwf) as (H0 & Hpred & Hsucc).
      split_and!.
      * by apply leading_not_trailing.
      * intros [|[|p]] Hp; [done| |by apply Hpred].
        change (isTrailingLoneSurrogate ((rest' : JSString) !! 0%nat) = true)
          in Hp.
        congruence.
      * intros [|[|p]] Hp; [done| |by apply Hsucc].
        change (isLeadingLoneSurrogate (Some d) = true) in Hp.
        apply leading_not_trailing in Hp. congruence.
    + destruct (isTrailingLoneSurrogate (Some c)) eqn:Hc'; [done|].
      destruct (IH rest ltac:(lia) Hwf) as (H0 & Hpred & Hsucc).
      split_and!; [done| |].
      * intros [|p] Hp; [|by apply Hpred].
        change (isTrailingLoneSurrogate ((rest : JSString) !! 0%nat) = true)
          in Hp.
        congruence.
      * intros [|p] Hp; [|by apply Hsucc].
        change (isLeadingLoneSurrogate (Some c) = true) in Hp. congruence.
Qed.

(** A well formed string cut before a code unit that is no trailing
    surrogate gives two well formed strings. *)
Lemma well_formed_cut (n : nat) (str : JSString) (p : nat) :
  (length str ≤ n)%nat → well_formed str = true →
  isTrailingLoneSurrogate (str !! p) = false →
  well_formed (take p str) = true ∧ well_formed (drop p str) = true.
Proof.
  revert str p. induction n as [|n IH]; intros str p Hlen Hwf Hp.
  - destruct str; [|simpl in Hlen; lia]. by destruct p.
  - destruct p as [|p]; [done|].
    destruct str as [|c rest]; [done|]. simpl in Hwf, Hlen, Hp.
    rewrite firstn_cons, skipn_cons. simpl.
    destruct (isLeadingLoneSurrogate (Some c)) eqn:Hc.
    + destruct rest as [|d rest']; [done|].
      apply andb_true_iff in Hwf as [Hd Hwf]. simpl in Hlen.
      destruct p as [|p]; [simpl in Hp; congruence|].
      simpl in Hp. rewrite firstn_cons, skipn_cons.
      destruct (IH rest' p ltac:(lia) Hwf Hp) as [Htake Hdrop].
      by rewrite Hd, Htake.
    + destruct (isTrailingLoneSurrogate (Some c)) eqn:Hc'; [done|].
      by apply IH; [lia|..].
Qed.

(** The part of a well formed string between two such cuts is well
    formed. *)
Lemma well_formed_segment (str : JSString) (a b : nat) :
  well_formed str = true →
  isTrailingLoneSurrogate (str !! a) = false →
  isTrailingLoneSurrogate (str !! b) = false →
  (a ≤ b)%nat →
  well_formed (take (b - a) (drop a str)) = true.
Proof.
  intros Hwf Ha Hb Hab.
  destruct (well_formed_cut (length str) str a (le_n _) Hwf Ha)
    as [_ Hdrop].
  apply (well_formed_cut (length (drop a str)) (drop a str) (b - a)
           (le_n _) Hdrop).
  unfold JSString in *. rewrite lookup_drop.
  by replace (a + (b - a))%nat with b by lia.
Qed.

Lemma lookup_beyond (str : JSString) (p : nat) :
  (length str ≤ p)%nat → isTrailingLoneSurrogate (str !! p) = false.
Proof. intros Hp. unfold JSString in *. by rewrite lookup_ge_None_2. Qed.

(** A cut where the first loop stopped, clamped to the string. *)
Lemma start_cut (str : JSString) (start : Z) :
  well_formed str = true →
  let r := skip_trailing (length str) str start in
  isTrailingLoneSurrogate
    (str !! Z.to_nat (Z.max 0 (Z.min r (Z.of_nat (length str))))) = false.
Proof.
  intros Hwf r.
  destruct (skip_trailing_spec (length str) str start) as (_ & _ & Hexit).
  fold r in Hexit.
  destruct (well_formed_facts (length str) str (le_n _) Hwf) as (H0 & _ & _).
  destruct (decide (r < 0)) as [Hneg|Hpos].
  - by replace (Z.to_nat _) with 0%nat by lia.
  - destruct (decide (Z.of_nat (length str) ≤ r)) as [Hbig|Hin].
    + apply lookup_beyond. lia.
    + replace (Z.max 0 (Z.min r (Z.of_nat (length str)))) with r by lia.
      specialize (Hexit ltac:(lia)). unfold charCodeAt in Hexit.
      by rewrite decide_True in Hexit by lia.
Qed.

(** A cut where the second loop stopped, clamped to the string. *)
Lemma end_cut (str : JSString) (end_ : Z) :
  well_formed str = true →
  let r := drop_leading (length str) str end_ in
  isTrailingLoneSurrogate
    (str !! Z.to_nat (Z.max 0 (Z.min r (Z.of_nat (length str))))) = false.
Proof.
  intros Hwf r.
  destruct (drop_leading_spec (length str) str end_) as (_ & _ & Hexit).
  fold r in Hexit.
  destruct (well_formed_facts (length str) str (le_n _) Hwf)
    as (H0 & Hpred & _).
  destruct (decide (r ≤ 0)) as [Hneg|Hpos].
  - by replace (Z.to_nat _) with 0%nat by lia.
  - destruct (decide (Z.of_nat (length str) ≤ r)) as [Hbig|Hin].
    + apply lookup_beyond. lia.
    + replace (Z.max 0 (Z.min r (Z.of_nat (length str)))) with r by lia.
      specialize (Hexit ltac:(lia)). unfold charCodeAt in Hexit.
      rewrite decide_True in Hexit by lia.
      destruct (isTrailingLoneSurrogate (str !! Z.to_nat r)) eqn:Ht; [|done].
      replace (Z.to_nat r) with (S (Z.to_nat (r - 1))) in Ht by lia.
      apply Hpred in Ht. congruence.
Qed.

Lemma substring_segment (str : JSString) (a b : Z) :
  let len := Z.of_nat (length str) in
  0 ≤ a ≤ len → 0 ≤ b ≤ len →
  take (Z.to_nat (Z.max a b - Z.min a b)) (drop (Z.to_nat (Z.min a b)) str)
  = take (Z.to_nat (Z.max a b) - Z.to_nat (Z.min a b))
         (drop (Z.to_nat (Z.min a b)) str).
Proof. intros len Ha Hb. f_equal. lia. Qed.

(** X25: on a string without lone surrogates, [safeSubstring] answers a
    string without lone surrogates, whatever the integers [start] and
    [end] are: negative, beyond the string, in the wrong order or in the
    middle of a surrogate pair. *)
Theorem safeSubstring_well_formed (str : JSString) (start : Z)
    (end_ : option Z) :
  well_formed str = true →
  well_formed (safeSubstring str start end_) = true.
Proof.
  intros Hwf. unfold safeSubstring, substring.
  pose proof (start_cut str start Hwf) as Ha. simpl in Ha.
  set (a := Z.max 0 (Z.min (skip_trailing (length str) str start)
                           (Z.of_nat (length str)))) in *.
  assert (∀ b, 0 ≤ b ≤ Z.of_nat (length str) →
               isTrailingLoneSurrogate (str !! Z.to_nat b) = false →
               well_formed
                 (take (Z.to_nat (Z.max a b - Z.min a b))
                       (drop (Z.to_nat (Z.min a b)) str)) = true) as Hseg.
  { intros b Hb Hcut. rewrite substring_segment by (subst a; lia).
    apply well_formed_segment; [done| | |lia].
    - destruct (Z.min_spec a b) as [[_ ->]|[_ ->]]; done.
    - destruct (Z.max_spec a b) as [[_ ->]|[_ ->]]; done. }
  destruct end_ as [end_|].
  - apply Hseg; [lia|]. apply (end_cut str end_ Hwf).
  - apply Hseg; [lia|]. apply lookup_beyond. lia.
Qed.

Lemma safeSubstring_well_formed_witness :
  well_formed (safeSubstring [97; 0xd83d; 0xde00; 98] 2 (Some 3)) = true.
Proof.
  apply (safeSubstring_well_formed [97; 0xd83d; 0xde00; 98] 2 (Some 3)).
  reflexivity.
Defined.

(** X26: on a string without lone surrogates and for a range that is not
    empty, [safeSubstring] answers a part of the range asked for: at most
    one code unit is left out at each end and none is added. *)
Theorem safeSubstring_within_range (str : JSString) (start end_ : Z) :
  well_formed str = true →
  0 ≤ start < end_ → end_ ≤ Z.of_nat (length str) →
  ∃ a b : Z,
    start ≤ a ≤ start + 1 ∧ end_ - 1 ≤ b ≤ end_ ∧ a ≤ b ∧
    safeSubstring str start (Some end_)
    = take (Z.to_nat (b - a)) (drop (Z.to_nat a) str).
Proof.
  intros Hwf Hrange Hlen.
  destruct (well_formed_facts (length str) str (le_n _) Hwf)
    as (_ & Hpred & Hsucc).
  destruct (skip_trailing_spec (length str) str start)
    as (Ha1 & Ha2 & _).
  destruct (drop_leading_spec (length str) str end_) as (Hb1 & Hb2 & _).
  set (a := skip_trailing (length str) str start) in *.
  set (b := drop_leading (length str) str end_) in *.
  assert (∀ i : Z, 0 ≤ i →
            charCodeAt str i = str !! Z.to_nat i) as Hcode.
  { intros i Hi. unfold charCodeAt. by rewrite decide_True. }
  assert (∀ i : Z, 0 ≤ i →
            isTrailingLoneSurrogate (charCodeAt str i) = true →
            isLeadingLoneSurrogate (charCodeAt str i) = false) as Hexcl.
  { intros i Hi. destruct (charCodeAt str i) as [c|]; [|done].
    intros Ht. destruct (isLeadingLoneSurrogate (Some c)) eqn:Hl; [|done].
    apply leading_not_trailing in Hl. congruence. }
  assert (a ≤ start + 1) as Ha3.
  { destruct (decide (a ≤ start + 1)) as [|Hfar]; [done|]. exfalso.
    pose proof (Ha2 start ltac:(lia)) as Ht0.
    pose proof (Ha2 (start + 1) ltac:(lia)) as Ht1.
    rewrite Hcode in Ht1 by lia.
    replace (Z.to_nat (start + 1)) with (S (Z.to_nat start)) in Ht1 by lia.
    apply Hpred in Ht1. rewrite <-Hcode in Ht1 by lia.
    rewrite Hexcl in Ht1 by (done || lia). done. }
  assert (end_ - 1 ≤ b) as Hb3.
  { destruct (decide (end_ - 1 ≤ b)) as [|Hfar]; [done|]. exfalso.
    pose proof (Hb2 end_ ltac:(lia)) as Hl0.
    pose proof (Hb2 (end_ - 1) ltac:(lia)) as Hl1.
    pose proof (leading_in_range _ _ Hl1) as Hin.
    rewrite Hcode in Hl1 by lia. apply Hsucc in Hl1.
    replace (S (Z.to_nat (end_ - 1 - 1))) with (Z.to_nat (end_ - 1))
      in Hl1 by lia.
    rewrite <-Hcode in Hl1 by lia.
    rewrite Hexcl in Hl0 by (done || lia). done. }
  assert (a ≤ b) as Hab.
  { destruct (decide (a ≤ b)) as [|Hcross]; [done|]. exfalso.
    assert (a = start + 1 ∧ b = end_ - 1 ∧ end_ = start + 1)
      as (Ha & Hb & He) by lia.
    pose proof (Ha2 start ltac:(lia)) as Ht.
    pose proof (Hb2 end_ ltac:(lia)) as Hl.
    replace (end_ - 1) with start in Hl by lia.
    rewrite Hexcl in Hl by (done || lia). done. }
  exists a, b. split_and!; [lia..|].
  unfold safeSubstring, substring. fold a b. f_equal; [|f_equal]; lia.
Qed.

Lemma safeSubstring_within_range_witness :
  ∃ a b : Z,
    2 ≤ a ≤ 2 + 1 ∧ 4 - 1 ≤ b ≤ 4 ∧ a ≤ b ∧
    safeSubstring [97; 0xd83d; 0xde00; 98] 2 (Some 4)
    = take (Z.to_nat (b - a)) (drop (Z.to_nat a) [97; 0xd83d; 0xde00; 98]).
Proof.
  apply (safeSubstring_within_range [97; 0xd83d; 0xde00; 98] 2 4).
  - reflexivity.
  - lia.
  - simpl. lia.
Defined.

Lemma charCodeAt_around_pair (pre post : JSString) (h t : Z) :
  let str : JSString := pre ++ h :: t :: post in
  let p := Z.of_nat (length pre) in
  charCodeAt str (p - 1) = last pre ∧ charCodeAt str p = Some h ∧
  charCodeAt str (p + 1) = Some t ∧ charCodeAt str (p + 2) = head post.
Proof.
  intros str p. subst str p. unfold charCodeAt, JSString in *. split_and!.
  - case_decide as Hp.
    + rewrite lookup_app_l by lia. rewrite last_lookup. f_equal. lia.
    + destruct pre; [done|simpl in Hp; lia].
  - rewrite decide_True by lia. rewrite Nat2Z.id.
    by rewrite lookup_app_r, Nat.sub_diag by lia.
  - rewrite decide_True by lia. rewrite lookup_app_r by lia.
    by replace (Z.to_nat _ - length pre)%nat with 1%nat by lia.
  - rewrite decide_True by lia. rewrite lookup_app_r by lia.
    replace (Z.to_nat _ - length pre)%nat with 2%nat by lia.
    by destruct post.
Qed.

(** X27: asked for the empty range that starts and ends between the two
    halves of a surrogate pair, [safeSubstring] answers the whole pair,
    two code units where [substring] answers none: the first loop moves
    the start past the trailing half, the second moves the end before the
    leading half, and [substring] puts the two back in order. *)
Theorem safeSubstring_empty_range_inside_pair (pre post : JSString)
    (h t : Z) :
  isLeadingLoneSurrogate (Some h) = true →
  isTrailingLoneSurrogate (Some t) = true →
  isLeadingLoneSurrogate (last pre) = false →
  isTrailingLoneSurrogate (head post) = false →
  let str : JSString := pre ++ h :: t :: post in
  let p := Z.of_nat (length pre) in
  substring str (p + 1) (Some (p + 1)) = [] ∧
  safeSubstring str (p + 1) (Some (p + 1)) = [h; t].
Proof.
  intros Hh Ht Hpre Hpost str p.
  destruct (charCodeAt_around_pair pre post h t) as (C0 & C1 & C2 & C3).
  fold str p in C0, C1, C2, C3.
  assert (Z.of_nat (length str) = p + 2 + Z.of_nat (length post)) as Hlen.
  { subst str p. unfold JSString in *. rewrite length_app. simpl. lia. }
  split.
  { unfold substring.
    replace (Z.max _ _ - Z.min _ _) with 0 by lia. by rewrite take_0. }
  destruct (skip_trailing_spec (length str) str (p + 1))
    as (Ha1 & Ha2 & Ha3).
  destruct (drop_leading_spec (length str) str (p + 1))
    as (Hb1 & Hb2 & Hb3).
  set (a := skip_trailing (length str) str (p + 1)) in *.
  set (b := drop_leading (length str) str (p + 1)) in *.
  specialize (Ha3 ltac:(lia)). specialize (Hb3 ltac:(lia)).
  assert (a = p + 2) as Ha.
  { destruct (decide (a = p + 1)) as [E|]; [rewrite E in Ha3; congruence|].
    destruct (decide (a ≤ p + 2)) as [|Hfar]; [lia|].
    pose proof (Ha2 (p + 2) ltac:(lia)). congruence. }
  assert (b = p) as Hb.
  { destruct (decide (b = p + 1)) as [E|].
    { rewrite E in Hb3. replace (p + 1 - 1) with p in Hb3 by lia.
      congruence. }
    destruct (decide (p ≤ b)) as [|Hfar]; [lia|].
    pose proof (Hb2 p ltac:(lia)). congruence. }
  unfold safeSubstring, substring. fold a b. rewrite Ha, Hb.
  replace (Z.to_nat (Z.max _ _ - Z.min _ _)) with 2%nat by lia.
  replace (Z.to_nat (Z.min _ _)) with (length pre) by lia.
  subst str. unfold JSString in *. by rewrite drop_app_length.
Qed.

Lemma safeSubstring_empty_range_inside_pair_witness :
  substring [97; 0xd83d; 0xde00; 98] 2 (Some 2) = [] ∧
  safeSubstring [97; 0xd83d; 0xde00; 98] 2 (Some 2) = [0xd83d; 0xde00].
Proof.
  apply (safeSubstring_empty_range_inside_pair [97] [98] 0xd83d 0xde00);
    reflexivity.
Defined.

Lemma skip_trailing_more_fuel (fuel k : nat) (str : JSString) (start : Z) :
  isTrailingLoneSurrogate (charCodeAt str (skip_trailing fuel str start))
  = false →
  skip_trailing (fuel + k) str start = skip_trailing fuel str start.
Proof.
  revert start. induction fuel as [|fuel IH]; intros start; simpl.
  - intros Hstop. destruct k; simpl; [done|]. by rewrite Hstop.
  - destruct (isTrailingLoneSurrogate (charCodeAt str start)) eqn:Ht;
      [apply IH|done].
Qed.

Lemma drop_leading_more_fuel (fuel k : nat) (str : JSString) (end_ : Z) :
  isLeadingLoneSurrogate (charCodeAt str (drop_leading fuel str end_ - 1))
  = false →
  drop_leading (fuel + k) str end_ = drop_leading fuel str end_.
Proof.
  revert end_. induction fuel as [|fuel IH]; intros end_; simpl.
  - intros Hstop. destruct k; simpl; [done|]. by rewrite Hstop.
  - destruct (isLeadingLoneSurrogate (charCodeAt str (end_ - 1))) eqn:Ht;
      [apply IH|done].
Qed.

(** X28: the two loops of [safeSubstring] end, for every string and all
    integers [start] and [end]: within as many rounds as the string has
    code units each loop has reached an index where its test fails, and
    more rounds change nothing. *)
Theorem safeSubstring_loops_end (str : JSString) (start end_ : Z)
    (k : nat) :
  let a := skip_trailing (length str) str start in
  let b := drop_leading (length str) str end_ in
  isTrailingLoneSurrogate (charCodeAt str a) = false ∧
  isLeadingLoneSurrogate (charCodeAt str (b - 1)) = false ∧
  skip_trailing (length str + k) str start = a ∧
  drop_leading (length str + k) str end_ = b.
Proof.
  intros a b.
  destruct (skip_trailing_spec (length str) str start) as (_ & _ & Ha).
  destruct (drop_leading_spec (length str) str end_) as (_ & _ & Hb).
  specialize (Ha ltac:(lia)). specialize (Hb ltac:(lia)).
  split_and!; [done|done|..].
  - by apply skip_trailing_more_fuel.
  - by apply drop_leading_more_fuel.
Qed.

(** ** Roles in a workspace *)

Import Workspace.

(** X29: the role checks are nested: [isAdmin] holds for the role admin
    only, [isBuilder] for admin and builder, [isUser] for admin, builder
    and user; at most one of [isOnlyAdmin], [isOnlyBuilder] and
    [isOnlyUser] holds, and none of the six for the owner [null] or the
    role none. *)
Theorem role_checks_nested (owner : option WorkspaceType) :
  isAdmin owner = isOnlyAdmin owner ∧
  isBuilder owner = isOnlyAdmin owner || isOnlyBuilder owner ∧
  isUser owner = isBuilder owner || isOnlyUser owner ∧
  isOnlyAdmin owner && isOnlyBuilder owner = false ∧
  isOnlyAdmin owner && isOnlyUser owner = false ∧
  isOnlyBuilder owner && isOnlyUser owner = false ∧
  (isUser owner = false ↔ owner = None ∨ role <$> owner = Some none).
Proof.
  destruct owner as [[i s n []]|]; simpl; split_and!; try done;
    intuition congruence.
Qed.
